(** * Vox / vyxen_core: a shallow embedding of the decision core

    The development follows the Python sources module by module:

    - [Safety]        vyxen_core/safety.py        (CircuitBreaker)
    - [Memory]        vyxen_core/memory.py        (CausalMemory)
    - [Governor]      vyxen_core/governor.py      (Governor.deliberate)
    - [Conversation]  vyxen_core/conversation.py  (SessionStore)
    - [Cognition]     vyxen_core/cognition.py     (safe-mode transitions)
    - [Actions]       vyxen_core/actions.py       (RateLimiter, ActionAuditor)
    - [State]         vyxen_core/state.py         (InternalState)
    - [Identity]      vyxen_core/identity.py      (IdentityCore)
    - [Strategic]     vyxen_core/realities/strategic.py
    - [Acting]        vyxen_core/cognition.py     (_decide, _act)

    The modules [SafetySpec] ... [ActingSpec] hold the predicates the
    statements are written with and the scenarios of the test suite; the
    modules [SafetyFacts] ... [ActingFacts] hold the proofs.

    Python floats (timestamps, scores) are idealised as rationals [Q]; Python
    ints are [Z].  Every call of [time.time()] is an explicit argument of the
    function that makes it, so that two reads inside one method are two
    arguments. *)

From stdpp Require Import gmap strings list fin_maps.
From Stdlib Require Import Ascii QArith Qminmax Lqa.

Local Open Scope Q_scope.

(** ** Rational comparisons as booleans *)

Definition Qltb (x y : Q) : bool := negb (Qle_bool y x).
Definition Qleb (x y : Q) : bool := Qle_bool x y.

(** ** Python strings *)

Definition lower_ascii (c : ascii) : ascii :=
  let n := nat_of_ascii c in
  if ((65 <=? n) && (n <=? 90))%nat then ascii_of_nat (n + 32) else c.

(** [str.lower()], on ASCII text. *)
Fixpoint lower (s : string) : string :=
  match s with
  | EmptyString => EmptyString
  | String c rest => String (lower_ascii c) (lower rest)
  end.

(** [str.startswith(p)] *)
Fixpoint startswith (p s : string) : bool :=
  match p, s with
  | EmptyString, _ => true
  | String a p', String b s' => if Ascii.eqb a b then startswith p' s' else false
  | String _ _, EmptyString => false
  end.

(** [p in s] *)
Fixpoint contains (p s : string) : bool :=
  match s with
  | EmptyString => startswith p EmptyString
  | String _ rest => startswith p s || contains p rest
  end.

Definition is_whitespace (c : ascii) : bool :=
  let n := nat_of_ascii c in
  ((n =? 32) || ((9 <=? n) && (n <=? 13)) || ((28 <=? n) && (n <=? 31)))%nat.

Fixpoint lstrip (s : string) : string :=
  match s with
  | EmptyString => EmptyString
  | String c rest => if is_whitespace c then lstrip rest else s
  end.

Fixpoint rstrip (s : string) : string :=
  match s with
  | EmptyString => EmptyString
  | String c rest =>
      match rstrip rest with
      | EmptyString => if is_whitespace c then EmptyString else String c EmptyString
      | rest' => String c rest'
      end
  end.

(** [str.strip()] *)
Definition strip (s : string) : string := rstrip (lstrip s).

(** ** Exceptions and results *)

Inductive exn : Type :=
| OperationalError (msg : string)      (* sqlite3.OperationalError *)
| FileNotFoundError
| OtherError (msg : string).

(** [str(exc)] *)
Definition exn_str (e : exn) : string :=
  match e with
  | OperationalError msg => msg
  | FileNotFoundError => "file not found"
  | OtherError msg => msg
  end.

(** What a call does: it returns a value or an exception leaves it. *)
Inductive outcome (A : Type) : Type :=
| Ok (a : A)
| Raised (e : exn).
Arguments Ok {A} a.
Arguments Raised {A} e.

(** [try: body  except Exception: handler] *)
Definition try_except {A : Type} (body : outcome A) (handler : exn -> outcome A)
  : outcome A :=
  match body with
  | Ok a => Ok a
  | Raised e => handler e
  end.

Definition raises {A : Type} (o : outcome A) : bool :=
  match o with Ok _ => false | Raised _ => true end.

(** ** config.py *)

(** The fields of [RuntimeConfig] that the modelled code reads. *)
Record RuntimeConfig : Type := mkConfig {
  tick_interval_seconds : Q;
  safe_mode_tick_interval_seconds : Q;
  safe_mode_default : bool;
  memory_retention_limit : Z;
  hot_memory_row_cap : Z;
  hot_rotation_chunk : Z;
  memory_retention_window_seconds : Q;
  memory_max_file_mb : Z;
  memory_max_writes_per_second : Z;
  memory_table_limits : option (gmap string Z);
  session_ttl_seconds : Q;
  pm2_ingestion_enabled : bool;
  log_ingest_timeout_seconds : Q;
  watchdog_cpu_load : Q;
  watchdog_memory_mb : Z;
  watchdog_event_loop_lag : Q;
  watchdog_queue_depth : Z;
  watchdog_safe_tick_interval : Q
}.

(** The defaults of the dataclass. *)
Definition default_config : RuntimeConfig :=
  {| tick_interval_seconds := 0.5;
     safe_mode_tick_interval_seconds := 1;
     safe_mode_default := true;
     memory_retention_limit := 2000;
     hot_memory_row_cap := 2000;
     hot_rotation_chunk := 400;
     memory_retention_window_seconds := 259200;
     memory_max_file_mb := 600;
     memory_max_writes_per_second := 4;
     memory_table_limits := None;
     session_ttl_seconds := 300;
     pm2_ingestion_enabled := false;
     log_ingest_timeout_seconds := 0.25;
     watchdog_cpu_load := 1.25;
     watchdog_memory_mb := 1024;
     watchdog_event_loop_lag := 0.25;
     watchdog_queue_depth := 120;
     watchdog_safe_tick_interval := 1.5 |}.

(** [get_memory_table_limits()] *)
Definition get_memory_table_limits (cfg : RuntimeConfig) : gmap string Z :=
  match memory_table_limits cfg with
  | Some limits => limits
  | None =>
      list_to_map
        [("memory", 4000%Z); ("user_profiles", 2000%Z);
         ("relationships", 4000%Z); ("shared_context", 2000%Z);
         ("user_important", 2000%Z); ("server_profiles", 500%Z);
         ("server_events", 2000%Z); ("admin_policies", 500%Z);
         ("identity_traits", 20%Z)]
  end.

(** ** stimuli.py *)

(** The keys of [Stimulus.context] that the modelled code reads. *)
Record Context : Type := mkContext {
  author_id : option Z;
  server_id : option string;
  channel_id : option Z;
  mentions_bot : bool;
  content : option string
}.

Record Stimulus : Type := mkStimulus {
  type : string;
  source : string;
  context : Context;
  salience : Q;
  routing : string;
  timestamp : Q
}.

(** ** safety.py *)

Module Safety.

(** [class CircuitBreaker]: the logger is not part of the state. *)
Record CircuitBreaker : Type := mkBreaker {
  name : string;
  threshold : Z;
  window_seconds : Q;
  cooldown_seconds : Q;
  failures : list Q;          (* deque: head is the oldest entry *)
  tripped_until : Q;
  reason : string
}.

(** [__init__] *)
Definition new (nm : string) (thr : Z) (win cool : Q) : CircuitBreaker :=
  {| name := nm; threshold := thr; window_seconds := win;
     cooldown_seconds := cool; failures := []; tripped_until := 0;
     reason := "" |}.

Definition set_failures (fs : list Q) (b : CircuitBreaker) : CircuitBreaker :=
  {| name := name b; threshold := threshold b;
     window_seconds := window_seconds b;
     cooldown_seconds := cooldown_seconds b; failures := fs;
     tripped_until := tripped_until b; reason := reason b |}.

Definition set_reason (r : string) (b : CircuitBreaker) : CircuitBreaker :=
  {| name := name b; threshold := threshold b;
     window_seconds := window_seconds b;
     cooldown_seconds := cooldown_seconds b; failures := failures b;
     tripped_until := tripped_until b; reason := r |}.

Definition set_tripped_until (t : Q) (b : CircuitBreaker) : CircuitBreaker :=
  {| name := name b; threshold := threshold b;
     window_seconds := window_seconds b;
     cooldown_seconds := cooldown_seconds b; failures := failures b;
     tripped_until := t; reason := reason b |}.

(** The [tripped] property reads the wall clock itself: [clock] is that
    reading. *)
Definition tripped (clock : Q) (b : CircuitBreaker) : bool :=
  Qltb clock (tripped_until b).

(** [while self.failures and now - self.failures[0] > window: popleft()] *)
Fixpoint drop_expired (window now : Q) (fs : list Q) : list Q :=
  match fs with
  | [] => []
  | f :: rest =>
      if Qltb window (now - f) then drop_expired window now rest else fs
  end.

(** [_prune(now)]; [clock] is the reading made by [self.tripped]. *)
Definition _prune (now clock : Q) (b : CircuitBreaker) : CircuitBreaker :=
  let b1 := set_failures (drop_expired (window_seconds b) now (failures b)) b in
  if tripped clock b1 && Qleb (tripped_until b1) now
  then set_reason "" (set_failures [] b1)
  else b1.

(** [allow()]: [now] is the reading of the method, [clock] the one of
    [_prune]. *)
Definition allow (now clock : Q) (b : CircuitBreaker) : bool * CircuitBreaker :=
  let b1 := _prune now clock b in
  if Qltb now (tripped_until b1) then (false, b1) else (true, b1).

(** [record_failure(reason)] *)
Definition record_failure (now clock : Q) (r : string) (b : CircuitBreaker)
  : CircuitBreaker :=
  let b1 := set_failures (failures b ++ [now]) b in
  let b2 := set_reason r b1 in
  let b3 := _prune now clock b2 in
  if (threshold b3 <=? Z.of_nat (length (failures b3)))%Z
  then set_tripped_until (now + cooldown_seconds b3) b3
  else b3.

(** [record_success()] *)
Definition record_success (now clock : Q) (b : CircuitBreaker) : CircuitBreaker :=
  let b1 := _prune now clock b in
  match failures b1 with
  | [] => set_reason "" b1
  | _ :: _ => b1
  end.

(** A run of [record_failure] calls, each with its two clock readings. *)
Definition record_failures (calls : list (Q * Q * string)) (b : CircuitBreaker)
  : CircuitBreaker :=
  fold_left (fun acc c => record_failure c.1.1 c.1.2 c.2 acc) calls b.

End Safety.

(** ** memory.py *)

Module Memory.
Import Safety.

(** A row of the [memory] table.  A TEXT column that holds JSON is modelled
    by the document it holds. *)
Record MemRow : Type := mkRow {
  row_id : Z;
  row_server_id : string;
  row_stimulus_type : string;
  row_context : Context;
  row_interpretations : string;
  row_decision : string;
  row_action : string;
  row_outcome : string;
  row_confidence_delta : Q;
  row_ts : Q
}.

(** [@dataclass MemoryEntry] *)
Record MemoryEntry : Type := mkEntry {
  entry_id : Z;
  entry_server_id : string;
  entry_stimulus_type : string;
  entry_context : Context;
  entry_interpretations : string;
  entry_decision : string;
  entry_action : string;
  entry_outcome : string;
  entry_confidence_delta : Q;
  entry_timestamp : Q
}.

(** A row of one of the other tables: its rowid, its primary key, its
    [data] column (a JSON object of floats, [None] when the text does not
    decode to one) and the column the trim orders by. *)
Record AuxRow : Type := mkAux {
  aux_rowid : Z;
  aux_key : list string;
  aux_data : option (gmap string Q);
  aux_stamp : Q
}.

(** The sqlite file. *)
Record Db : Type := mkDb {
  memory : list MemRow;             (* in rowid order *)
  next_id : Z;                      (* AUTOINCREMENT *)
  tables : gmap string (list AuxRow)
}.

(** A line of the warm archive. *)
Inductive ArchiveLine : Type :=
| RowSummary (server_id type decision outcome : string) (ts : Q)
| Aggregate (counts : list (string * Z)) (ts_min ts_max : Q).

Definition PROFILE_DEFAULTS : gmap string Q :=
  list_to_map
    [("verbosity", 0.5); ("humor_tolerance", 0.5); ("tone_balance", 0.5);
     ("success_rate", 0.5); ("warmth", 0.5); ("formality", 0.5);
     ("brevity_bias", 0.5); ("precision", 0.5)].

Definition RELATIONSHIP_DEFAULTS : gmap string Q :=
  list_to_map [("affinity", 0.5); ("trust", 0.5); ("topic_overlap", 0.5)].

Definition clamp01 (val : Q) : Q := Qmax 0 (Qmin 1 val).

(** [class CausalMemory]; [db] and [warm_archive] are the two files the
    object owns. *)
Record CausalMemory : Type := mkMemory {
  config : RuntimeConfig;
  allow_writes : bool;
  _table_limits : gmap string Z;
  _write_timestamps : list Q;       (* deque: head is the oldest entry *)
  _breaker : CircuitBreaker;
  disabled_due_to_size : bool;
  disabled_reason : string;
  last_rotation_ts : option Q;
  db : Db;
  warm_archive : list ArchiveLine
}.

Definition set_allow_writes (v : bool) (m : CausalMemory) : CausalMemory :=
  mkMemory (config m) v (_table_limits m) (_write_timestamps m) (_breaker m)
    (disabled_due_to_size m) (disabled_reason m) (last_rotation_ts m) (db m)
    (warm_archive m).

Definition set_write_timestamps (v : list Q) (m : CausalMemory) : CausalMemory :=
  mkMemory (config m) (allow_writes m) (_table_limits m) v (_breaker m)
    (disabled_due_to_size m) (disabled_reason m) (last_rotation_ts m) (db m)
    (warm_archive m).

Definition set_breaker (v : CircuitBreaker) (m : CausalMemory) : CausalMemory :=
  mkMemory (config m) (allow_writes m) (_table_limits m) (_write_timestamps m) v
    (disabled_due_to_size m) (disabled_reason m) (last_rotation_ts m) (db m)
    (warm_archive m).

Definition set_disabled (v : bool) (why : string) (m : CausalMemory) : CausalMemory :=
  mkMemory (config m) (allow_writes m) (_table_limits m) (_write_timestamps m)
    (_breaker m) v why (last_rotation_ts m) (db m) (warm_archive m).

Definition set_last_rotation_ts (v : option Q) (m : CausalMemory) : CausalMemory :=
  mkMemory (config m) (allow_writes m) (_table_limits m) (_write_timestamps m)
    (_breaker m) (disabled_due_to_size m) (disabled_reason m) v (db m)
    (warm_archive m).

Definition set_db (v : Db) (m : CausalMemory) : CausalMemory :=
  mkMemory (config m) (allow_writes m) (_table_limits m) (_write_timestamps m)
    (_breaker m) (disabled_due_to_size m) (disabled_reason m)
    (last_rotation_ts m) v (warm_archive m).

Definition set_warm_archive (v : list ArchiveLine) (m : CausalMemory) : CausalMemory :=
  mkMemory (config m) (allow_writes m) (_table_limits m) (_write_timestamps m)
    (_breaker m) (disabled_due_to_size m) (disabled_reason m)
    (last_rotation_ts m) (db m) v.

(** *** SQL fragments *)

(** [LIMIT n]: a negative bound is no bound in SQLite. *)
Definition sql_limit {A : Type} (n : Z) (l : list A) : list A :=
  if (n <? 0)%Z then l else take (Z.to_nat n) l.

Fixpoint insert_asc {A : Type} (key : A -> Q) (x : A) (l : list A) : list A :=
  match l with
  | [] => [x]
  | y :: rest =>
      if Qleb (key x) (key y) then x :: l else y :: insert_asc key x rest
  end.

Fixpoint insert_desc {A : Type} (key : A -> Q) (x : A) (l : list A) : list A :=
  match l with
  | [] => [x]
  | y :: rest =>
      if Qleb (key y) (key x) then x :: l else y :: insert_desc key x rest
  end.

(** [ORDER BY key ASC] and [ORDER BY key DESC]; rows with equal keys stay in
    rowid order. *)
Definition order_asc {A : Type} (key : A -> Q) (l : list A) : list A :=
  foldr (insert_asc key) [] l.
Definition order_desc {A : Type} (key : A -> Q) (l : list A) : list A :=
  foldr (insert_desc key) [] l.

(** [DELETE FROM memory WHERE id IN (ids)] *)
Definition delete_ids (ids : list Z) (rows : list MemRow) : list MemRow :=
  filter (fun r => row_id r ∉ ids) rows.

Definition delete_rowids (ids : list Z) (rows : list AuxRow) : list AuxRow :=
  filter (fun r => aux_rowid r ∉ ids) rows.

(** [SELECT COUNT( * ) FROM table]; [None] when the table does not exist. *)
Definition table_count (d : Db) (table : string) : option Z :=
  if decide (table = "memory") then Some (Z.of_nat (length (memory d)))
  else (fun rows => Z.of_nat (length rows)) <$> tables d !! table.

(** *** Size ceiling *)

(** What [config.memory_path.stat()] gives: the size in MB, or an error. *)
Inductive stat_result : Type :=
| StatSize (size_mb : Q)
| StatNotFound
| StatFails (e : exn).

(** [disabled_reason] of a file over the ceiling; the code formats the
    measured size and the limit into the text, which is carried here
    without the two numbers. *)
Definition size_reason : string :=
  "memory db exceeds limit; memory access disabled".

(** [_check_size_limit()] *)
Definition _check_size_limit (stat : stat_result) (m : CausalMemory)
  : CausalMemory :=
  match stat with
  | StatSize size_mb =>
      if Qltb (inject_Z (memory_max_file_mb (config m))) size_mb
      then set_disabled true size_reason (set_allow_writes false m)
      else
        (* If size recovers, allow_writes stays whatever was requested at init *)
        set_disabled false "" m
  | StatNotFound => m
  | StatFails _ => m
  end.

Definition schema_tables : list string :=
  ["user_profiles"; "relationships"; "shared_context"; "user_important";
   "server_profiles"; "server_events"; "admin_policies"].

(** [_init_db()]: [CREATE TABLE IF NOT EXISTS] for every table. *)
Definition _init_db (io : option exn) (m : CausalMemory) : CausalMemory :=
  if disabled_due_to_size m then m
  else match io with
       | Some _ => m
       | None =>
           let create (t : string) (ts : gmap string (list AuxRow)) :=
             match ts !! t with
             | Some _ => ts
             | None => <[t := []]> ts
             end in
           set_db (mkDb (memory (db m)) (next_id (db m))
                        (foldr create (tables (db m)) schema_tables)) m
       end.

(** [__init__(config, allow_writes)], on the files found on disk. *)
Definition new (cfg : RuntimeConfig) (writes : bool) (disk : Db)
    (archive : list ArchiveLine) (stat : stat_result) (io : option exn)
  : CausalMemory :=
  let m := mkMemory cfg writes (get_memory_table_limits cfg) []
             (Safety.new "memory" 5 60 180) false "" None disk archive in
  _init_db io (_check_size_limit stat m).

(** *** Write path *)

(** [_prune_writes(now)]: [now = now or time.time()], so a reading of 0.0
    is replaced by a second one. *)
Definition _prune_writes (now clock : Q) (stamps : list Q) : list Q :=
  let now := if Qeq_bool now 0 then clock else now in
  drop_expired 1 now stamps.

(** [_table_over_limit(conn, table)] *)
Definition _table_over_limit (m : CausalMemory) (table : string) : bool :=
  match _table_limits m !! table with
  | None => false
  | Some limit =>
      if (limit =? 0)%Z then false
      else match table_count (db m) table with
           | Some n => (limit <=? n)%Z
           | None => false
           end
  end.

(** The readings of [time.time()] made by one [_execute_write], in program
    order: by [_breaker.allow()] and its [tripped], by the method, by
    [_prune_writes] when the former is 0.0, at the commit, and by
    [record_success] or [record_failure] and its [tripped]. *)
Record WriteClock : Type := mkWriteClock {
  wc_allow : Q;
  wc_allow_tripped : Q;
  wc_now : Q;
  wc_prune : Q;
  wc_commit : Q;
  wc_breaker : Q;
  wc_breaker_tripped : Q
}.

Inductive skip_reason : Type :=
| WritesOff | BreakerOpen | RateLimited | TableFull | Locked.

(** The path a write took; Python returns [None] on each of them. *)
Inductive write_result : Type :=
| Skipped (why : skip_reason)
| Committed (stamp : Q)
| Failed (e : exn).

(** [_execute_write(table, writer)]; [io] is the exception, if any, that
    the sqlite connection raises during this call. *)
Definition _execute_write (clk : WriteClock) (io : option exn)
    (table : string) (writer : Db -> outcome Db) (m : CausalMemory)
  : CausalMemory * write_result :=
  if negb (allow_writes m) then (m, Skipped WritesOff) else
  let (ok, br) := allow (wc_allow clk) (wc_allow_tripped clk) (_breaker m) in
  let m1 := set_breaker br m in
  if negb ok then (m1, Skipped BreakerOpen) else
  let stamps := _prune_writes (wc_now clk) (wc_prune clk) (_write_timestamps m1) in
  let m2 := set_write_timestamps stamps m1 in
  if (memory_max_writes_per_second (config m2) <=? Z.of_nat (length stamps))%Z
  then (m2, Skipped RateLimited) else
  let body : outcome (option Db) :=
    match io with
    | Some e => Raised e
    | None =>
        if _table_over_limit m2 table then Ok None
        else match writer (db m2) with
             | Ok d => Ok (Some d)
             | Raised e => Raised e
             end
    end in
  let failed (e : exn) :=
    (set_breaker (record_failure (wc_breaker clk) (wc_breaker_tripped clk)
                    (exn_str e) (_breaker m2)) m2, Failed e) in
  match body with
  | Ok None => (m2, Skipped TableFull)
  | Ok (Some d) =>
      let m3 := set_write_timestamps (stamps ++ [wc_commit clk]) (set_db d m2) in
      (set_breaker (record_success (wc_breaker clk) (wc_breaker_tripped clk)
                      (_breaker m3)) m3,
       Committed (wc_commit clk))
  | Raised (OperationalError msg) =>
      if contains "locked" (lower msg) then (m2, Skipped Locked)
      else failed (OperationalError msg)
  | Raised e => failed e
  end.

(** [record(...)]: the closure [writer]; [clock] is its [time.time()]. *)
Definition record_writer (cfg : RuntimeConfig) (clock : Q)
    (server : string) (stimulus : Stimulus)
    (interpretations decision action result : string)
    (confidence_delta : Q) (d : Db) : outcome Db :=
  let row := mkRow (next_id d) server (type stimulus) (context stimulus)
               interpretations decision action result confidence_delta
               (timestamp stimulus) in
  let rows1 := memory d ++ [row] in
  let keep := row_id <$> sql_limit (memory_retention_limit cfg)
                           (order_desc row_ts rows1) in
  let rows2 := filter (fun r => row_id r ∈ keep) rows1 in
  let cutoff := clock - memory_retention_window_seconds cfg in
  let rows3 := filter (fun r => Qltb (row_ts r) cutoff = false) rows2 in
  Ok (mkDb rows3 (next_id d + 1)%Z (tables d)).

Definition record (clk : WriteClock) (io : option exn) (clock : Q)
    (server : string) (stimulus : Stimulus)
    (interpretations decision action result : string)
    (confidence_delta : Q) (m : CausalMemory) : CausalMemory * write_result :=
  _execute_write clk io "memory"
    (record_writer (config m) clock server stimulus interpretations decision
       action result confidence_delta) m.

(** One call of the write path, whatever the public method that makes it. *)
Record WriteCall : Type := mkWriteCall {
  call_clock : WriteClock;
  call_io : option exn;
  call_table : string;
  call_writer : Db -> outcome Db
}.

Fixpoint run_writes (calls : list WriteCall) (m : CausalMemory)
  : CausalMemory * list write_result :=
  match calls with
  | [] => (m, [])
  | c :: rest =>
      let (m1, r) := _execute_write (call_clock c) (call_io c)
                       (call_table c) (call_writer c) m in
      let (m2, rs) := run_writes rest m1 in
      (m2, r :: rs)
  end.

(** The timestamps of the writes that were committed, in order. *)
Definition committed (rs : list write_result) : list Q :=
  omap (fun r => match r with Committed t => Some t | _ => None end) rs.

(** *** Maintenance and rotation *)

Definition trims : list string :=
  ["user_profiles"; "relationships"; "shared_context"; "user_important";
   "server_events"; "admin_policies"].

(** The statement on the [memory] table in [_enforce_table_limits]. *)
Definition trim_memory (cap : Z) (rows : list MemRow) : list MemRow :=
  let total := Z.of_nat (length rows) in
  if (cap <? total)%Z then
    let to_delete := Z.max 0 (total - cap) in
    delete_ids (row_id <$> sql_limit to_delete (order_asc row_ts rows)) rows
  else rows.

(** One round of the loop over [trims]; [None] when the query raises
    because the table does not exist. *)
Definition trim_table (limits : gmap string Z) (table : string)
    (ts : gmap string (list AuxRow)) : option (gmap string (list AuxRow)) :=
  match limits !! table with
  | None => Some ts
  | Some limit =>
      if (limit =? 0)%Z then Some ts
      else match ts !! table with
           | None => None
           | Some rows =>
               let count := Z.of_nat (length rows) in
               if (limit <? count)%Z then
                 let drop := (count - limit)%Z in
                 Some (<[table :=
                          delete_rowids
                            (aux_rowid <$> sql_limit drop (order_asc aux_stamp rows))
                            rows]> ts)
               else Some ts
           end
  end.

(** [_enforce_table_limits()]: when anything raises, nothing is
    committed. *)
Definition _enforce_table_limits (io : option exn) (m : CausalMemory)
  : CausalMemory :=
  if disabled_due_to_size m then m
  else match io with
       | Some _ => m
       | None =>
           let rows := trim_memory (hot_memory_row_cap (config m)) (memory (db m)) in
           match foldl (fun acc t => acc ≫= trim_table (_table_limits m) t)
                       (Some (tables (db m))) trims with
           | Some ts => set_db (mkDb rows (next_id (db m)) ts) m
           | None => m
           end
       end.

(** [type_counter[stim_type] += 1] on a [Counter], which keeps the order
    of first occurrence. *)
Fixpoint count_type (t : string) (counts : list (string * Z)) : list (string * Z) :=
  match counts with
  | [] => [(t, 1%Z)]
  | (k, n) :: rest =>
      if decide (k = t) then (k, (n + 1)%Z) :: rest
      else (k, n) :: count_type t rest
  end.

Definition row_summary (r : MemRow) : ArchiveLine :=
  RowSummary (row_server_id r) (row_stimulus_type r) (row_decision r)
    (row_outcome r) (row_ts r).

(** [_summarize_rows(rows)] *)
Definition _summarize_rows (rows : list MemRow) : list ArchiveLine :=
  let summaries := row_summary <$> rows in
  match rows with
  | [] => summaries
  | r :: rest =>
      summaries
      ++ [Aggregate
            (foldl (fun c x => count_type (row_stimulus_type x) c) [] rows)
            (foldr Qmin (row_ts r) (row_ts <$> rest))
            (foldr Qmax (row_ts r) (row_ts <$> rest))]
  end.

(** [_append_warm_archive(summaries)]; a failure to append is logged and
    swallowed. *)
Definition _append_warm_archive (archive_ok : bool)
    (summaries : list ArchiveLine) (m : CausalMemory) : CausalMemory :=
  match summaries with
  | [] => m
  | _ :: _ =>
      if archive_ok then set_warm_archive (warm_archive m ++ summaries) m
      else m
  end.

(** [_rotate_old_records()]; [io] is what the connection raises before the
    rows are read.  A failure of the DELETE or of the commit, which comes
    after the archive has been written, is not modelled. *)
Definition _rotate_old_records (io : option exn) (archive_ok : bool)
    (clock : Q) (m : CausalMemory) : CausalMemory * Z :=
  if negb (allow_writes m) then (m, 0%Z)
  else match io with
       | Some _ => (m, 0%Z)
       | None =>
           let cap := hot_memory_row_cap (config m) in
           let chunk := hot_rotation_chunk (config m) in
           let total := Z.of_nat (length (memory (db m))) in
           if (total <=? cap)%Z then (m, 0%Z)
           else
             let to_move := Z.min chunk (total - cap) in
             let rows := sql_limit to_move (order_asc row_ts (memory (db m))) in
             let ids := row_id <$> rows in
             let m1 := _append_warm_archive archive_ok (_summarize_rows rows) m in
             let m2 := set_db (mkDb (delete_ids ids (memory (db m1)))
                                    (next_id (db m1)) (tables (db m1))) m1 in
             (set_last_rotation_ts (Some clock) m2, Z.of_nat (length rows))
       end.

(** What one [maintain()] meets outside the object. *)
Record MaintEnv : Type := mkMaintEnv {
  env_stat : stat_result;
  env_enforce_io : option exn;
  env_rotate_io : option exn;
  env_archive_ok : bool;
  env_vacuum_io : option exn;
  env_clock : Q
}.

(** The dictionary [maintain()] returns. *)
Record Report : Type := mkReport {
  rotated : Z;
  vacuumed : bool;
  disabled : bool;
  report_disabled_reason : option string
}.

(** [maintain()] *)
Definition maintain (env : MaintEnv) (m : CausalMemory) : CausalMemory * Report :=
  let was_disabled := disabled_due_to_size m in
  let m1 := _check_size_limit (env_stat env) m in
  if disabled_due_to_size m1
  then (m1, mkReport 0 false was_disabled (Some (disabled_reason m1)))
  else
    let m2 := _enforce_table_limits (env_enforce_io env) m1 in
    let (m3, n) := _rotate_old_records (env_rotate_io env) (env_archive_ok env)
                     (env_clock env) m2 in
    let vac := match env_vacuum_io env with None => true | Some _ => false end in
    (m3, mkReport n vac was_disabled None).

(** *** Reads *)

Definition entry_of_row (server : string) (r : MemRow) : MemoryEntry :=
  mkEntry (row_id r) server (row_stimulus_type r) (row_context r)
    (row_interpretations r) (row_decision r) (row_action r) (row_outcome r)
    (row_confidence_delta r) (row_ts r).

(** [fetch_recent(server_id, limit)] *)
Definition fetch_recent (io : option exn) (m : CausalMemory)
    (server : string) (limit : Z) : outcome (list MemoryEntry) :=
  if disabled_due_to_size m then Ok []
  else match io with
       | Some e => Raised e
       | None =>
           Ok (entry_of_row server
                 <$> sql_limit limit
                       (order_desc row_ts
                          (filter (fun r => row_server_id r = server)
                                  (memory (db m)))))
       end.

(** The body of the loop of [echoes]. *)
Definition echo_of_row (now : Q) (stimulus : Stimulus) (r : MemRow) : Stimulus :=
  let age_hours := Qmax 0.1 ((now - row_ts r) / 3600) in
  let decay := 1 / (1 + age_hours / 24) in
  mkStimulus (row_stimulus_type r) "memory" (row_context r)
    (Qmin 1 (salience stimulus * 0.7 * decay)) "system" (row_ts r).

(** [echoes(server_id, stimulus, limit)] *)
Definition echoes (io : option exn) (now : Q) (m : CausalMemory)
    (server : string) (stimulus : Stimulus) (limit : Z)
  : outcome (list Stimulus) :=
  if disabled_due_to_size m then Ok []
  else match io with
       | Some e => Raised e
       | None =>
           Ok (echo_of_row now stimulus
                 <$> sql_limit limit
                       (order_desc row_ts
                          (filter (fun r => row_server_id r = server
                                            /\ row_stimulus_type r = type stimulus)
                                  (memory (db m)))))
       end.

(** [server_id or "global"] *)
Definition or_global (server : string) : string :=
  if decide (server = "") then "global" else server.

(** [SELECT data FROM table WHERE <primary key> = key], then the decoding
    of the row: a missing table or a [data] text that does not decode
    raises. *)
Definition select_data (io : option exn) (d : Db) (table : string)
    (key : list string) (default : gmap string Q) : outcome (gmap string Q) :=
  match io with
  | Some e => Raised e
  | None =>
      match tables d !! table with
      | None => Raised (OperationalError "no such table")
      | Some rows =>
          match list_find (fun r => aux_key r = key) rows with
          | None => Ok default
          | Some (_, r) =>
              match aux_data r with
              | Some data => Ok data
              | None => Raised (OtherError "data does not decode")
              end
          end
      end
  end.

(** [get_user_profile(server_id, user_id)] *)
Definition get_user_profile (io : option exn) (m : CausalMemory)
    (server user : string) : outcome (gmap string Q) :=
  if disabled_due_to_size m then Ok PROFILE_DEFAULTS
  else
    let server := or_global server in
    let data := PROFILE_DEFAULTS in
    try_except (select_data io (db m) "user_profiles" [server; user] data)
               (fun _ => Ok data).

(** [sorted([str(user_a), str(user_b)])] *)
Definition sorted_pair (a b : string) : string * string :=
  if String.leb a b then (a, b) else (b, a).

(** [get_relationship(server_id, user_a, user_b)] *)
Definition get_relationship (io : option exn) (m : CausalMemory)
    (server user_a user_b : string) : outcome (gmap string Q) :=
  if disabled_due_to_size m then Ok RELATIONSHIP_DEFAULTS
  else
    let server := or_global server in
    let (key_a, key_b) := sorted_pair user_a user_b in
    let data := RELATIONSHIP_DEFAULTS in
    try_except (select_data io (db m) "relationships" [server; key_a; key_b] data)
               (fun _ => Ok data).

(** [fetch_admin_policies(server_id, limit)]: the rows of the server,
    newest first. *)
Definition fetch_admin_policies (io : option exn) (m : CausalMemory)
    (server : string) (limit : Z) : outcome (list AuxRow) :=
  match io with
  | Some e => Raised e
  | None =>
      match tables (db m) !! "admin_policies" with
      | None => Raised (OperationalError "no such table")
      | Some rows =>
          Ok (sql_limit limit
                (order_desc aux_stamp
                   (filter (fun r => head (aux_key r) = Some (or_global server))
                           rows)))
      end
  end.

(** *** Topics *)

(** [[a-zA-Z]] *)
Definition is_ascii_letter (c : ascii) : bool :=
  let n := nat_of_ascii c in
  (((65 <=? n) && (n <=? 90)) || ((97 <=? n) && (n <=? 122)))%nat.

(** What closes a run of letters: the run is a match of [{4,}] when it has
    four letters or more. *)
Definition close_run (run : string) : list string :=
  if (4 <=? String.length run)%nat then [run] else [].

(** [re.findall(r"[a-zA-Z]{4,}", s)]: the maximal runs of ASCII letters of
    [s] that are at least four letters long; [run] is the run being read. *)
Fixpoint letter_runs (s : string) (run : string) : list string :=
  match s with
  | EmptyString => close_run run
  | String c rest =>
      if is_ascii_letter c then letter_runs rest (run +:+ String c EmptyString)
      else close_run run ++ letter_runs rest EmptyString
  end.

(** The loop of [extract_topics] over the tokens; the bound is tested after
    the token has been added. *)
Fixpoint collect_topics (max_topics : Z) (tokens seen : list string)
  : list string :=
  match tokens with
  | [] => seen
  | token :: rest =>
      let seen' := if bool_decide (token ∈ seen) then seen else seen ++ [token] in
      if (max_topics <=? Z.of_nat (length seen'))%Z then seen'
      else collect_topics max_topics rest seen'
  end.

(** [extract_topics(text, max_topics)], on ASCII text. *)
Definition extract_topics (text : string) (max_topics : Z) : list string :=
  collect_topics max_topics (letter_runs (lower text) EmptyString) [].

(** *** Profiles and relationships *)

(** The rowid SQLite gives a new row of a table without AUTOINCREMENT: one
    more than the largest rowid in use. *)
Definition next_rowid (rows : list AuxRow) : Z :=
  (foldr Z.max 0 (aux_rowid <$> rows) + 1)%Z.

(** [REPLACE INTO table (<primary key>, data, <stamp>) VALUES (...)] on the
    rows of the table: the rowid of the new row is chosen first, then the
    row that holds the key, if any, is deleted and the new row is
    inserted. *)
Definition replace_into (key : list string) (data : gmap string Q) (stamp : Q)
    (rows : list AuxRow) : list AuxRow :=
  let rest := filter (fun r => aux_key r <> key) rows in
  rest ++ [mkAux (next_rowid rows) key (Some data) stamp].

(** The writer of [adjust_user_profile] and of [update_relationship]; the
    statement raises when the table does not exist. *)
Definition replace_writer (table : string) (key : list string)
    (data : gmap string Q) (stamp : Q) (d : Db) : outcome Db :=
  match tables d !! table with
  | None => Raised (OperationalError "no such table")
  | Some rows =>
      Ok (mkDb (memory d) (next_id d)
            (<[table := replace_into key data stamp rows]> (tables d)))
  end.

(** [for key, delta in deltas.items(): if key not in current: continue;
    current[key] = clamp01(current[key] + delta)].  The keys of a dict are
    distinct and a round touches its own key only, so the order of the
    rounds does not matter. *)
Definition apply_deltas (deltas current : gmap string Q) : gmap string Q :=
  map_fold (fun key delta cur =>
              match cur !! key with
              | None => cur
              | Some v => <[key := clamp01 (v + delta)]> cur
              end) current deltas.

(** [adjust_user_profile(server_id, user_id, deltas)]: [read_io] is what the
    connection of [get_user_profile] raises, [clk] and [io] are those of the
    write, and [stamp] is the [time.time()] of the writer.  Python returns
    the adjusted profile; the path the write took is returned with it. *)
Definition adjust_user_profile (read_io : option exn) (clk : WriteClock)
    (io : option exn) (stamp : Q) (server user : string)
    (deltas : gmap string Q) (m : CausalMemory)
  : outcome (CausalMemory * write_result * gmap string Q) :=
  let server := or_global server in
  match get_user_profile read_io m server user with
  | Raised e => Raised e
  | Ok current =>
      let current := apply_deltas deltas current in
      let (m', r) :=
        _execute_write clk io "user_profiles"
          (replace_writer "user_profiles" [server; user] current stamp) m in
      Ok (m', r, current)
  end.

(** [update_relationship(server_id, user_a, user_b, deltas)]; no write is
    attempted when the two users are the same. *)
Definition update_relationship (read_io : option exn) (clk : WriteClock)
    (io : option exn) (stamp : Q) (server user_a user_b : string)
    (deltas : gmap string Q) (m : CausalMemory)
  : outcome (CausalMemory * option write_result * gmap string Q) :=
  let server := or_global server in
  if decide (user_a = user_b) then Ok (m, None, RELATIONSHIP_DEFAULTS)
  else
    match get_relationship read_io m server user_a user_b with
    | Raised e => Raised e
    | Ok current =>
        let current := apply_deltas deltas current in
        let (key_a, key_b) := sorted_pair user_a user_b in
        let (m', r) :=
          _execute_write clk io "relationships"
            (replace_writer "relationships" [server; key_a; key_b] current stamp)
            m in
        Ok (m', Some r, current)
    end.

End Memory.

(** ** actions.py, identity.py, realities/base.py, governor.py *)

Module Governor.
Import Memory.

(** [ACTION_TYPES]: [ActionIntent.__post_init__] refuses any other type. *)
Inductive ActionType : Type :=
| SendMessage | Reply | React | Defer | Schedule | Observe | ToolCall.

(** [@dataclass ActionIntent] *)
Record ActionIntent : Type := mkIntent {
  intent_type : ActionType;
  target_id : option Z;
  payload : gmap string string;
  metadata : gmap string string;
  created_at : Q
}.

(** [IdentityCore.values]: the five [IDENTITY_TRAITS]. *)
Record IdentityCore : Type := mkIdentity {
  assertiveness : Q;
  playfulness : Q;
  caution : Q;
  curiosity : Q;
  patience : Q
}.

(** [@dataclass RealityOutput] *)
Record RealityOutput : Type := mkOutput {
  reality : string;
  recommended_action : option ActionIntent;
  confidence : Q;
  risk : Q;
  justification : string
}.

(** [@dataclass GovernorDecision] *)
Record GovernorDecision : Type := mkDecision {
  action : ActionIntent;
  decision_confidence : Q;
  decision_risk : Q;
  rationale : string
}.

(** [fallback = ActionIntent(type="observe", target_id=None, payload={},
    metadata={})], created at [now]. *)
Definition fallback (now : Q) : ActionIntent := mkIntent Observe None ∅ ∅ now.

Definition ambient_decision (now : Q) : GovernorDecision :=
  mkDecision (fallback now) 0.35 0.05
    "Ambient stimulus without active session or mention.".

Definition no_recommendation (now : Q) : GovernorDecision :=
  mkDecision (fallback now) 0.3 0.1
    "No strong recommendation; choosing deliberate observation.".

Definition override_decision (now : Q) : GovernorDecision :=
  mkDecision (fallback now) 0.4 0.05
    "Risk exceeded confidence; opting to hold position.".

(** [sum(entry.confidence_delta for entry in recent) / len(recent)], and
    0.0 when [recent] is empty. *)
Definition memory_bias_of (recent : list MemoryEntry) : Q :=
  match recent with
  | [] => 0
  | _ :: _ =>
      foldl (fun acc e => acc + entry_confidence_delta e) 0 recent
      / inject_Z (Z.of_nat (length recent))
  end.

(** [_score(output, memory_bias)] *)
Definition _score (identity : IdentityCore) (output : RealityOutput)
    (memory_bias : Q) : Q :=
  let base := confidence output * (1 - risk output) in
  let modulation :=
    1 + 0.2 * (assertiveness identity - caution identity)
      + 0.1 * curiosity identity + memory_bias in
  base * modulation.

Definition decision_of (output : RealityOutput) (act : ActionIntent)
  : GovernorDecision :=
  mkDecision act (confidence output) (risk output) (justification output).

(** One round of the loop over [realities], on [(best, best_score)]. *)
Definition consider (identity : IdentityCore) (memory_bias : Q)
    (acc : option GovernorDecision * Q) (output : RealityOutput)
  : option GovernorDecision * Q :=
  match recommended_action output with
  | None => acc
  | Some act =>
      let score := _score identity output memory_bias in
      if Qltb acc.2 score then (Some (decision_of output act), score) else acc
  end.

(** The loop, from [best = None] and [best_score = -1.0]. *)
Definition select (identity : IdentityCore) (memory_bias : Q)
    (realities : list RealityOutput) : option GovernorDecision * Q :=
  foldl (consider identity memory_bias) (None, -1) realities.

(** The part of [deliberate] after [memory_bias] is known. *)
Definition arbitrate (now : Q) (identity : IdentityCore) (memory_bias : Q)
    (realities : list RealityOutput) : GovernorDecision :=
  match (select identity memory_bias realities).1 with
  | None => no_recommendation now
  | Some best =>
      let risk_threshold := 0.7 - memory_bias * 0.2 in
      if Qltb risk_threshold (decision_risk best)
         && Qltb (decision_confidence best) 0.7
      then override_decision now
      else best
  end.

(** [deliberate(server_id, realities, directed)]; [now] stamps the
    fallback intent and [io] is what the sqlite connection of
    [fetch_recent] raises, if anything. *)
Definition deliberate (now : Q) (io : option exn) (identity : IdentityCore)
    (memory : CausalMemory) (server : string)
    (realities : list RealityOutput) (directed : bool)
  : outcome GovernorDecision :=
  if negb directed then Ok (ambient_decision now)
  else match fetch_recent io memory server 6 with
       | Raised e => Raised e
       | Ok recent =>
           Ok (arbitrate now identity (memory_bias_of recent) realities)
       end.

End Governor.

(** ** conversation.py *)

Module Conversation.

(** [@dataclass ConversationSession] *)
Record ConversationSession : Type := mkSession {
  user_id : Z;
  session_channel_id : Z;
  guild_id : string;
  session_start : Q;
  last_interaction : Q;
  active : bool;
  expires_at : Q;
  message_count : Z
}.

(** [expired(now)] *)
Definition expired (now : Q) (s : ConversationSession) : bool :=
  Qleb (expires_at s) now.

(** [class SessionStore].  The two dictionaries hold references to the same
    session objects, which are mutated in place: [heap] maps a reference to
    the object it points to, and [next_ref] is the next fresh reference. *)
Record SessionStore : Type := mkStore {
  ttl_seconds : Q;
  heap : gmap nat ConversationSession;
  next_ref : nat;
  sessions : gmap (Z * string * Z) nat;
  active_by_channel : gmap (string * Z) nat
}.

(** [__init__(ttl_seconds)] *)
Definition new (ttl : Q) : SessionStore := mkStore ttl ∅ 0 ∅ ∅.

Definition set_heap (h : gmap nat ConversationSession) (st : SessionStore)
  : SessionStore :=
  mkStore (ttl_seconds st) h (next_ref st) (sessions st) (active_by_channel st).

Definition set_sessions (m : gmap (Z * string * Z) nat) (st : SessionStore)
  : SessionStore :=
  mkStore (ttl_seconds st) (heap st) (next_ref st) m (active_by_channel st).

Definition set_active (m : gmap (string * Z) nat) (st : SessionStore)
  : SessionStore :=
  mkStore (ttl_seconds st) (heap st) (next_ref st) (sessions st) m.

(** [_key(user_id, guild_id, channel_id)] *)
Definition _key (user : Z) (guild : string) (channel : Z) : Z * string * Z :=
  (user, guild, channel).

(** Whether the object behind a reference is expired at [now]. *)
Definition ref_expired (st : SessionStore) (now : Q) (r : nat) : bool :=
  match heap st !! r with
  | Some s => expired now s
  | None => false
  end.

(** [expire_stale()]; [now] is its own clock reading.  The ended sessions
    are listed in the order of the keys, where Python lists them in the
    order of insertion. *)
Definition expire_stale (now : Q) (st : SessionStore)
  : list (nat * string) * SessionStore :=
  let stale := filter (fun kr => ref_expired st now kr.2 = true) (sessions st) in
  let kept := filter (fun kr => ref_expired st now kr.2 = false) (sessions st) in
  ((fun kr : Z * string * Z * nat => (kr.2, "timeout")) <$> map_to_list stale,
   set_sessions kept st).

(** The closure [_looks_directed(text)] of [route_stimulus]; [session] is
    the author's own session, if the store has one. *)
Definition _looks_directed (now : Q) (author : Z)
    (session : option ConversationSession) (text : string) : bool :=
  if decide (text = "") then false
  else if startswith "vyxen" text || startswith "vyxen," text
          || startswith "vyxen:" text || startswith "vox" text
          || startswith "vox," text then true
  else if contains "vyxen" text then true
  else match session with
       | Some s => negb (expired now s) && bool_decide (user_id s = author)
       | None => false
       end.

(** The three assignments made when a session is refreshed. *)
Definition refresh (now ttl : Q) (s : ConversationSession) : ConversationSession :=
  mkSession (user_id s) (session_channel_id s) (guild_id s) (session_start s)
    now (active s) (now + ttl) (message_count s + 1).

(** What [route_stimulus] returns, and the stimulus with its [routing]
    set. *)
Record Routed : Type := mkRouted {
  routed_label : string;
  routed_session : option nat;
  routed_ended : list (nat * string);
  routed_stimulus : Stimulus
}.

Definition with_routing (label : string) (stim : Stimulus) : Stimulus :=
  mkStimulus (type stim) (source stim) (context stim) (salience stim) label
    (timestamp stim).

(** [mention or _looks_directed(content)], on the session of the author
    found in the store. *)
Definition detected_direct (now : Q) (st : SessionStore) (stim : Stimulus)
    (author : Z) (guild : string) (channel : Z) : bool :=
  let text := lower (strip (default "" (content (context stim)))) in
  let session := sessions st !! _key author guild channel ≫= (heap st !!.) in
  mentions_bot (context stim) || _looks_directed now author session text.

(** [guild_id = stimulus.context.get("server_id") or "global"] *)
Definition guild_of (stim : Stimulus) : string :=
  match server_id (context stim) with
  | None => "global"
  | Some g => if decide (g = "") then "global" else g
  end.

(** The first step after the early returns: an active session of the
    channel that is expired at [now] is dropped from both dictionaries. *)
Definition clear_expired_active (now : Q) (guild : string) (channel : Z)
    (st : SessionStore) : SessionStore :=
  match active_by_channel st !! (guild, channel) with
  | Some r =>
      match heap st !! r with
      | Some a =>
          if expired now a then
            set_active (delete (guild, channel) (active_by_channel st))
              (set_sessions (delete (_key (user_id a) guild channel) (sessions st)) st)
          else st
      | None => st
      end
  | None => st
  end.

(** The active session of the channel, as a reference and its object. *)
Definition active_session (st : SessionStore) (guild : string) (channel : Z)
  : option (nat * ConversationSession) :=
  r ← active_by_channel st !! (guild, channel);
  a ← heap st !! r;
  Some (r, a).

(** The first block of the directed branch: an active session of another
    user is dropped from both dictionaries and reported as superseded. *)
Definition supersede (author : Z) (guild : string) (channel : Z)
    (ended : list (nat * string)) (st : SessionStore)
  : list (nat * string) * SessionStore :=
  match active_session st guild channel with
  | Some (r, a) =>
      if bool_decide (user_id a <> author) then
        (ended ++ [(r, "superseded")],
         set_active (delete (guild, channel) (active_by_channel st))
           (set_sessions (delete (_key (user_id a) guild channel) (sessions st))
              st))
      else (ended, st)
  | None => (ended, st)
  end.

(** The second block of the directed branch: the author's session, found
    under reference [session] before the block above, is refreshed when it
    is not expired, and a new one is created otherwise; it becomes the
    active session of the channel. *)
Definition engage (now : Q) (author : Z) (guild : string) (channel : Z)
    (session : option nat) (st : SessionStore) : nat * SessionStore :=
  let live :=
    r ← session; s ← heap st !! r;
    if expired now s then None else Some (r, s) in
  let (r, st') :=
    match live with
    | Some (r, s) =>
        (r, set_heap (<[r := refresh now (ttl_seconds st) s]> (heap st)) st)
    | None =>
        let r := next_ref st in
        let s := mkSession author channel guild now now true
                   (now + ttl_seconds st) 1 in
        (r, mkStore (ttl_seconds st) (<[r := s]> (heap st)) (S r)
              (<[_key author guild channel := r]> (sessions st))
              (active_by_channel st))
    end in
  (r, set_active (<[(guild, channel) := r]> (active_by_channel st')) st').

(** [route_stimulus(stimulus)]: [now] is the reading of the method and
    [clock] the one of [expire_stale]. *)
Definition route_stimulus (now clock : Q) (stim : Stimulus) (st : SessionStore)
  : Routed * SessionStore :=
  let (ended, st0) := expire_stale clock st in
  if negb (bool_decide (type stim = "discord_message")
           || bool_decide (type stim = "attachment"))
  then (mkRouted "system" None ended (with_routing "system" stim), st0)
  else
    match author_id (context stim), channel_id (context stim) with
    | Some author, Some channel =>
        let guild := guild_of stim in
        let st1 := clear_expired_active now guild channel st0 in
        let session := sessions st1 !! _key author guild channel in
        if detected_direct now st1 stim author guild channel then
          let (ended1, st2) := supersede author guild channel ended st1 in
          let (r, st3) := engage now author guild channel session st2 in
          (mkRouted "directed" (Some r) ended1 (with_routing "directed" stim),
           st3)
        else
          match active_session st1 guild channel with
          | Some (r, a) =>
              if bool_decide (user_id a = author) then
                (mkRouted "directed" (Some r) ended (with_routing "directed" stim),
                 set_heap (<[r := refresh now (ttl_seconds st1) a]> (heap st1)) st1)
              else
                (mkRouted "ambient" None ended (with_routing "ambient" stim), st1)
          | None =>
              (mkRouted "ambient" None ended (with_routing "ambient" stim), st1)
          end
    | _, _ => (mkRouted "ambient" None ended (with_routing "ambient" stim), st0)
    end.

(** What happens to a store: a stimulus is routed, or the tick sweeps the
    stale sessions. *)
Inductive Event : Type :=
| Route (now clock : Q) (stim : Stimulus)
| Sweep (now : Q).

Definition step (st : SessionStore) (e : Event) : SessionStore :=
  match e with
  | Route now clock stim => (route_stimulus now clock stim st).2
  | Sweep now => (expire_stale now st).2
  end.

Definition run (events : list Event) (st : SessionStore) : SessionStore :=
  foldl step st events.

(** [get(user_id, guild_id, channel_id)]; [now] is its clock reading. *)
Definition get (now : Q) (user : Z) (guild : string) (channel : Z)
    (st : SessionStore) : option nat :=
  match sessions st !! _key user guild channel with
  | Some r =>
      match heap st !! r with
      | Some s => if expired now s then None else Some r
      | None => None
      end
  | None => None
  end.



End Conversation.

(** ** cognition.py: what the loop does to the safe-mode flag *)

Module Cognition.
Import Safety.

(** The attributes that the steps below write: [state.safe_mode],
    [state.overrun_note], [state.watchdog_note], [memory.allow_writes],
    [tick_interval_override], [log_ingestion_disabled], the two reasons of
    [SafetyDiagnostics], and the breaker of the log reader. *)
Record Core : Type := mkCore {
  safe_mode : bool;
  overrun_note : string;
  watchdog_note : string;
  memory_allow_writes : bool;
  tick_interval_override : option Q;
  log_ingestion_disabled : bool;
  last_overrun_reason : string;
  last_watchdog_reason : string;
  pm2_breaker : CircuitBreaker
}.

(** [CognitionLoop.__init__]: [state.safe_mode = config.safe_mode_default];
    [writes] is what the memory store was created with. *)
Definition init (cfg : RuntimeConfig) (writes : bool) : Core :=
  mkCore (safe_mode_default cfg) "" "" writes None false "" ""
    (Safety.new "pm2_logs" 3 300 900).

(** [self.state.safe_mode = True] *)
Definition enter_safe_mode (c : Core) : Core :=
  mkCore true (overrun_note c) (watchdog_note c) (memory_allow_writes c)
    (tick_interval_override c) (log_ingestion_disabled c)
    (last_overrun_reason c) (last_watchdog_reason c) (pm2_breaker c).

(** [self.memory.allow_writes = False] *)
Definition disable_writes (c : Core) : Core :=
  mkCore (safe_mode c) (overrun_note c) (watchdog_note c) false
    (tick_interval_override c) (log_ingestion_disabled c)
    (last_overrun_reason c) (last_watchdog_reason c) (pm2_breaker c).

Definition set_overrun (note reason : string) (c : Core) : Core :=
  mkCore (safe_mode c) note (watchdog_note c) (memory_allow_writes c)
    (tick_interval_override c) (log_ingestion_disabled c) reason
    (last_watchdog_reason c) (pm2_breaker c).

Definition set_watchdog (override : Q) (note : string) (c : Core) : Core :=
  mkCore (safe_mode c) (overrun_note c) note (memory_allow_writes c)
    (Some override) (log_ingestion_disabled c) (last_overrun_reason c) note
    (pm2_breaker c).

Definition disable_log_ingestion (c : Core) : Core :=
  mkCore (safe_mode c) (overrun_note c) (watchdog_note c)
    (memory_allow_writes c) (tick_interval_override c) true
    (last_overrun_reason c) (last_watchdog_reason c) (pm2_breaker c).

Definition set_pm2_breaker (b : CircuitBreaker) (c : Core) : Core :=
  mkCore (safe_mode c) (overrun_note c) (watchdog_note c)
    (memory_allow_writes c) (tick_interval_override c)
    (log_ingestion_disabled c) (last_overrun_reason c)
    (last_watchdog_reason c) b.

(** [_record_overrun(reason)] *)
Definition _record_overrun (reason : string) (c : Core) : Core :=
  disable_writes (enter_safe_mode (set_overrun reason reason c)).

(** [_current_tick_interval()]; an override of 0.0 is falsy. *)
Definition _current_tick_interval (cfg : RuntimeConfig) (c : Core) : Q :=
  let base := if safe_mode c then safe_mode_tick_interval_seconds cfg
              else tick_interval_seconds cfg in
  match tick_interval_override c with
  | Some o => if Qeq_bool o 0 then base else Qmax base o
  | None => base
  end.

(** What the watchdog samples; [None] when the probe raises. *)
Record Sample : Type := mkSample {
  load_per_cpu : option Q;
  rss_mb : option Q;
  tick_elapsed : Q;
  queue_size : Z
}.

Definition above (threshold : Q) (v : option Q) : bool :=
  match v with Some x => Qltb threshold x | None => false end.

(** The disjunction that sets [overload] in [_watchdog]. *)
Definition overloaded (cfg : RuntimeConfig) (c : Core) (w : Sample) : bool :=
  let loop_lag := Qmax 0 (tick_elapsed w - _current_tick_interval cfg c) in
  above (watchdog_cpu_load cfg) (load_per_cpu w)
  || above (inject_Z (watchdog_memory_mb cfg)) (rss_mb w)
  || Qltb (watchdog_event_loop_lag cfg) loop_lag
  || (watchdog_queue_depth cfg <? queue_size w)%Z.

(** [_watchdog(tick_elapsed)]; the note, which joins the reasons found, is
    abbreviated. *)
Definition _watchdog (cfg : RuntimeConfig) (w : Sample) (c : Core) : Core :=
  if overloaded cfg c w then
    set_watchdog (watchdog_safe_tick_interval cfg) "overload"
      (disable_writes (enter_safe_mode c))
  else c.

(** What one stimulus meets on its way through [_tick]. *)
Inductive Interpretation : Type :=
| NotInterpreted        (* ambient conversational event *)
| Interpreted
| StillPending          (* futures left at the deadline: "interpret_timeout" *)
| InterpretRaises.

Inductive Dispatch : Type :=
| Enqueued
| QueueFull             (* "action_queue_full" *)
| ActRaises.

Record StimulusRun : Type := mkRun {
  late_before : bool;           (* monotonic() > deadline at the loop head *)
  interpretation : Interpretation;
  late_after : bool;            (* monotonic() > deadline after _interpret *)
  decide_raises : bool;
  dispatch : Dispatch;
  reflect_raises : bool
}.

(** The body of the loop over the stimuli of a tick; [None] when the loop
    returns from [_tick]. *)
Definition process (r : StimulusRun) (c : Core) : option Core :=
  if late_before r then None
  else
    let c1 := match interpretation r with
              | StillPending => _record_overrun "interpret_timeout" c
              | _ => c
              end in
    if late_after r then None
    else if decide_raises r then Some c1
    else match dispatch r with
         | ActRaises => Some c1
         | d =>
             let c2 := match d with
                       | QueueFull => _record_overrun "action_queue_full" c1
                       | _ => c1
                       end in
             if reflect_raises r then Some (enter_safe_mode c2) else Some c2
         end.

(** The overrun recorded when [process] returns [None]. *)
Definition overrun_of (r : StimulusRun) (c : Core) : Core :=
  if late_before r then _record_overrun "tick_budget_exceeded" c
  else
    _record_overrun "interpret_budget_exceeded"
      (match interpretation r with
       | StillPending => _record_overrun "interpret_timeout" c
       | _ => c
       end).

Fixpoint process_all (runs : list StimulusRun) (c : Core) : Core :=
  match runs with
  | [] => c
  | r :: rest =>
      match process r c with
      | Some c' => process_all rest c'
      | None => overrun_of r c
      end
  end.

(** How a tick ends: it returns, the [wait_for] around it times out, or an
    exception leaves it; in the last two cases [reached] stimuli had been
    handled. *)
Inductive Ending : Type :=
| Returns
| TimesOut (reached : nat)
| Crashes (reached : nat).

Record TickEnv : Type := mkTickEnv {
  decay_late : bool;            (* monotonic() > deadline after the decay *)
  backlog_on_empty_pull : bool; (* nothing pulled although qsize() > 0 *)
  runs : list StimulusRun;
  ending : Ending
}.

(** [_tick(tick_start)], up to the point where it ends. *)
Definition _tick (env : TickEnv) (c : Core) : Core :=
  if decay_late env then _record_overrun "decay_budget_exhausted" c
  else
    let c1 := if backlog_on_empty_pull env
              then _record_overrun "stimulus_queue_backlog" c else c in
    match ending env with
    | Returns => process_all (runs env) c1
    | TimesOut reached => process_all (take reached (runs env)) c1
    | Crashes reached => process_all (take reached (runs env)) c1
    end.

(** One round of the loop of [start()]. *)
Definition tick_round (cfg : RuntimeConfig) (env : TickEnv) (w : Sample)
    (c : Core) : Core :=
  let c1 := _tick env c in
  match ending env with
  | Returns => _watchdog cfg w c1
  | TimesOut _ => _watchdog cfg w (_record_overrun "tick_timeout" c1)
  | Crashes _ =>
      set_overrun (overrun_note c1) "tick_exception"
        (disable_writes (enter_safe_mode c1))
  end.

(** What one round of [_health_monitor] meets. *)
Inductive Scan : Type :=
| ScanRaises (msg : string)
| ScanReturns (duration : Q) (queue_full : bool).

Record HealthEnv : Type := mkHealthEnv {
  allow_now : Q;
  allow_clock : Q;
  scan : Scan;
  breaker_now : Q;
  breaker_clock : Q
}.

(** One round of the loop of [_health_monitor()]. *)
Definition health_round (cfg : RuntimeConfig) (h : HealthEnv) (c : Core) : Core :=
  if safe_mode c || log_ingestion_disabled c || negb (pm2_ingestion_enabled cfg)
  then c
  else
    let (ok, b) := allow (allow_now h) (allow_clock h) (pm2_breaker c) in
    let c1 := set_pm2_breaker b c in
    if negb ok then disable_log_ingestion c1
    else match scan h with
         | ScanRaises msg =>
             set_pm2_breaker
               (record_failure (breaker_now h) (breaker_clock h) msg
                  (pm2_breaker c1)) c1
         | ScanReturns duration queue_full =>
             let c2 := set_pm2_breaker
                         (record_success (breaker_now h) (breaker_clock h)
                            (pm2_breaker c1)) c1 in
             if Qltb (log_ingest_timeout_seconds cfg) duration
             then enter_safe_mode (disable_log_ingestion c2)
             else if queue_full
                  then _record_overrun "health_stimulus_queue_full" c2
                  else c2
         end.

(** One round of the loop of [_maintenance_loop()]: [report] is what
    [memory.maintain()] returned, [None] when the call raised. *)
Definition maintenance_round (report : option Memory.Report) (c : Core) : Core :=
  match report with
  | Some r => if Memory.disabled r then enter_safe_mode c else c
  | None => c
  end.

(** The steps of the core. *)
Inductive CoreStep : Type :=
| TickRound (env : TickEnv) (w : Sample)
| HealthRound (h : HealthEnv)
| MaintenanceRound (report : option Memory.Report).

Definition core_step (cfg : RuntimeConfig) (c : Core) (step : CoreStep) : Core :=
  match step with
  | TickRound env w => tick_round cfg env w c
  | HealthRound h => health_round cfg h c
  | MaintenanceRound report => maintenance_round report c
  end.

(** The safe-mode commands of discord_adapter.py, outside the core: a
    message with an "exit safe mode" or an "enter safe mode" phrase, from a
    user who is or is not an administrator. *)
Inductive Command : Type :=
| ExitSafeMode (adminish : bool)
| EnterSafeMode (adminish : bool).

Definition command_step (c : Core) (cmd : Command) : Core :=
  match cmd with
  | ExitSafeMode true =>
      if safe_mode c then
        mkCore false (overrun_note c) (watchdog_note c) true
          (tick_interval_override c) (log_ingestion_disabled c)
          (last_overrun_reason c) (last_watchdog_reason c) (pm2_breaker c)
      else c
  | EnterSafeMode true => disable_writes (enter_safe_mode c)
  | _ => c
  end.

(** Everything that can happen to the flag. *)
Inductive Step : Type :=
| Inside (step : CoreStep)
| Outside (cmd : Command).

Definition system_step (cfg : RuntimeConfig) (c : Core) (s : Step) : Core :=
  match s with
  | Inside step => core_step cfg c step
  | Outside cmd => command_step c cmd
  end.

End Cognition.

(** ** actions.py: results, rate limiter and auditor *)

Module Actions.
Import Governor.

(** [@dataclass ActionResult] *)
Record ActionResult : Type := mkResult {
  intent : ActionIntent;
  success : bool;
  detail : string;
  executed_at : Q
}.

(** [class RateLimiter]; [max_actions_per_minute] and [action_burst] are
    the two fields of the configuration that it reads. *)
Record RateLimiter : Type := mkLimiter {
  max_actions_per_minute : Z;
  action_burst : Z;
  window : Q;
  actions : gmap string (list Q)
}.

(** [RateLimiter(config)] *)
Definition new_limiter (per_minute burst : Z) : RateLimiter :=
  mkLimiter per_minute burst 60 ∅.

Definition set_actions (acts : gmap string (list Q)) (rl : RateLimiter)
  : RateLimiter :=
  mkLimiter (max_actions_per_minute rl) (action_burst rl) (window rl) acts.

(** [allow(key)]; [now] is its clock reading.  A key that is not in the
    dictionary is first given the empty list. *)
Definition allow (now : Q) (key : string) (rl : RateLimiter)
  : bool * RateLimiter :=
  let stored := default [] (actions rl !! key) in
  let recent := filter (fun t => Qltb (now - t) (window rl) = true) stored in
  let rl1 := set_actions (<[key := recent]> (actions rl)) rl in
  if (max_actions_per_minute rl <=? Z.of_nat (length recent))%Z then (false, rl1)
  else
    let recent_burst := filter (fun t => Qltb (now - t) 5 = true) recent in
    if (action_burst rl <=? Z.of_nat (length recent_burst))%Z then (false, rl1)
    else (true, set_actions (<[key := recent ++ [now]]> (actions rl1)) rl1).

(** A run of [allow] calls, each with its clock reading and its key. *)
Fixpoint run_limiter (calls : list (Q * string)) (rl : RateLimiter)
  : RateLimiter * list bool :=
  match calls with
  | [] => (rl, [])
  | (now, key) :: rest =>
      let (ok, rl1) := allow now key rl in
      let (rl2, oks) := run_limiter rest rl1 in
      (rl2, ok :: oks)
  end.

(** [class ActionAuditor]: a [deque] with [maxlen]. *)
Record ActionAuditor : Type := mkAuditor {
  maxlen : nat;
  records : list ActionResult
}.

(** [ActionAuditor(max_records)]: a negative [maxlen] is refused by
    [deque]. *)
Definition new_auditor (max_records : Z) : outcome ActionAuditor :=
  if (max_records <? 0)%Z then Raised (OtherError "maxlen must be non-negative")
  else Ok (mkAuditor (Z.to_nat max_records) []).

(** [deque.append(x)] on a bounded deque: the oldest entries are dropped. *)
Definition deque_append {A : Type} (bound : nat) (x : A) (d : list A) : list A :=
  let d' := d ++ [x] in drop (length d' - bound) d'.

(** [record(result)] *)
Definition record (result : ActionResult) (a : ActionAuditor) : ActionAuditor :=
  mkAuditor (maxlen a) (deque_append (maxlen a) result (records a)).

(** [l[start:]] *)
Definition slice_from {A : Type} (start : Z) (l : list A) : list A :=
  if (start <? 0)%Z then drop (Z.to_nat (Z.of_nat (length l) + start)) l
  else drop (Z.to_nat start) l.

(** [recent_failures(limit)] *)
Definition recent_failures (limit : Z) (a : ActionAuditor) : list ActionResult :=
  slice_from (- limit) (filter (fun r => success r = false) (records a)).

End Actions.

(** ** state.py *)

Module State.

(** [@dataclass InternalState]: the scalars that [decay] and
    [update_on_stimulus] write and the strategies read, and the time of the
    last perception. *)
Record InternalState : Type := mkState {
  social_energy : Q;
  risk_pressure : Q;
  narrative_load : Q;
  focus : Q;
  last_perceived : Q
}.

(** The defaults of the dataclass; [loaded] is the [time.time()] of the
    class definition. *)
Definition initial (loaded : Q) : InternalState := mkState 0.6 0.3 0.4 0.5 loaded.

(** [decay(dt)] *)
Definition decay (dt : Q) (s : InternalState) : InternalState :=
  let decay_rate := 0.05 * dt in
  mkState (Qmax 0 (social_energy s - decay_rate))
          (Qmax 0 (risk_pressure s - decay_rate / 2))
          (Qmax 0 (narrative_load s - decay_rate / 3))
          (focus s) (last_perceived s).

(** [update_on_stimulus(stim_type, salience)]; [now] is its clock
    reading. *)
Definition update_on_stimulus (now : Q) (stim_type : string) (salience : Q)
    (s : InternalState) : InternalState :=
  if decide (stim_type = "discord_message") then
    mkState (Qmin 1 (social_energy s + 0.05 * salience)) (risk_pressure s)
            (narrative_load s) (Qmin 1 (focus s + 0.02 * salience)) now
  else if decide (stim_type = "silence") then
    mkState (Qmax 0 (social_energy s - 0.02 * salience)) (risk_pressure s)
            (narrative_load s) (Qmax 0 (focus s - 0.01 * salience)) now
  else if startswith "moderation" stim_type then
    mkState (social_energy s) (Qmin 1 (risk_pressure s + 0.08 * salience))
            (narrative_load s) (focus s) now
  else
    mkState (social_energy s) (risk_pressure s)
            (Qmin 1 (narrative_load s + 0.03 * salience)) (focus s) now.

(** What a tick does to the state. *)
Inductive Change : Type :=
| Decay (dt : Q)
| Perceive (now : Q) (stim_type : string) (salience : Q).

Definition change (s : InternalState) (c : Change) : InternalState :=
  match c with
  | Decay dt => decay dt s
  | Perceive now stim_type salience => update_on_stimulus now stim_type salience s
  end.

End State.

(** ** identity.py *)

Module Identity.
Import Governor.

(** [@dataclass IdentityCore] as a whole: the trait values that the
    governor reads, the [allow_persistence] flag and the
    [identity_learning_rate] of its configuration. *)
Record Persona : Type := mkPersona {
  values : IdentityCore;
  allow_persistence : bool;
  identity_learning_rate : Q
}.

(** [max(0.0, min(1.0, v))] *)
Definition unit_clamp (v : Q) : Q := Qmax 0 (Qmin 1 v).

(** [adjust_from_outcome(outcome_score)]; [persist_io] is what the sqlite
    connection of [persist()] raises, if anything: the exception leaves the
    method after the values have been changed. *)
Definition adjust_from_outcome (persist_io : option exn) (outcome_score : Q)
    (p : Persona) : Persona * outcome unit :=
  if negb (allow_persistence p) then (p, Ok tt)
  else
    let lr := identity_learning_rate p in
    let v := values p in
    let v' :=
      mkIdentity
        (unit_clamp (assertiveness v + lr * outcome_score))
        (unit_clamp (playfulness v + lr * outcome_score * 0.5))
        (unit_clamp (caution v + - lr * outcome_score))
        (unit_clamp (curiosity v + lr * outcome_score))
        (unit_clamp (patience v + - lr * outcome_score * 0.5)) in
    (mkPersona v' (allow_persistence p) (identity_learning_rate p),
     match persist_io with Some e => Raised e | None => Ok tt end).

End Identity.

(** ** realities/strategic.py *)

Module Strategic.
Import Governor State.

(** [StrategicReality.interpret(stimulus, state, memory, identity)]; [now]
    stamps the intent it creates. *)
Definition interpret (now : Q) (stimulus : Stimulus) (state : InternalState)
    (identity : IdentityCore) : RealityOutput :=
  let confidence := 0.4 + curiosity identity * 0.3 in
  let risk := 0.3 + caution identity * 0.2 in
  let plain (recommended : option ActionIntent) (confidence risk : Q) :=
    mkOutput "StrategicReality" recommended (Qmin 1 confidence)
      (Qmax 0 (Qmin 1 risk)) "Strategic horizon scanning and risk posture." in
  if decide (type stimulus = "discord_message") then plain None confidence risk
  else if decide (type stimulus = "silence") then
    if Qltb 0.6 (risk_pressure state) then
      plain (Some (mkIntent Observe None ∅
                     {["reason" := "elevated risk; hold position"]} now))
        (confidence + 0.1) (risk - 0.1)
    else plain None confidence risk
  else plain None confidence risk.

End Strategic.

(** ** cognition.py: deciding and acting *)

Module Acting.
Import Memory Governor Actions Cognition.

(** [class GovernorDecisionWrapper] *)
Record GovernorDecisionWrapper : Type := mkWrapper {
  wrapped_intent : ActionIntent;
  wrapped_interpretations : list RealityOutput;
  wrapped_confidence : Q;
  wrapped_risk : Q;
  wrapped_rationale : string
}.

(** [intent.type in {"reply", "send_message", "observe"}] *)
Definition text_only (t : ActionType) : bool :=
  match t with
  | Reply | SendMessage | Observe => true
  | _ => false
  end.

(** [ActionIntent(type="observe", target_id=None, payload={},
    metadata={"reason": "safe_mode_block"})] *)
Definition safe_mode_block (now : Q) : ActionIntent :=
  mkIntent Observe None ∅ {["reason" := "safe_mode_block"]} now.

(** [intent.metadata["audit_context"] = audit_context]; the audit record is
    carried as its text. *)
Definition with_audit (audit : string) (w : GovernorDecisionWrapper)
  : GovernorDecisionWrapper :=
  let i := wrapped_intent w in
  mkWrapper
    (mkIntent (intent_type i) (target_id i) (payload i)
       (<["audit_context" := audit]> (metadata i)) (created_at i))
    (wrapped_interpretations w) (wrapped_confidence w) (wrapped_risk w)
    (wrapped_rationale w).

(** [_decide(stimulus, interpretations)]: [deliberate] returns a decision on
    every path, so that the [decision is None] branch is never taken, and
    the audit record does not depend on the choice but for its texts.
    [now] and [io] are those of
    [deliberate], [clock] stamps the blocking intent, [session_active] is
    [stimulus.context.get("session_active")] and [audit] the audit record
    that is attached. *)
Definition _decide (now clock : Q) (io : option exn) (audit : string)
    (c : Core) (identity : IdentityCore) (memory : CausalMemory)
    (session_active : bool) (stimulus : Stimulus)
    (interpretations : list RealityOutput) : outcome GovernorDecisionWrapper :=
  let mention := mentions_bot (context stimulus) in
  let directed :=
    bool_decide (routing stimulus = "directed") || mention || session_active in
  match deliberate now io identity memory
          (default "global" (server_id (context stimulus)))
          interpretations directed with
  | Raised e => Raised e
  | Ok decision =>
      let wrapper :=
        mkWrapper (action decision) interpretations
          (decision_confidence decision) (decision_risk decision)
          (rationale decision) in
      let chosen :=
        if safe_mode c && negb (text_only (intent_type (wrapped_intent wrapper)))
        then mkWrapper (safe_mode_block clock) interpretations 0.3 0.05
               "Safe Mode limits actions to read-only replies."
        else wrapper in
      if decide (type stimulus = "silence") then Ok chosen
      else Ok (with_audit audit chosen)
  end.

(** [asyncio.Queue(maxsize)]: [put_nowait] raises [QueueFull] when
    [maxsize > 0] and the queue holds [maxsize] items. *)
Definition queue_full {A : Type} (maxsize : Z) (queue : list A) : bool :=
  (0 <? maxsize)%Z && (maxsize <=? Z.of_nat (length queue))%Z.

(** What [_act] touches: the core, the action queue and the auditor. *)
Record Stage : Type := mkStage {
  core : Core;
  action_queue : list ActionIntent;
  action_queue_limit : Z;
  auditor : ActionAuditor
}.

(** The common end of the branches of [_act]: the intent is put on the
    queue, or the overrun is recorded when the queue is full; the result is
    recorded by the auditor. *)
Definition dispatch_intent (executed : Q) (i : ActionIntent) (queued : string)
    (st : Stage) : ActionResult * Stage :=
  if queue_full (action_queue_limit st) (action_queue st) then
    let result := mkResult i false "Action queue saturated" executed in
    (result,
     mkStage (_record_overrun "action_queue_full" (core st)) (action_queue st)
       (action_queue_limit st) (record result (auditor st)))
  else
    let result := mkResult i true queued executed in
    (result,
     mkStage (core st) (action_queue st ++ [i]) (action_queue_limit st)
       (record result (auditor st))).

(** [_act(decision)]: [now] stamps the blocking intent and [executed] the
    result. *)
Definition _act (now executed : Q) (decision : GovernorDecisionWrapper)
    (st : Stage) : ActionResult * Stage :=
  if safe_mode (core st)
     && negb (text_only (intent_type (wrapped_intent decision)))
  then dispatch_intent executed (safe_mode_block now)
         "Safe Mode enforced; non-text action blocked" st
  else dispatch_intent executed (wrapped_intent decision)
         "Queued for adapter execution" st.

End Acting.

(** * Vocabulary of the statements and scenarios of the tests *)

(** ** CircuitBreaker *)

Module SafetySpec.
Import Safety.

(** The calls of one burst: every failure time lies in a window
    [[lo, lo + window]], and the clock does not run backwards inside a call. *)
Definition burst (lo window : Q) (calls : list (Q * Q * string)) : Prop :=
  Forall (fun c => (lo <= c.1.1 /\ c.1.1 <= lo + window) /\ c.1.1 <= c.1.2) calls.

(** The failures of [fs] that count toward the threshold at time [now]: those
    that have not left the window. *)
Fixpoint in_window_count (window now : Q) (fs : list Q) : nat :=
  match fs with
  | [] => 0
  | f :: rest =>
      (if Qleb (now - f) window then 1 else 0) + in_window_count window now rest
  end.

(** The scenario of tests/test_circuit_breaker.py: threshold 2, window 10 s,
    cooldown 5 s, two failures at t = 1000. *)
Definition test_breaker : CircuitBreaker :=
  record_failures [(1000, 1000, "first"); (1000, 1000, "second")]
                  (new "test" 2 10 5).

End SafetySpec.

(** ** CausalMemory *)

Module MemorySpec.
Import Safety Memory.

(** The configuration of tests/test_memory.py. *)
Definition test_config : RuntimeConfig :=
  mkConfig 0.5 1 true 6 3 2 3600 600 20
    (Some (list_to_map
             [("memory", 6%Z); ("user_profiles", 5%Z); ("relationships", 5%Z);
              ("shared_context", 5%Z); ("user_important", 5%Z);
              ("server_profiles", 5%Z); ("server_events", 5%Z);
              ("admin_policies", 5%Z)]))
    300 false 0.25 1.25 1024 0.25 120 1.5.

Definition empty_db : Db := mkDb [] 1 ∅.

(** A fresh store on an empty disk, with writes enabled. *)
Definition fresh_store : CausalMemory :=
  new test_config true empty_db [] StatNotFound None.

Definition steady_clock (t : Q) : WriteClock := mkWriteClock t t t t t t t.

Definition test_stimulus (idx : Q) : Stimulus :=
  mkStimulus "discord_message" "test"
    (mkContext None None None false (Some "hello")) 0.4 "ambient" (1000 + idx).

(** [memory.record(...)] of the test, called at time [t]. *)
Definition test_record (t idx : Q) (m : CausalMemory) : CausalMemory :=
  (record (steady_clock t) None t "global" (test_stimulus idx)
     "social" "observe" "observe" "success" 0.1 m).1.

(** Five records, one per second. *)
Definition store_of_five : CausalMemory :=
  test_record 1004 4 (test_record 1003 3 (test_record 1002 2
    (test_record 1001 1 (test_record 1000 0 fresh_store)))).

Definition quiet_env (stat : stat_result) (t : Q) : MaintEnv :=
  mkMaintEnv stat None None true None t.

(** Every table of the loop over [trims] exists, as after [_init_db]. *)
Definition tables_exist (m : CausalMemory) : Prop :=
  forall t, t ∈ trims -> is_Some (tables (db m) !! t).

(** The number of timestamps of [log] in the closed window [[a, a + 1]]. *)
Fixpoint writes_in_window (a : Q) (log : list Q) : nat :=
  match log with
  | [] => 0
  | t :: rest =>
      (if Qleb a t && Qleb t (a + 1) then 1 else 0) + writes_in_window a rest
  end.

(** The clock readings of one write, in program order. *)
Definition reads (k : WriteClock) : list Q :=
  [wc_allow k; wc_allow_tripped k; wc_now k; wc_prune k; wc_commit k;
   wc_breaker k; wc_breaker_tripped k].

Fixpoint nondecreasing (l : list Q) : Prop :=
  match l with
  | [] => True
  | x :: rest =>
      match rest with [] => True | y :: _ => x <= y end /\ nondecreasing rest
  end.

(** The clock never runs backwards over the whole run of writes. *)
Definition monotone_clock (calls : list WriteCall) : Prop :=
  nondecreasing (concat ((fun c => reads (call_clock c)) <$> calls)).

(** The time [_prune_writes] works with. *)
Definition prune_time (k : WriteClock) : Q :=
  if Qeq_bool (wc_now k) 0 then wc_prune k else wc_now k.

Fixpoint clock_ordered (T : Q) (calls : list WriteCall) : Prop :=
  match calls with
  | [] => True
  | c :: rest =>
      T <= prune_time (call_clock c)
      /\ prune_time (call_clock c) <= wc_commit (call_clock c)
      /\ clock_ordered (prune_time (call_clock c)) rest
  end.

(** The invariant of a run: the deque holds every committed timestamp that
    has not left the window of the latest pruning time [T], and no closed
    one-second window holds more than [maxw] committed timestamps. *)
Definition limiter_inv (maxw : Z) (T : Q) (log stamps : list Q) : Prop :=
  (exists dropped, log = dropped ++ stamps
                   /\ Forall (fun d => d < T - 1) dropped)
  /\ forall a, (Z.of_nat (writes_in_window a log) <= maxw)%Z.

(** A store that allows two writes per second, and three writes within
    the same second. *)
Definition limited_store : CausalMemory :=
  new (mkConfig 0.5 1 true 6 3 2 3600 600 2 None 300 false 0.25 1.25 1024
         0.25 120 1.5)
      true empty_db [] StatNotFound None.

Definition test_write (t idx : Q) : WriteCall :=
  mkWriteCall (steady_clock t) None "memory"
    (record_writer (config limited_store) t "global" (test_stimulus idx)
       "social" "observe" "observe" "success" 0.1).

Definition three_writes : list WriteCall :=
  [test_write 1000 0; test_write 1000 1; test_write 1000 2].

End MemorySpec.

(** ** Governor *)

Module GovernorSpec.
Import Memory Governor.

Definition delta_sum (recent : list MemoryEntry) : Q :=
  foldl (fun acc e => acc + entry_confidence_delta e) 0 recent.

Fixpoint newest_first {A : Type} (key : A -> Q) (l : list A) : Prop :=
  match l with
  | [] => True
  | x :: rest => Forall (fun y => key y <= key x) rest /\ newest_first key rest
  end.

(** A store whose only record of the server carries a confidence delta of
    -3, a neutral identity and one confident, riskless candidate. *)
Definition gloomy_store : CausalMemory :=
  (record (MemorySpec.steady_clock 1000) None 1000 "global"
     (MemorySpec.test_stimulus 0) "social" "observe" "observe" "failure"
     (-3) MemorySpec.fresh_store).1.

Definition neutral : IdentityCore := mkIdentity 0.5 0.5 0.5 0.5 0.5.

Definition reply_intent : ActionIntent := mkIntent Reply (Some 99%Z) ∅ ∅ 1999.

Definition strong : RealityOutput :=
  mkOutput "social" (Some reply_intent) 1 0 "answer the question".

(** The store of five records after a maintenance that measured the file
    over the ceiling. *)
Definition disabled_store : CausalMemory :=
  (maintain (MemorySpec.quiet_env (StatSize 700) 1020)
     MemorySpec.store_of_five).1.

(** The scenario of C5: five records of delta 0.1, and a single candidate
    of risk 0.9 and confidence 0.5. *)
Definition risky : RealityOutput :=
  mkOutput "moderation" (Some reply_intent) 0.5 0.9 "act now".

(** The values the strategies, the identity store and the reflection step
    produce: confidences, risks and traits in [[0, 1]], confidence deltas in
    [[-1, 1]]. *)
Definition in_range (identity : IdentityCore) (realities : list RealityOutput)
    (recent : list MemoryEntry) : Prop :=
  (0 <= assertiveness identity /\ assertiveness identity <= 1)
  /\ (0 <= caution identity /\ caution identity <= 1)
  /\ (0 <= curiosity identity /\ curiosity identity <= 1)
  /\ Forall (fun o => (0 <= confidence o /\ confidence o <= 1)
                      /\ (0 <= risk o /\ risk o <= 1)) realities
  /\ Forall (fun e => -1 <= entry_confidence_delta e
                      /\ entry_confidence_delta e <= 1) recent.

(** What [fetch_recent("global", 6)] returns on the store of five
    records. *)
Definition five_entries : list MemoryEntry :=
  Eval vm_compute in
    match fetch_recent None MemorySpec.store_of_five "global" 6 with
    | Ok entries => entries
    | Raised _ => []
    end.

(** Two candidates and an output without action. *)
Definition calm : RealityOutput :=
  mkOutput "narrative" (Some reply_intent) 0.4 0.2 "tell the story".

Definition silent : RealityOutput :=
  mkOutput "tools" None 0 0 "nothing to do".

(** The maximum-score candidate: a candidate whose score is larger than the
    score of every candidate before it in [realities] and at least the
    score of every candidate after it. *)
Definition first_max (identity : IdentityCore) (mb : Q)
    (realities : list RealityOutput) (o : RealityOutput) (act : ActionIntent)
  : Prop :=
  recommended_action o = Some act
  /\ exists before after,
       realities = before ++ o :: after
       /\ (forall o' act', o' ∈ before -> recommended_action o' = Some act' ->
             _score identity o' mb < _score identity o mb)
       /\ (forall o' act', o' ∈ after -> recommended_action o' = Some act' ->
             _score identity o' mb <= _score identity o mb).

(** A store whose only record of the server carries a confidence delta of
    4, and a candidate of confidence 0.5 and risk 2. *)
Definition elated_store : CausalMemory :=
  (record (MemorySpec.steady_clock 1000) None 1000 "global"
     (MemorySpec.test_stimulus 0) "social" "observe" "observe" "success"
     4 MemorySpec.fresh_store).1.

Definition reckless : RealityOutput :=
  mkOutput "moderation" (Some reply_intent) 0.5 2 "act now".

End GovernorSpec.

(** ** SessionStore *)

Module ConversationSpec.
Import Conversation.

(** The shape of a store that the routing code maintains: a session held
    in [sessions] is the very object that [active_by_channel] holds for its
    channel, and it belongs to the user of its key; the references in use
    point into the heap, below the next fresh one. *)
Record wf (st : SessionStore) : Prop := mkWf {
  wf_sessions : forall u g c r,
    sessions st !! (u, g, c) = Some r ->
    active_by_channel st !! (g, c) = Some r
    /\ exists s, heap st !! r = Some s /\ user_id s = u;
  wf_active : forall g c r,
    active_by_channel st !! (g, c) = Some r -> is_Some (heap st !! r);
  wf_heap : forall r, is_Some (heap st !! r) -> (r < next_ref st)%nat
}.

(** A session that counts for channel [(g, c)] at time [now]: it is held by
    one of the two dictionaries for that channel and it is not expired. *)
Definition is_active_for (st : SessionStore) (now : Q) (g : string) (c : Z)
    (r : nat) : Prop :=
  (active_by_channel st !! (g, c) = Some r
   \/ exists u, sessions st !! (u, g, c) = Some r)
  /\ exists s, heap st !! r = Some s /\ expired now s = false.

(** The events of [ended] that report a superseded session. *)
Definition superseded (ended : list (nat * string)) : list (nat * string) :=
  filter (fun e => e.2 = "superseded") ended.

(** The scenario of test_session_switches_on_new_mention: user 1 and then
    user 2 mention the bot in channel 99 of the same guild. *)
Definition mention_by (author : Z) : Stimulus :=
  mkStimulus "discord_message" "discord"
    (mkContext (Some author) (Some "guild") (Some 99%Z) true (Some "hi @Vyxen"))
    0.6 "ambient" 0.

End ConversationSpec.

(** ** CognitionLoop *)

Module CognitionSpec.
Import Cognition.

(** A step keeps the flag when it is already set. *)
Definition keeps_safe (c c' : Core) : Prop :=
  safe_mode c = true -> safe_mode c' = true.

End CognitionSpec.

(** ** Runs of breaker calls *)

Module SafetyRunSpec.
Import Safety.

(** A call on a breaker, with the clock readings it makes. *)
Inductive Op : Type :=
| CallAllow (now clock : Q)
| CallFailure (now clock : Q) (reason : string)
| CallSuccess (now clock : Q).

Definition apply_op (b : CircuitBreaker) (op : Op) : CircuitBreaker :=
  match op with
  | CallAllow now clock => (allow now clock b).2
  | CallFailure now clock r => record_failure now clock r b
  | CallSuccess now clock => record_success now clock b
  end.

Definition run_ops (ops : list Op) (b : CircuitBreaker) : CircuitBreaker :=
  foldl apply_op b ops.

Definition is_failure (op : Op) : bool :=
  match op with CallFailure _ _ _ => true | _ => false end.

(** The times of the [record_failure] calls of a run. *)
Definition failure_times (ops : list Op) : list Q :=
  omap (fun op => match op with CallFailure now _ _ => Some now | _ => None end) ops.

(** Consecutive failures are more than [window] apart. *)
Fixpoint spaced (window : Q) (times : list Q) : Prop :=
  match times with
  | [] => True
  | t :: rest =>
      match rest with [] => True | u :: _ => window < u - t end
      /\ spaced window rest
  end.

(** Two failures 490 s apart, with a check and a success. *)
Definition two_failures : list Op :=
  [CallFailure 10 10 "timeout"; CallAllow 20 20; CallFailure 500 500 "timeout";
   CallSuccess 501 501].

End SafetyRunSpec.

(** ** The throttle of the watchdog *)

Module ThrottleSpec.
Import Cognition.

(** What a step leaves of the throttle: an override that is set stays set,
    and log ingestion that is disabled stays disabled. *)
Definition keeps_throttle (cfg : RuntimeConfig) (c c' : Core) : Prop :=
  (tick_interval_override c' = tick_interval_override c
   \/ tick_interval_override c' = Some (watchdog_safe_tick_interval cfg))
  /\ (log_ingestion_disabled c = true -> log_ingestion_disabled c' = true).

End ThrottleSpec.

(** ** Topics and the hot table *)

Module HotTableSpec.
Import Safety Memory MemorySpec.

Fixpoint all_chars (P : ascii -> bool) (s : string) : bool :=
  match s with
  | EmptyString => true
  | String c rest => P c && all_chars P rest
  end.

Definition is_lower_letter (c : ascii) : bool :=
  let n := nat_of_ascii c in ((97 <=? n) && (n <=? 122))%nat.

(** A topic: four or more lowercase letters. *)
Definition is_topic (t : string) : Prop :=
  (4 <= String.length t)%nat /\ all_chars is_lower_letter t = true.

(** The primary key of the [memory] table: ids are unique and below the
    next AUTOINCREMENT value. *)
Definition ids_fresh (d : Db) : Prop :=
  NoDup (row_id <$> memory d)
  /\ Forall (fun r => (row_id r < next_id d)%Z) (memory d).

(** The row [record] inserts. *)
Definition recorded_row (d : Db) (server : string) (stimulus : Stimulus)
    (interpretations decision action result : string) (confidence_delta : Q)
  : MemRow :=
  mkRow (next_id d) server (type stimulus) (context stimulus) interpretations
    decision action result confidence_delta (timestamp stimulus).

Fixpoint oldest_first {A : Type} (key : A -> Q) (l : list A) : Prop :=
  match l with
  | [] => True
  | x :: rest => Forall (fun y => key x <= key y) rest /\ oldest_first key rest
  end.

(** The number of rows of a stimulus type. *)
Definition rows_of_type (t : string) (rows : list MemRow) : Z :=
  Z.of_nat (length (filter (fun r => row_stimulus_type r = t) rows)).

(** The count a [Counter] holds for a key, 0 when the key is missing. *)
Fixpoint count_of (t : string) (counts : list (string * Z)) : Z :=
  match counts with
  | [] => 0
  | (k, n) :: rest => if decide (k = t) then n else count_of t rest
  end.

(** The fresh store after one record. *)
Definition one_record : CausalMemory := test_record 1000 0 fresh_store.

(** The profile row of a user, written at time [stamp]. *)
Definition profile_row (rowid : Z) (user : string) (stamp : Q) : AuxRow :=
  mkAux rowid ["global"; user] (Some PROFILE_DEFAULTS) stamp.

Definition six_profiles : list AuxRow :=
  [profile_row 1 "41" 1003; profile_row 2 "42" 1001; profile_row 3 "43" 1005;
   profile_row 4 "44" 1002; profile_row 5 "45" 1006; profile_row 6 "46" 1004].

(** A store whose [user_profiles] table holds six rows under a limit of
    five. *)
Definition crowded_store : CausalMemory :=
  set_db (mkDb [] 1 (<["user_profiles" := six_profiles]> (tables (db fresh_store))))
    fresh_store.

End HotTableSpec.

(** ** The breaker of the store *)

Module WriteBreakerSpec.
Import Safety Memory MemorySpec.

(** The clock readings that the breaker of the store sees during a run of
    writes: all of them lie in a window [[lo, lo + window]], and inside a
    call the clock does not run backwards. *)
Definition breaker_window (lo window : Q) (calls : list WriteCall) : Prop :=
  Forall (fun c =>
            let k := call_clock c in
            (lo <= wc_allow k /\ wc_allow k <= lo + window
             /\ wc_allow k <= wc_allow_tripped k)
            /\ (lo <= wc_breaker k /\ wc_breaker k <= lo + window
                /\ wc_breaker k <= wc_breaker_tripped k)) calls.

Definition is_failed (r : write_result) : Prop :=
  match r with Failed _ => True | _ => False end.

(** The sqlite error of a busy database. *)
Definition is_locked (io : option exn) : Prop :=
  match io with
  | Some (OperationalError msg) => contains "locked" (lower msg) = true
  | _ => False
  end.

(** A write on which the connection raises [msg]. *)
Definition failing_write (t : Q) (msg : string) : WriteCall :=
  mkWriteCall (steady_clock t) (Some (OperationalError msg)) "memory"
    (record_writer (config fresh_store) t "global" (test_stimulus 0)
       "social" "observe" "observe" "success" 0.1).

Definition failing_writes (msg : string) : list WriteCall :=
  [failing_write 1000 msg; failing_write 1001 msg; failing_write 1002 msg;
   failing_write 1003 msg].

End WriteBreakerSpec.

(** ** Profiles and relationships *)

Module ProfileSpec.
Import Safety Memory MemorySpec.

(** What the loop over the deltas makes of a value. *)
Definition adjusted (deltas before : gmap string Q) (k : string) : option Q :=
  match before !! k with
  | None => None
  | Some v =>
      Some (match deltas !! k with Some d => clamp01 (v + d) | None => v end)
  end.

Definition warmer : gmap string Q := {["warmth" := 0.7]}.

(** The fresh store after the warmth of user 42 has been raised by 0.7. *)
Definition warmed_store : CausalMemory :=
  match adjust_user_profile None (steady_clock 1000) None 1000 "" "42" warmer
          fresh_store with
  | Ok (m', _, _) => m'
  | Raised _ => fresh_store
  end.

Definition closer : gmap string Q := {["trust" := 0.7]}.

(** The fresh store after the trust between users 7 and 42 has been
    raised by 0.7. *)
Definition related_store : CausalMemory :=
  match update_relationship None (steady_clock 1000) None 1000 "" "7" "42"
          closer fresh_store with
  | Ok (m', _, _) => m'
  | Raised _ => fresh_store
  end.

End ProfileSpec.

(** ** Routing *)

Module RoutingSpec.
Import Conversation ConversationSpec.

(** A user-facing event: a message or an attachment. *)
Definition is_message (stim : Stimulus) : Prop :=
  type stim = "discord_message" \/ type stim = "attachment".

(** The text of the message as [route_stimulus] reads it. *)
Definition text_of (stim : Stimulus) : string :=
  lower (strip (default "" (content (context stim)))).

(** A message that is directed by what it says: it mentions the bot or its
    text names it. *)
Definition addresses_bot (stim : Stimulus) : bool :=
  mentions_bot (context stim) || _looks_directed 0 0 None (text_of stim).


(** The store after user 1 has mentioned the bot at t = 100. *)
Definition engaged_store : SessionStore :=
  (route_stimulus 100 100 (mention_by 1) (new 30)).2.

End RoutingSpec.

(** ** RateLimiter and ActionAuditor *)

Module ActionsSpec.
Import Governor Actions.

(** The times of the calls on [key] that were allowed. *)
Fixpoint allowed_times (key : string) (calls : list (Q * string))
    (oks : list bool) : list Q :=
  match calls, oks with
  | (now, k) :: calls', ok :: oks' =>
      (if ok && bool_decide (k = key) then [now] else [])
      ++ allowed_times key calls' oks'
  | _, _ => []
  end.

(** The number of times of [ts] in the window [(a, a + len]]. *)
Definition count_window (a len : Q) (ts : list Q) : nat :=
  length (filter (fun t => Qltb a t && Qleb t (a + len) = true) ts).

(** The invariant of a run for one key: the stored list holds the allowed
    times that were inside the window at the last call on the key, which
    was made at [Tk], and no window holds more allowed times than the two
    caps. *)
Definition limiter_ok (key : string) (T : Q) (rl : RateLimiter) (log : list Q)
  : Prop :=
  (exists Tk, Tk <= T
     /\ default [] (actions rl !! key)
        = filter (fun t => Qltb (Tk - t) (window rl) = true) log)
  /\ (forall a, (Z.of_nat (count_window a 5 log) <= Z.max 0 (action_burst rl))%Z)
  /\ (forall a, (Z.of_nat (count_window a (window rl) log)
                 <= Z.max 0 (max_actions_per_minute rl))%Z).

(** Four calls on one key within three seconds. *)
Definition four_calls : list (Q * string) :=
  [(0, "channel:99"); (1, "channel:99"); (2, "channel:99"); (3, "channel:99")].

Definition failed_result (t : Q) : ActionResult :=
  mkResult GovernorSpec.reply_intent false "Action queue saturated" t.

End ActionsSpec.

(** ** InternalState and IdentityCore *)

Module StateSpec.
Import Governor State Identity.

Definition in_unit (x : Q) : Prop := 0 <= x /\ x <= 1.

(** The four scalars of the state lie in [[0, 1]]. *)
Definition state_in_unit (s : InternalState) : Prop :=
  in_unit (social_energy s) /\ in_unit (risk_pressure s)
  /\ in_unit (narrative_load s) /\ in_unit (focus s).

(** Time does not run backwards between two ticks, and saliences are not
    negative. *)
Definition sane (c : Change) : Prop :=
  match c with
  | Decay dt => 0 <= dt
  | Perceive _ _ salience => 0 <= salience
  end.

Definition traits_in_unit (v : IdentityCore) : Prop :=
  in_unit (assertiveness v) /\ in_unit (playfulness v) /\ in_unit (caution v)
  /\ in_unit (curiosity v) /\ in_unit (patience v).

Definition busy_hour : list Change :=
  [Perceive 10 "discord_message" 0.9; Decay 0.5; Perceive 11 "moderation_flag" 1;
   Perceive 12 "silence" 0.2; Decay 30].

Definition learner : Persona := mkPersona GovernorSpec.neutral true 0.02.

End StateSpec.

(** ** Deciding and acting *)

Module ActingSpec.
Import Memory Governor Actions Cognition Acting.

(** A stage in safe mode with an empty queue of two places, and a decision
    to call a tool. *)
Definition safe_stage : Stage :=
  mkStage (init default_config true) [] 2 (mkAuditor 2000 []).

Definition tool_decision : GovernorDecisionWrapper :=
  mkWrapper (mkIntent ToolCall (Some 99%Z) ∅ ∅ 1999) [] 0.85 0.15
    "Admin request parsed into an actionable tool call.".

End ActingSpec.

(** * Properties *)

(** ** Boolean comparisons reflect the order of [Q] *)

Lemma Qltb_lt x y : Qltb x y = true <-> x < y.
Proof.
  unfold Qltb. rewrite negb_true_iff, <- not_true_iff_false, Qle_bool_iff.
  split; [apply Qnot_le_lt | apply Qlt_not_le].
Qed.

Lemma Qltb_ge x y : Qltb x y = false <-> y <= x.
Proof.
  unfold Qltb. rewrite negb_false_iff. apply Qle_bool_iff.
Qed.

Lemma Qleb_le x y : Qleb x y = true <-> x <= y.
Proof. apply Qle_bool_iff. Qed.

Lemma Qleb_gt x y : Qleb x y = false <-> y < x.
Proof.
  unfold Qleb. rewrite <- not_true_iff_false, Qle_bool_iff.
  split; [apply Qnot_le_lt | apply Qlt_not_le].
Qed.

(** Case analysis on a boolean comparison, leaving the order fact in the
    context for [lra]. *)
Ltac case_Qltb x y :=
  let H := fresh "Hlt" in
  destruct (Qltb x y) eqn:H;
  [apply Qltb_lt in H | apply Qltb_ge in H].

Ltac case_Qleb x y :=
  let H := fresh "Hle" in
  destruct (Qleb x y) eqn:H;
  [apply Qleb_le in H | apply Qleb_gt in H].

(** ** CircuitBreaker *)

Module SafetyFacts.
Import Safety SafetySpec.

Lemma drop_expired_split (w now : Q) (fs : list Q) :
  exists dropped,
    fs = dropped ++ drop_expired w now fs
    /\ Forall (fun f => w < now - f) dropped.
Proof.
  induction fs as [|f fs IH]; simpl.
  - exists []. split; [reflexivity | constructor].
  - case_Qltb w (now - f).
    + destruct IH as (d & Heq & Hd). exists (f :: d). split.
      * simpl. congruence.
      * constructor; assumption.
    + exists []. split; [reflexivity | constructor].
Qed.

(** Entries that are still inside the window at the back of the deque
    survive the pruning loop, whatever is in front of them. *)
Lemma drop_expired_keeps_tail (w now : Q) (old keep : list Q) :
  Forall (fun f => now - f <= w) keep ->
  exists old', drop_expired w now (old ++ keep) = old' ++ keep
               /\ (length old' <= length old)%nat.
Proof.
  intros Hk. induction old as [|f old IH]; simpl.
  - exists []. split; [|simpl; lia]. destruct Hk as [|k keep Hk1 Hk2]; simpl; [reflexivity|].
    case_Qltb w (now - k); [lra | reflexivity].
  - case_Qltb w (now - f).
    + destruct IH as (o & Ho & Hl). exists o. split; [assumption | lia].
    + exists (f :: old). split; [reflexivity | simpl; lia].
Qed.

(** With a clock that does not run backwards between the read of the caller
    and the read of [tripped], the clearing branch of [_prune] is dead. *)
Lemma prune_monotone_clock (now clock : Q) (b : CircuitBreaker) :
  now <= clock ->
  _prune now clock b
  = set_failures (drop_expired (window_seconds b) now (failures b)) b.
Proof.
  intros Hc. unfold _prune, tripped. simpl.
  case_Qltb clock (tripped_until b); simpl; [|reflexivity].
  case_Qleb (tripped_until b) now; [lra | reflexivity].
Qed.

Lemma prune_tripped_until now clock b :
  tripped_until (_prune now clock b) = tripped_until b.
Proof. unfold _prune. destruct (_ && _); reflexivity. Qed.

Lemma prune_config now clock b :
  threshold (_prune now clock b) = threshold b
  /\ window_seconds (_prune now clock b) = window_seconds b
  /\ cooldown_seconds (_prune now clock b) = cooldown_seconds b
  /\ name (_prune now clock b) = name b.
Proof. unfold _prune. destruct (_ && _); simpl; auto. Qed.

Lemma allow_result now clock b :
  (allow now clock b).1 = negb (Qltb now (tripped_until b))
  /\ (allow now clock b).2 = _prune now clock b.
Proof.
  unfold allow. rewrite prune_tripped_until.
  destruct (Qltb now (tripped_until b)); simpl; auto.
Qed.

Lemma record_failure_config now clock r b :
  threshold (record_failure now clock r b) = threshold b
  /\ window_seconds (record_failure now clock r b) = window_seconds b
  /\ cooldown_seconds (record_failure now clock r b) = cooldown_seconds b.
Proof.
  unfold record_failure.
  match goal with |- context [_prune ?n ?c ?x] =>
    destruct (prune_config n c x) as (H1 & H2 & H3 & _) end.
  destruct (_ <=? _)%Z; simpl; rewrite ?H1, ?H2, ?H3; simpl; auto.
Qed.

Lemma record_failures_config calls b :
  threshold (record_failures calls b) = threshold b
  /\ window_seconds (record_failures calls b) = window_seconds b
  /\ cooldown_seconds (record_failures calls b) = cooldown_seconds b.
Proof.
  unfold record_failures. revert b.
  induction calls as [|c calls IH]; intros b; simpl; [auto|].
  destruct (IH (record_failure c.1.1 c.1.2 c.2 b)) as (H1 & H2 & H3).
  destruct (record_failure_config c.1.1 c.1.2 c.2 b) as (G1 & G2 & G3).
  rewrite H1, H2, H3. auto.
Qed.

Lemma record_failure_failures now clock r b :
  now <= clock ->
  failures (record_failure now clock r b)
  = drop_expired (window_seconds b) now (failures b ++ [now]).
Proof.
  intros Hc. unfold record_failure. rewrite prune_monotone_clock by assumption.
  destruct (_ <=? _)%Z; reflexivity.
Qed.

Lemma record_failure_trips now clock r b :
  (threshold b <= Z.of_nat (length (failures (record_failure now clock r b))))%Z ->
  tripped_until (record_failure now clock r b) = now + cooldown_seconds b.
Proof.
  unfold record_failure.
  match goal with |- context [_prune ?n ?c ?x] =>
    destruct (prune_config n c x) as (H1 & _ & H3 & _); set (b3 := _prune n c x) in * end.
  simpl in H1, H3. rewrite H1, H3.
  destruct (_ <=? _)%Z eqn:E; simpl; [reflexivity|].
  intros Hle. apply Z.leb_gt in E. lia.
Qed.

Lemma record_failures_recent lo calls : forall b old recent,
  burst lo (window_seconds b) calls ->
  failures b = old ++ recent ->
  Forall (fun f => lo <= f /\ f <= lo + window_seconds b) recent ->
  exists old',
    failures (record_failures calls b)
    = old' ++ recent ++ map (fun c => c.1.1) calls.
Proof.
  unfold record_failures.
  induction calls as [|c calls IH]; intros b old recent Hb Hf Hr; simpl.
  - exists old. rewrite app_nil_r. assumption.
  - inversion Hb as [|c' calls' [[Hlo Hhi] Hck] Hb']; subst.
    assert (Hkeep : Forall (fun f => c.1.1 - f <= window_seconds b) (recent ++ [c.1.1])).
    { apply Forall_app. split.
      - eapply Forall_impl; [exact Hr|]. simpl. intros f [? ?]. lra.
      - constructor; [lra | constructor]. }
    destruct (drop_expired_keeps_tail (window_seconds b) c.1.1 old _ Hkeep)
      as (old' & Hold' & _).
    destruct (record_failure_config c.1.1 c.1.2 c.2 b) as (_ & Hw & _).
    destruct (IH (record_failure c.1.1 c.1.2 c.2 b) old' (recent ++ [c.1.1]))
      as (old'' & Hfin).
    + rewrite Hw. assumption.
    + rewrite record_failure_failures by assumption.
      rewrite Hf, <- app_assoc. assumption.
    + rewrite Hw. apply Forall_app. split; [assumption|].
      constructor; [split; assumption | constructor].
    + exists old''. rewrite Hfin, <- app_assoc. reflexivity.
Qed.

Lemma record_failures_snoc pre c b :
  record_failures (pre ++ [c]) b
  = record_failure c.1.1 c.1.2 c.2 (record_failures pre b).
Proof. unfold record_failures. rewrite fold_left_app. reflexivity. Qed.

(** After a burst of at least [threshold] failures the breaker is tripped
    until the time of the last failure plus the cooldown. *)
Lemma burst_trips lo pre last b :
  burst lo (window_seconds b) (pre ++ [last]) ->
  (threshold b <= Z.of_nat (length (pre ++ [last])))%Z ->
  tripped_until (record_failures (pre ++ [last]) b)
  = last.1.1 + cooldown_seconds b.
Proof.
  intros Hb Hthr.
  destruct (record_failures_recent lo (pre ++ [last]) b (failures b) [] Hb)
    as (old' & Hf); [rewrite app_nil_r; reflexivity | constructor |].
  revert Hf. rewrite record_failures_snoc.
  destruct (record_failures_config pre b) as (H1 & _ & H3).
  intros Hf. rewrite record_failure_trips.
  - rewrite H3. reflexivity.
  - rewrite H1, Hf. simpl. rewrite length_app, length_map. lia.
Qed.

(** C2 (as amended): once [threshold] failures fall inside one window, the
    breaker refuses immediately and at every time before the tripping point
    plus [cooldown_seconds]; it allows again at every time from that instant
    on, the instant itself included; a check never moves [tripped_until]. *)
Theorem allow_after_burst (b : CircuitBreaker) (lo : Q)
    (pre : list (Q * Q * string)) (last : Q * Q * string) :
  0 < cooldown_seconds b ->
  burst lo (window_seconds b) (pre ++ [last]) ->
  (threshold b <= Z.of_nat (length (pre ++ [last])))%Z ->
  let b' := record_failures (pre ++ [last]) b in
  let t_trip := last.1.1 in
  (forall clock, (allow t_trip clock b').1 = false)
  /\ (forall now clock,
        now < t_trip + cooldown_seconds b -> (allow now clock b').1 = false)
  /\ (forall now clock,
        t_trip + cooldown_seconds b <= now -> (allow now clock b').1 = true)
  /\ (forall now clock,
        tripped_until (allow now clock b').2 = tripped_until b').
Proof.
  intros Hcool Hb Hthr b' t_trip.
  assert (Htu : tripped_until b' = t_trip + cooldown_seconds b)
    by (apply (burst_trips lo); assumption).
  assert (Hres : forall now clock,
    (allow now clock b').1 = negb (Qltb now (t_trip + cooldown_seconds b))).
  { intros now clock. destruct (allow_result now clock b') as [-> _].
    rewrite Htu. reflexivity. }
  repeat split.
  - intros clock. rewrite Hres.
    case_Qltb t_trip (t_trip + cooldown_seconds b); [reflexivity | lra].
  - intros now clock Hn. rewrite Hres.
    case_Qltb now (t_trip + cooldown_seconds b); [reflexivity | lra].
  - intros now clock Hn. rewrite Hres.
    case_Qltb now (t_trip + cooldown_seconds b); [lra | reflexivity].
  - intros now clock. destruct (allow_result now clock b') as [_ ->].
    apply prune_tripped_until.
Qed.

Lemma allow_after_burst_witness :
  (allow 1000 1000 test_breaker).1 = false
  /\ (allow 1006 1006 test_breaker).1 = true.
Proof.
  assert (Hc : 0 < cooldown_seconds (new "test" 2 10 5)) by reflexivity.
  assert (Hb : burst 1000 (window_seconds (new "test" 2 10 5))
                 ([(1000, 1000, "first")] ++ [(1000, 1000, "second")])).
  { repeat constructor; simpl; lra. }
  assert (Ht : Z.le (threshold (new "test" 2 10 5))
                 (Z.of_nat (length ([(1000, 1000, "first")]
                                    ++ [(1000, 1000, "second") : Q * Q * string]))))
    by (simpl; lia).
  destruct (allow_after_burst (new "test" 2 10 5) 1000
              [(1000, 1000, "first")] (1000, 1000, "second") Hc Hb Ht)
    as (H1 & _ & H3 & _).
  split.
  - apply (H1 1000).
  - apply (H3 1006 1006). simpl. lra.
Defined.

(** C2 as stated fails at the boundary: exactly [cooldown_seconds] after the
    tripping point (t = 1005, not strictly later) the breaker already
    allows; and the check made after [tripped_until] has passed leaves both
    the failure history and the reason in place. *)
Lemma allow_at_boundary_counterexample :
  tripped_until test_breaker = 1000 + 5
  /\ (allow (1000 + 5) (1000 + 5) test_breaker).1 = true
  /\ failures (allow 1006 1006 test_breaker).2 = [1000; 1000]
  /\ reason (allow 1006 1006 test_breaker).2 = "second".
Proof. vm_compute. repeat split; reflexivity. Qed.

Lemma in_window_count_app w now l1 l2 :
  in_window_count w now (l1 ++ l2)
  = (in_window_count w now l1 + in_window_count w now l2)%nat.
Proof. induction l1 as [|f l1 IH]; simpl; [reflexivity | rewrite IH; lia]. Qed.

Lemma in_window_count_expired w now l :
  Forall (fun f => w < now - f) l -> in_window_count w now l = 0%nat.
Proof.
  induction 1 as [|f l Hf _ IH]; simpl; [reflexivity|].
  case_Qleb (now - f) w; [lra | assumption].
Qed.

(** C10: with a clock that does not run backwards inside the call,
    [record_success] leaves the configuration and [tripped_until] alone,
    removes from the history only a prefix of timestamps that have left the
    window (so the number of failures counted toward the threshold is not
    reset), and clears the reason exactly when the pruned history is
    empty. *)
Theorem record_success_frame (now clock : Q) (b : CircuitBreaker) :
  now <= clock ->
  let b' := record_success now clock b in
  tripped_until b' = tripped_until b
  /\ threshold b' = threshold b
  /\ window_seconds b' = window_seconds b
  /\ cooldown_seconds b' = cooldown_seconds b
  /\ name b' = name b
  /\ failures b' = drop_expired (window_seconds b) now (failures b)
  /\ (exists dropped,
        failures b = dropped ++ failures b'
        /\ Forall (fun f => window_seconds b < now - f) dropped)
  /\ (forall f, In f (failures b) -> now - f <= window_seconds b ->
        In f (failures b'))
  /\ in_window_count (window_seconds b) now (failures b')
     = in_window_count (window_seconds b) now (failures b)
  /\ (failures b' = [] -> reason b' = "")
  /\ (failures b' <> [] -> reason b' = reason b).
Proof.
  intros Hc b'. subst b'. unfold record_success.
  rewrite prune_monotone_clock by assumption. simpl.
  destruct (drop_expired_split (window_seconds b) now (failures b))
    as (dropped & Heq & Hd).
  assert (Hin : forall f, In f (failures b) -> now - f <= window_seconds b ->
             In f (drop_expired (window_seconds b) now (failures b))).
  { intros f Hf Hw. rewrite Heq in Hf. apply in_app_or in Hf as [Hf|Hf]; [|assumption].
    rewrite Forall_forall in Hd. apply list_elem_of_In, Hd in Hf. lra. }
  assert (Hcount : in_window_count (window_seconds b) now
                     (drop_expired (window_seconds b) now (failures b))
                   = in_window_count (window_seconds b) now (failures b)).
  { rewrite Heq at 2. rewrite in_window_count_app.
    rewrite (in_window_count_expired _ _ dropped Hd). reflexivity. }
  destruct (drop_expired (window_seconds b) now (failures b)) as [|f fs] eqn:E;
    simpl; split_and!; eauto; congruence.
Qed.

Lemma record_success_frame_witness :
  failures (record_success 1003 1003 test_breaker) = [1000; 1000]
  /\ tripped_until (record_success 1003 1003 test_breaker) = 1000 + 5
  /\ reason (record_success 1003 1003 test_breaker) = "second".
Proof.
  assert (Hc : 1003 <= 1003) by lra.
  destruct (record_success_frame 1003 1003 test_breaker Hc)
    as (H1 & _ & _ & _ & _ & H6 & _ & _ & _ & _ & H10).
  split; [|split].
  - rewrite H6. reflexivity.
  - rewrite H1. reflexivity.
  - rewrite H10; [reflexivity|]. rewrite H6. discriminate.
Defined.

(** X1: with a clock that does not run backwards between the read of the
    caller and the read of [tripped], [_prune] never takes its clearing
    branch: whatever the time of the check, also after [tripped_until] has
    passed, the history only loses the entries that left the window and the
    reason stays as it was. *)
Theorem clearing_branch_unreachable (now clock : Q) (b : CircuitBreaker) :
  now <= clock ->
  failures (_prune now clock b) = drop_expired (window_seconds b) now (failures b)
  /\ reason (_prune now clock b) = reason b
  /\ (allow now clock b).2 = _prune now clock b.
Proof.
  intros Hc. split_and!; [| |apply allow_result];
    rewrite prune_monotone_clock by assumption; reflexivity.
Qed.

Lemma clearing_branch_unreachable_witness :
  Qltb (tripped_until test_breaker) 1006 = true
  /\ failures (_prune 1006 1006 test_breaker) = [1000; 1000]
  /\ reason (_prune 1006 1006 test_breaker) = "second".
Proof.
  assert (Hc : 1006 <= 1006) by lra.
  destruct (clearing_branch_unreachable 1006 1006 test_breaker Hc) as (H1 & H2 & _).
  split; [reflexivity|]. split; [rewrite H1 | rewrite H2]; reflexivity.
Defined.

End SafetyFacts.

(** ** CausalMemory *)

Module MemoryFacts.
Import Safety Memory MemorySpec.

(** *** Ordering and trimming *)

Lemma insert_asc_Permutation {A : Type} (key : A -> Q) (x : A) (l : list A) :
  insert_asc key x l ≡ₚ x :: l.
Proof.
  induction l as [|y l IH]; simpl; [reflexivity|].
  destruct (Qleb (key x) (key y)); [reflexivity|].
  rewrite IH. apply Permutation_swap.
Qed.

Lemma order_asc_Permutation {A : Type} (key : A -> Q) (l : list A) :
  order_asc key l ≡ₚ l.
Proof.
  unfold order_asc. induction l as [|x l IH]; simpl; [reflexivity|].
  rewrite insert_asc_Permutation, IH. reflexivity.
Qed.

Lemma insert_desc_Permutation {A : Type} (key : A -> Q) (x : A) (l : list A) :
  insert_desc key x l ≡ₚ x :: l.
Proof.
  induction l as [|y l IH]; simpl; [reflexivity|].
  destruct (Qleb (key y) (key x)); [reflexivity|].
  rewrite IH. apply Permutation_swap.
Qed.

Lemma order_desc_Permutation {A : Type} (key : A -> Q) (l : list A) :
  order_desc key l ≡ₚ l.
Proof.
  unfold order_desc. induction l as [|x l IH]; simpl; [reflexivity|].
  rewrite insert_desc_Permutation, IH. reflexivity.
Qed.

Lemma filter_none {A : Type} (P : A -> Prop) `{!forall x, Decision (P x)}
    (l : list A) :
  Forall (fun x => ~ P x) l -> filter P l = [].
Proof.
  induction 1 as [|x l Hx _ IH]; [reflexivity|].
  rewrite filter_cons_False by assumption. assumption.
Qed.

(** Deleting the ids of the [k] oldest rows removes at least [k] rows. *)
Lemma delete_oldest_length (k : nat) (rows : list MemRow) :
  (k <= length rows)%nat ->
  (length (delete_ids (row_id <$> take k (order_asc row_ts rows)) rows)
   <= length rows - k)%nat.
Proof.
  intros Hk. unfold delete_ids.
  set (sorted := order_asc row_ts rows).
  set (P := fun r : MemRow => row_id r ∉ row_id <$> take k sorted).
  assert (Hperm : sorted ≡ₚ rows) by apply order_asc_Permutation.
  rewrite <- (Permutation_length (filter_Permutation P _ _ Hperm)).
  rewrite <- (take_drop k sorted) at 1. rewrite filter_app, length_app.
  rewrite (filter_none P (take k sorted)).
  - simpl. etransitivity; [apply length_filter|].
    rewrite length_drop, (Permutation_length Hperm). reflexivity.
  - apply Forall_forall. intros r Hr HP. apply HP.
    apply list_elem_of_fmap. exists r. split; [reflexivity | assumption].
Qed.

(** The hard trim leaves at most [cap] rows. *)
Lemma trim_memory_length (cap : Z) (rows : list MemRow) :
  (0 <= cap)%Z ->
  (Z.of_nat (length (trim_memory cap rows)) <= cap)%Z.
Proof.
  intros Hcap. unfold trim_memory.
  destruct (cap <? Z.of_nat (length rows))%Z eqn:E.
  - apply Z.ltb_lt in E. rewrite Z.max_r by lia. unfold sql_limit.
    destruct (_ <? 0)%Z eqn:E0; [apply Z.ltb_lt in E0; lia|].
    pose proof (delete_oldest_length
                  (Z.to_nat (Z.of_nat (length rows) - cap)) rows) as H.
    lia.
  - apply Z.ltb_ge in E. assumption.
Qed.

(** With at most [cap] rows in the table, the rotation finds nothing to
    move: the store and the archive are as before. *)
Lemma rotate_noop io ok clock (m : CausalMemory) :
  (Z.of_nat (length (memory (db m))) <= hot_memory_row_cap (config m))%Z ->
  _rotate_old_records io ok clock m = (m, 0%Z).
Proof.
  intros H. unfold _rotate_old_records.
  destruct (allow_writes m); simpl; [|reflexivity].
  destruct io; [reflexivity|].
  apply Z.leb_le in H. rewrite H. reflexivity.
Qed.

Lemma trim_table_keeps limits t ts ts' u :
  trim_table limits t ts = Some ts' -> is_Some (ts !! u) -> is_Some (ts' !! u).
Proof.
  unfold trim_table. intros H Hu.
  destruct (limits !! t) as [limit|]; [|congruence].
  destruct (limit =? 0)%Z; [congruence|].
  destruct (ts !! t) as [rows|] eqn:Et; [|discriminate].
  destruct (limit <? _)%Z; [|congruence].
  injection H as <-. destruct (decide (t = u)) as [->|Hne].
  - rewrite lookup_insert_eq. eauto.
  - rewrite lookup_insert_ne by assumption. assumption.
Qed.

Lemma trims_succeed limits (l : list string) : forall ts,
  (forall t, t ∈ l -> is_Some (ts !! t)) ->
  is_Some (foldl (fun acc t => acc ≫= trim_table limits t) (Some ts) l).
Proof.
  induction l as [|t l IH]; intros ts Hts; simpl; [eauto|].
  assert (Ht : is_Some (trim_table limits t ts)).
  { unfold trim_table. destruct (limits !! t) as [limit|]; [|eauto].
    destruct (limit =? 0)%Z; [eauto|].
    destruct (Hts t) as [rows ->]; [left|].
    destruct (limit <? _)%Z; eauto. }
  destruct Ht as [ts' Hts']. rewrite Hts'. apply IH.
  intros u Hu. eapply trim_table_keeps; [exact Hts'|].
  apply Hts. right. assumption.
Qed.

(** X2: what one maintenance cycle does to the hot table and to the archive
    when nothing fails: the trim of [_enforce_table_limits] runs first and
    deletes the rows beyond the cap, so [_rotate_old_records] never finds a
    row to archive. *)
Theorem maintain_trims_before_rotating (env : MaintEnv) (m : CausalMemory) :
  disabled_due_to_size (_check_size_limit (env_stat env) m) = false ->
  env_enforce_io env = None ->
  tables_exist m ->
  (0 <= hot_memory_row_cap (config m))%Z ->
  (Z.of_nat (length (memory (db (maintain env m).1)))
   <= hot_memory_row_cap (config m))%Z
  /\ warm_archive (maintain env m).1 = warm_archive m
  /\ rotated (maintain env m).2 = 0%Z.
Proof.
  intros Hdis Hio Hex Hcap. unfold maintain. rewrite Hdis.
  set (m1 := _check_size_limit (env_stat env) m) in *.
  assert (H1 : config m1 = config m /\ db m1 = db m
               /\ warm_archive m1 = warm_archive m
               /\ _table_limits m1 = _table_limits m).
  { unfold m1, _check_size_limit. destruct (env_stat env); auto.
    destruct (Qltb _ _); auto. }
  destruct H1 as (Hc1 & Hd1 & Ha1 & Hl1).
  set (m2 := _enforce_table_limits (env_enforce_io env) m1).
  assert (H2 : config m2 = config m /\ warm_archive m2 = warm_archive m
               /\ memory (db m2)
                  = trim_memory (hot_memory_row_cap (config m)) (memory (db m))).
  { unfold m2, _enforce_table_limits. rewrite Hdis, Hio, Hl1, Hd1, Hc1.
    destruct (trims_succeed (_table_limits m) trims (tables (db m)) Hex)
      as [ts ->]. simpl. auto. }
  destruct H2 as (Hc2 & Ha2 & Hm2).
  assert (Hlen : (Z.of_nat (length (memory (db m2)))
                  <= hot_memory_row_cap (config m2))%Z).
  { rewrite Hm2, Hc2. apply trim_memory_length. assumption. }
  rewrite rotate_noop by assumption.
  simpl. rewrite Hc2 in Hlen. auto.
Qed.

Lemma maintain_trims_before_rotating_witness :
  (Z.of_nat (length (memory (db (maintain (quiet_env (StatSize 1) 1010)
                                   store_of_five).1))) <= 3)%Z
  /\ warm_archive (maintain (quiet_env (StatSize 1) 1010) store_of_five).1 = []
  /\ rotated (maintain (quiet_env (StatSize 1) 1010) store_of_five).2 = 0%Z.
Proof.
  assert (H3 : tables_exist store_of_five).
  { intros t Ht. unfold trims in Ht.
    repeat (apply elem_of_cons in Ht as [-> | Ht]); try (vm_compute; eauto).
    inversion Ht. }
  assert (H4 : (0 <= hot_memory_row_cap (config store_of_five))%Z)
    by (vm_compute; discriminate).
  exact (maintain_trims_before_rotating (quiet_env (StatSize 1) 1010)
           store_of_five eq_refl eq_refl H3 H4).
Defined.

(** C1 at a store with cap 3, rotation chunk 2 and 5 rows: after
    [maintain()] the hot table holds the 3 newest rows and the rotation
    reports 0 rows, the warm archive is still empty; the rotation alone, on
    the same store, would have archived the two oldest rows. *)
Theorem maintain_archives_nothing :
  row_id <$> memory (db store_of_five) = [1; 2; 3; 4; 5]%Z
  /\ allow_writes store_of_five = true
  /\ disabled_due_to_size store_of_five = false
  /\ row_id <$> memory (db (maintain (quiet_env (StatSize 1) 1010) store_of_five).1)
     = [3; 4; 5]%Z
  /\ warm_archive (maintain (quiet_env (StatSize 1) 1010) store_of_five).1 = []
  /\ rotated (maintain (quiet_env (StatSize 1) 1010) store_of_five).2 = 0%Z
  /\ warm_archive (_rotate_old_records None true 1010 store_of_five).1
     = [RowSummary "global" "discord_message" "observe" "success" 1000;
        RowSummary "global" "discord_message" "observe" "success" 1001;
        Aggregate [("discord_message", 2%Z)] 1000 1001].
Proof. vm_compute. repeat split; reflexivity. Qed.

(** *** The write-rate limiter *)

Lemma nondecreasing_lower_bound x l :
  nondecreasing (x :: l) -> Forall (fun y => x <= y) l.
Proof.
  revert x. induction l as [|y l IH]; intros x H; [constructor|].
  destruct H as [Hxy Hl]. constructor; [assumption|].
  eapply Forall_impl; [apply IH; exact Hl|]. simpl. intros z Hz. lra.
Qed.

Lemma nondecreasing_tail x l : nondecreasing (x :: l) -> nondecreasing l.
Proof. intros [_ H]. exact H. Qed.

Lemma clock_ordered_weaken calls : forall T T',
  T' <= T -> clock_ordered T calls -> clock_ordered T' calls.
Proof.
  destruct calls as [|c rest]; intros T T' HT H; simpl in *; [exact I|].
  destruct H as (H1 & H2 & H3). repeat split; [lra | assumption | assumption].
Qed.

Lemma monotone_clock_ordered calls : forall T,
  nondecreasing (T :: concat ((fun c => reads (call_clock c)) <$> calls)) ->
  clock_ordered T calls.
Proof.
  induction calls as [|c rest IH]; intros T H; simpl; [exact I|].
  simpl in H. unfold reads in H at 1. simpl in H.
  destruct H as (H0 & H1 & H2 & H3 & H4 & H5 & H6 & H7).
  assert (Hp : wc_now (call_clock c) <= prune_time (call_clock c)
               /\ prune_time (call_clock c) <= wc_prune (call_clock c)).
  { unfold prune_time. destruct (Qeq_bool _ 0); split; lra. }
  repeat split; [lra | lra |].
  apply IH. destruct (concat _) as [|y l] eqn:E; simpl; [auto|].
  simpl in H7. split; [|apply H7].
  destruct H7 as [H7 _]. lra.
Qed.

Lemma writes_in_window_app a l1 l2 :
  writes_in_window a (l1 ++ l2)
  = (writes_in_window a l1 + writes_in_window a l2)%nat.
Proof. induction l1 as [|t l1 IH]; simpl; [reflexivity | rewrite IH; lia]. Qed.

Lemma writes_in_window_le_length a l :
  (writes_in_window a l <= length l)%nat.
Proof.
  induction l as [|t l IH]; simpl; [lia|].
  destruct (_ && _); lia.
Qed.

Lemma writes_in_window_before a l :
  Forall (fun t => t < a) l -> writes_in_window a l = 0%nat.
Proof.
  induction 1 as [|t l Ht _ IH]; simpl; [reflexivity|].
  case_Qleb a t; [lra|]. simpl. assumption.
Qed.

(** The three ways a write can leave the deque of timestamps. *)
Lemma execute_write_stamps clk io table writer (m : CausalMemory) :
  let r := _execute_write clk io table writer m in
  let pruned := drop_expired 1 (prune_time clk) (_write_timestamps m) in
  config r.1 = config m
  /\ ((_write_timestamps r.1 = _write_timestamps m
       /\ (r.2 = Skipped WritesOff \/ r.2 = Skipped BreakerOpen)
       /\ db r.1 = db m)
      \/ (_write_timestamps r.1 = pruned
          /\ (forall t, r.2 <> Committed t)
          /\ db r.1 = db m
          /\ ((memory_max_writes_per_second (config m)
               <= Z.of_nat (length pruned))%Z -> r.2 = Skipped RateLimited))
      \/ (_write_timestamps r.1 = pruned ++ [wc_commit clk]
          /\ r.2 = Committed (wc_commit clk)
          /\ (Z.of_nat (length pruned)
              < memory_max_writes_per_second (config m))%Z)).
Proof.
  unfold _execute_write, _prune_writes, prune_time.
  destruct (allow_writes m); simpl; [|auto 10].
  destruct (allow _ _ _) as [ok br]. destruct ok; simpl; [|auto 10].
  set (pruned := drop_expired 1 _ _).
  destruct (_ <=? _)%Z eqn:E; simpl.
  { split; [reflexivity|]. right; left. repeat split; auto; discriminate. }
  apply Z.leb_gt in E.
  assert (Hno : forall P : Prop, (memory_max_writes_per_second (config m)
                  <= Z.of_nat (length pruned))%Z -> P) by (intros; lia).
  destruct io as [e|].
  { split; [destruct e as [msg| |msg]; simpl; try destruct (contains _ _); reflexivity|].
    right; left.
    destruct e as [msg| |msg]; simpl; try destruct (contains _ _); simpl;
      repeat split; auto; try (intros; discriminate); try apply Hno. }
  destruct (_table_over_limit _ _); simpl.
  { split; [reflexivity|]. right; left.
    repeat split; auto; try (intros; discriminate); try apply Hno. }
  destruct (writer (db m)) as [d|e]; simpl.
  { split; [reflexivity|]. right; right. repeat split; auto. }
  split; [destruct e as [msg| |msg]; simpl; try destruct (contains _ _); reflexivity|].
  right; left.
  destruct e as [msg| |msg]; simpl; try destruct (contains _ _); simpl;
    repeat split; auto; try (intros; discriminate); try apply Hno.
Qed.

Lemma limiter_inv_step clk io table writer (m : CausalMemory) T log :
  limiter_inv (memory_max_writes_per_second (config m)) T log
    (_write_timestamps m) ->
  T <= prune_time clk -> prune_time clk <= wc_commit clk ->
  let r := _execute_write clk io table writer m in
  limiter_inv (memory_max_writes_per_second (config m)) (prune_time clk)
    (log ++ committed [r.2]) (_write_timestamps r.1).
Proof.
  intros [(dropped & Hlog & Hdrop) Hwin] HT Hc r.
  destruct (execute_write_stamps clk io table writer m)
    as (_ & [(Hs & Hr & _) | [(Hs & Hr & _) | (Hs & Hr & Hlen)]]);
    fold r in Hs, Hr.
  - assert (committed [r.2] = []) as -> by (destruct Hr as [-> | ->]; reflexivity).
    rewrite app_nil_r, Hs. split; [|assumption].
    exists dropped. split; [assumption|].
    eapply Forall_impl; [exact Hdrop|]. simpl. intros; lra.
  - assert (committed [r.2] = []) as ->.
    { destruct (r.2) as [why|t|e]; try reflexivity. destruct (Hr t). reflexivity. }
    rewrite app_nil_r, Hs. split; [|assumption].
    destruct (SafetyFacts.drop_expired_split 1 (prune_time clk) (_write_timestamps m))
      as (d2 & Heq & Hd2).
    exists (dropped ++ d2). split.
    + rewrite Hlog, Heq at 1. rewrite app_assoc. reflexivity.
    + apply Forall_app. split.
      * eapply Forall_impl; [exact Hdrop|]. simpl. intros; lra.
      * eapply Forall_impl; [exact Hd2|]. simpl. intros; lra.
  - rewrite Hr, Hs. simpl.
    destruct (SafetyFacts.drop_expired_split 1 (prune_time clk) (_write_timestamps m))
      as (d2 & Heq & Hd2).
    set (pruned := drop_expired 1 (prune_time clk) (_write_timestamps m)) in *.
    assert (Hlog' : log = (dropped ++ d2) ++ pruned).
    { rewrite Hlog, Heq at 1. rewrite app_assoc. reflexivity. }
    assert (Hold : Forall (fun d => d < prune_time clk - 1) (dropped ++ d2)).
    { apply Forall_app. split.
      - eapply Forall_impl; [exact Hdrop|]. simpl. intros; lra.
      - eapply Forall_impl; [exact Hd2|]. simpl. intros; lra. }
    split.
    + exists (dropped ++ d2). split; [|assumption].
      rewrite Hlog'. rewrite <- !app_assoc. reflexivity.
    + intros a. rewrite writes_in_window_app. simpl.
      case_Qleb a (wc_commit clk); simpl; [|specialize (Hwin a); lia].
      case_Qleb (wc_commit clk) (a + 1); simpl; [|specialize (Hwin a); lia].
      rewrite Hlog', writes_in_window_app.
      rewrite (writes_in_window_before a (dropped ++ d2)).
      * pose proof (writes_in_window_le_length a pruned). lia.
      * eapply Forall_impl; [exact Hold|]. simpl. intros; lra.
Qed.

Lemma committed_cons r rs : committed (r :: rs) = committed [r] ++ committed rs.
Proof. unfold committed. simpl. destruct r; reflexivity. Qed.

Lemma run_writes_cons c rest (m : CausalMemory) :
  run_writes (c :: rest) m
  = let r := _execute_write (call_clock c) (call_io c) (call_table c)
               (call_writer c) m in
    ((run_writes rest r.1).1, r.2 :: (run_writes rest r.1).2).
Proof.
  simpl. destruct (_execute_write _ _ _ _ m) as [m1 r]. simpl.
  destruct (run_writes rest m1); reflexivity.
Qed.

Lemma limiter_inv_run calls : forall (m : CausalMemory) T log,
  limiter_inv (memory_max_writes_per_second (config m)) T log
    (_write_timestamps m) ->
  clock_ordered T calls ->
  exists T',
    limiter_inv (memory_max_writes_per_second (config m)) T'
      (log ++ committed (run_writes calls m).2)
      (_write_timestamps (run_writes calls m).1).
Proof.
  induction calls as [|c rest IH]; intros m T log Hinv Hclk.
  - exists T. simpl. rewrite app_nil_r. assumption.
  - destruct Hclk as (H1 & H2 & H3).
    pose proof (limiter_inv_step (call_clock c) (call_io c) (call_table c)
                  (call_writer c) m T log Hinv H1 H2) as Hstep.
    destruct (execute_write_stamps (call_clock c) (call_io c) (call_table c)
                (call_writer c) m) as (Hcfg & _).
    rewrite run_writes_cons. cbv zeta in *.
    set (r := _execute_write _ _ _ _ m) in *. cbn [fst snd].
    rewrite <- Hcfg in Hstep.
    destruct (IH r.1 _ _ Hstep H3) as (T' & Hfin).
    exists T'. rewrite committed_cons, app_assoc, <- Hcfg. assumption.
Qed.

(** C7: over any run of writes on a store whose limiter starts empty, under
    a clock that never runs backwards, no closed one-second window holds
    more committed writes than [memory_max_writes_per_second]; and a write
    that finds the pruned window at the cap is skipped: it returns without
    an exception and leaves the database as it was. *)
Theorem write_rate_bounded (calls : list WriteCall) (m : CausalMemory) :
  _write_timestamps m = [] ->
  (0 <= memory_max_writes_per_second (config m))%Z ->
  monotone_clock calls ->
  (forall a,
      (Z.of_nat (writes_in_window a (committed (run_writes calls m).2))
       <= memory_max_writes_per_second (config m))%Z)
  /\ (forall clk io table writer (m0 : CausalMemory),
        allow_writes m0 = true ->
        (allow (wc_allow clk) (wc_allow_tripped clk) (_breaker m0)).1 = true ->
        (memory_max_writes_per_second (config m0)
         <= Z.of_nat (length (_prune_writes (wc_now clk) (wc_prune clk)
                                (_write_timestamps m0))))%Z ->
        (_execute_write clk io table writer m0).2 = Skipped RateLimited
        /\ db (_execute_write clk io table writer m0).1 = db m0).
Proof.
  intros Hempty Hmax Hclk. split.
  - intros a.
    assert (Hord : exists T, clock_ordered T calls).
    { destruct calls as [|c rest]; [exists 0; exact I|].
      exists (wc_allow (call_clock c)). apply monotone_clock_ordered.
      unfold monotone_clock in Hclk. simpl in *. split; [lra | exact Hclk]. }
    destruct Hord as (T & Hord).
    destruct (limiter_inv_run calls m T [] ) as (T' & _ & Hwin); [|assumption|].
    + rewrite Hempty. split; [exists []; split; [reflexivity | constructor]|].
      intros a'. simpl. assumption.
    + apply Hwin.
  - intros clk io table writer m0 Hw Hallow Hfull.
    destruct (execute_write_stamps clk io table writer m0)
      as (_ & [(_ & Hr & _) | [(_ & _ & Hdb & Hr) | (_ & _ & Hlen)]]).
    + exfalso. revert Hr. unfold _execute_write. rewrite Hw. simpl.
      destruct (allow _ _ _) as [ok br]. simpl in Hallow. subst ok. simpl.
      destruct (_ <=? _)%Z; [intros [?|?]; discriminate|].
      intros [Hr|Hr]; revert Hr;
        (destruct io as [[msg| |msg]|]; simpl; try destruct (contains _ _);
         try (intros; discriminate);
         destruct (_table_over_limit _ _); try (intros; discriminate);
         destruct (writer _) as [d|[msg| |msg]]; simpl;
         try destruct (contains _ _); intros; discriminate).
    + split; [apply Hr; exact Hfull | exact Hdb].
    + exfalso. unfold _prune_writes in Hfull. fold (prune_time clk) in Hfull. lia.
Qed.

Lemma write_rate_bounded_witness :
  (Z.of_nat (writes_in_window 1000 (committed (run_writes three_writes limited_store).2))
   <= 2)%Z
  /\ (run_writes three_writes limited_store).2
     = [Committed 1000; Committed 1000; Skipped RateLimited].
Proof.
  assert (H1 : _write_timestamps limited_store = []) by reflexivity.
  assert (H2 : (0 <= memory_max_writes_per_second (config limited_store))%Z)
    by (vm_compute; discriminate).
  assert (H3 : monotone_clock three_writes)
    by (unfold monotone_clock; simpl; repeat split; lra).
  split.
  - exact (proj1 (write_rate_bounded three_writes limited_store H1 H2 H3) 1000).
  - vm_compute. reflexivity.
Defined.

(** *** Reads *)

(** X4: the two getters with a [try]/[except] never raise, whatever the
    state of the store and whatever the sqlite connection does. *)
Theorem getters_never_raise io (m : CausalMemory) server user_a user_b :
  raises (get_user_profile io m server user_a) = false
  /\ raises (get_relationship io m server user_a user_b) = false.
Proof.
  unfold get_user_profile, get_relationship. split.
  - destruct (disabled_due_to_size m); [reflexivity|].
    destruct (select_data _ _ _ _ _); reflexivity.
  - destruct (disabled_due_to_size m); [reflexivity|].
    destruct (sorted_pair _ _). destruct (select_data _ _ _ _ _); reflexivity.
Qed.

(** X3: every echo returned is a [system] stimulus of source [memory] and of
    the type of the stimulus; its salience is the salience of the stimulus,
    times 0.7, times [1 / (1 + age_hours / 24)], capped at 1, where the age
    is at least 0.1 hours. *)
Theorem echoes_decay now (m : CausalMemory) server stimulus limit echo_list :
  echoes None now m server stimulus limit = Ok echo_list ->
  Forall (fun e =>
            type e = type stimulus /\ source e = "memory" /\ routing e = "system"
            /\ exists age_hours,
                 age_hours == Qmax 0.1 ((now - timestamp e) / 3600)
                 /\ salience e
                    == Qmin 1 (salience stimulus * 0.7 * (1 / (1 + age_hours / 24))))
         echo_list.
Proof.
  unfold echoes. destruct (disabled_due_to_size m).
  - intros [= <-]. constructor.
  - intros [= <-]. apply Forall_fmap, Forall_forall. intros r Hr. simpl.
    assert (Hin : r ∈ filter (fun r => row_server_id r = server
                                /\ row_stimulus_type r = type stimulus)
                        (memory (db m))).
    { unfold sql_limit in Hr. rewrite <- (order_desc_Permutation row_ts).
      destruct (_ <? 0)%Z; [assumption|].
      rewrite <- (take_drop (Z.to_nat limit)). apply elem_of_app. left. assumption. }
    apply list_elem_of_filter in Hin as [[_ Hty] _].
    repeat split; [assumption|].
    eexists. split; reflexivity.
Qed.

Lemma echoes_decay_witness :
  exists echo_list,
    echoes None 1010 store_of_five "global" (test_stimulus 9) 3 = Ok echo_list
    /\ length echo_list = 3%nat
    /\ Forall (fun e =>
                 type e = type (test_stimulus 9) /\ source e = "memory"
                 /\ routing e = "system"
                 /\ exists age_hours,
                      age_hours == Qmax 0.1 ((1010 - timestamp e) / 3600)
                      /\ salience e
                         == Qmin 1 (salience (test_stimulus 9) * 0.7
                                    * (1 / (1 + age_hours / 24))))
              echo_list.
Proof.
  eexists. split; [reflexivity|]. split; [reflexivity|].
  apply (echoes_decay 1010 store_of_five "global" (test_stimulus 9) 3).
  reflexivity.
Defined.

(** C3 on a store that is not disabled, when the sqlite connection raises
    [e] (a locked database, a missing table): [fetch_recent] and [echoes]
    let the exception through, while the profile and relationship getters
    fall back to their defaults. *)
Theorem reads_on_failure (m : CausalMemory) (e : exn) (now : Q)
    (server user_a user_b : string) (stimulus : Stimulus) (limit : Z) :
  disabled_due_to_size m = false ->
  fetch_recent (Some e) m server limit = Raised e
  /\ echoes (Some e) now m server stimulus limit = Raised e
  /\ get_user_profile (Some e) m server user_a = Ok PROFILE_DEFAULTS
  /\ get_relationship (Some e) m server user_a user_b = Ok RELATIONSHIP_DEFAULTS.
Proof.
  intros Hd. unfold fetch_recent, echoes, get_user_profile, get_relationship.
  rewrite Hd. destruct (sorted_pair user_a user_b). simpl. auto.
Qed.

Lemma reads_on_failure_witness :
  fetch_recent (Some (OperationalError "database is locked")) store_of_five
    "global" 6
  = Raised (OperationalError "database is locked")
  /\ raises (echoes (Some (OperationalError "database is locked")) 1010
               store_of_five "global" (test_stimulus 9) 3) = true.
Proof.
  assert (Hd : disabled_due_to_size store_of_five = false) by reflexivity.
  destruct (reads_on_failure store_of_five
              (OperationalError "database is locked") 1010 "global" "1" "2"
              (test_stimulus 9) 6 Hd) as (H1 & _).
  destruct (reads_on_failure store_of_five
              (OperationalError "database is locked") 1010 "global" "1" "2"
              (test_stimulus 9) 3 Hd) as (_ & H2 & _).
  split; [exact H1 | rewrite H2; reflexivity].
Defined.

(** *** The size ceiling *)

(** The size check never turns writes back on. *)
Lemma check_size_limit_writes stat (m : CausalMemory) :
  allow_writes m = false -> allow_writes (_check_size_limit stat m) = false.
Proof.
  intros H. unfold _check_size_limit.
  destruct stat; [destruct (Qltb _ _)|..]; simpl; auto.
Qed.

(** [fetch_admin_policies] does not look at the disabled flag. *)
Lemma admin_policies_ignore_disabled io why (m : CausalMemory) server limit :
  fetch_admin_policies io (set_disabled true why m) server limit
  = fetch_admin_policies io m server limit.
Proof. reflexivity. Qed.

Lemma write_skipped_when_off clk io table writer (m : CausalMemory) :
  allow_writes m = false ->
  _execute_write clk io table writer m = (m, Skipped WritesOff).
Proof. intros H. unfold _execute_write. rewrite H. reflexivity. Qed.

Lemma enforce_frame io (m : CausalMemory) :
  allow_writes (_enforce_table_limits io m) = allow_writes m
  /\ disabled_due_to_size (_enforce_table_limits io m) = disabled_due_to_size m
  /\ config (_enforce_table_limits io m) = config m
  /\ warm_archive (_enforce_table_limits io m) = warm_archive m.
Proof.
  unfold _enforce_table_limits. destruct (disabled_due_to_size m) eqn:E; [auto|].
  destruct io; [auto|]. destruct (foldl _ _ trims); simpl; auto.
Qed.

(** C4, from the first maintenance that measures the file over the ceiling
    to the next one that measures it back under: in between, the store is
    disabled, writes are skipped and the guarded reads answer with their
    empty or default value; afterwards the disabled flag is cleared and
    reads reach the database again, but [allow_writes] is still false, so
    every write is still skipped. *)
Theorem size_ceiling_cycle (env_over env_under : MaintEnv) (over under : Q)
    (m : CausalMemory) :
  env_stat env_over = StatSize over ->
  inject_Z (memory_max_file_mb (config m)) < over ->
  env_stat env_under = StatSize under ->
  under <= inject_Z (memory_max_file_mb (config m)) ->
  let m1 := (maintain env_over m).1 in
  let m2 := (maintain env_under m1).1 in
  (disabled_due_to_size m1 = true
   /\ (forall clk io table writer,
         _execute_write clk io table writer m1 = (m1, Skipped WritesOff))
   /\ (forall io server limit, fetch_recent io m1 server limit = Ok [])
   /\ (forall io now server stimulus limit,
         echoes io now m1 server stimulus limit = Ok [])
   /\ (forall io server user,
         get_user_profile io m1 server user = Ok PROFILE_DEFAULTS)
   /\ (forall io server a b,
         get_relationship io m1 server a b = Ok RELATIONSHIP_DEFAULTS))
  /\ (disabled_due_to_size m2 = false
      /\ (forall server limit,
            fetch_recent None m2 server limit
            = Ok (entry_of_row server
                    <$> sql_limit limit
                          (order_desc row_ts
                             (filter (fun r => row_server_id r = server)
                                     (memory (db m2))))))
      /\ allow_writes m2 = false
      /\ (forall clk io table writer,
            _execute_write clk io table writer m2 = (m2, Skipped WritesOff))).
Proof.
  intros Hover Hgt Hunder Hle m1 m2.
  assert (H1 : disabled_due_to_size m1 = true /\ allow_writes m1 = false
               /\ config m1 = config m).
  { unfold m1, maintain, _check_size_limit. rewrite Hover.
    apply Qltb_lt in Hgt. rewrite Hgt. simpl. auto. }
  destruct H1 as (Hd1 & Hw1 & Hc1).
  assert (H2 : disabled_due_to_size m2 = false /\ allow_writes m2 = false).
  { unfold m2, maintain, _check_size_limit. rewrite Hunder, Hc1.
    apply Qltb_ge in Hle. rewrite Hle. simpl.
    match goal with |- context [_enforce_table_limits ?io ?x] =>
      destruct (enforce_frame io x) as (Ha & Hb & _);
      set (m' := _enforce_table_limits io x) in * end.
    simpl in Ha, Hb. unfold _rotate_old_records. rewrite Ha, Hw1. simpl.
    rewrite Ha, Hb. auto. }
  destruct H2 as (Hd2 & Hw2).
  split; [|split; [|split; [|split]]].
  - split; [assumption|].
    unfold fetch_recent, echoes, get_user_profile, get_relationship.
    rewrite Hd1. repeat split; auto.
    intros. apply write_skipped_when_off. assumption.
  - assumption.
  - intros. unfold fetch_recent. rewrite Hd2. reflexivity.
  - assumption.
  - intros. apply write_skipped_when_off. assumption.
Qed.

Lemma size_ceiling_cycle_witness :
  allow_writes store_of_five = true
  /\ allow_writes
       (maintain (quiet_env (StatSize 1) 1030)
          (maintain (quiet_env (StatSize 700) 1020) store_of_five).1).1 = false
  /\ (record (steady_clock 1040) None 1040 "global" (test_stimulus 40)
        "social" "observe" "observe" "success" 0.1
        (maintain (quiet_env (StatSize 1) 1030)
           (maintain (quiet_env (StatSize 700) 1020) store_of_five).1).1).2
     = Skipped WritesOff.
Proof.
  assert (Ho : inject_Z (memory_max_file_mb (config store_of_five)) < 700)
    by reflexivity.
  assert (Hu : 1 <= inject_Z (memory_max_file_mb (config store_of_five)))
    by (vm_compute; discriminate).
  destruct (size_ceiling_cycle (quiet_env (StatSize 700) 1020)
              (quiet_env (StatSize 1) 1030) 700 1 store_of_five
              eq_refl Ho eq_refl Hu) as (_ & _ & _ & Hw & Hskip).
  split; [reflexivity|]. split; [exact Hw|].
  unfold record. rewrite Hskip. reflexivity.
Defined.

End MemoryFacts.

(** ** Governor *)

Module GovernorFacts.
Import Memory Governor GovernorSpec.

(** One round of the loop. *)
Lemma consider_step identity mb best bs (o : RealityOutput) :
  let r := consider identity mb (best, bs) o in
  bs <= r.2
  /\ (forall act, recommended_action o = Some act -> _score identity o mb <= r.2)
  /\ (r = (best, bs)
      \/ exists act,
           recommended_action o = Some act
           /\ r = (Some (decision_of o act), _score identity o mb)
           /\ bs < _score identity o mb).
Proof.
  unfold consider. destruct (recommended_action o) as [act|]; simpl.
  - case_Qltb bs (_score identity o mb); simpl.
    + split; [lra|]. split; [intros; lra|]. right. exists act. auto.
    + split; [lra|]. split; [intros; lra|]. left. reflexivity.
  - split; [lra|]. split; [intros; discriminate|]. left. reflexivity.
Qed.

(** The fold of [deliberate]: the running score never decreases, it bounds
    the score of every candidate seen, and the running best is either the
    initial one or a candidate that beat it. *)
Lemma consider_fold identity mb (realities : list RealityOutput) :
  forall best bs,
    let r := foldl (consider identity mb) (best, bs) realities in
    bs <= r.2
    /\ (forall o act, o ∈ realities -> recommended_action o = Some act ->
          _score identity o mb <= r.2)
    /\ ((r.1 = best /\ r.2 = bs)
        \/ exists o act,
             o ∈ realities /\ recommended_action o = Some act
             /\ r.1 = Some (decision_of o act)
             /\ r.2 = _score identity o mb
             /\ bs < _score identity o mb).
Proof.
  induction realities as [|o l IH]; intros best bs.
  - simpl. split; [lra|]. split; [|left; auto].
    intros o act Ho. inversion Ho.
  - cbn [foldl]. cbv zeta.
    destruct (consider_step identity mb best bs o) as (Hs1 & Hs2 & Hs3).
    destruct (consider identity mb (best, bs) o) as [b1 s1] eqn:Estep.
    simpl in Hs1, Hs2.
    destruct (IH b1 s1) as (Hmono & Hall & Hsel). cbv zeta in *.
    set (r := foldl (consider identity mb) (b1, s1) l) in *.
    split; [lra|]. split.
    { intros o' act' [->|Ho']%elem_of_cons Hact'.
      - specialize (Hs2 _ Hact'). lra.
      - eapply Hall; eassumption. }
    destruct Hsel as [[H1 H2] | (o' & act' & Ho' & Hact' & H1 & H2 & Hlt')].
    + destruct Hs3 as [[= -> ->] | (act & Hact & [= -> ->] & Hlt)].
      * left. auto.
      * right. exists o, act. repeat split; auto. left.
    + right. exists o', act'. repeat split; auto; [right; assumption | lra].
Qed.

(** What the loop selects: nothing when no candidate scores above the
    initial [best_score] of -1, and otherwise a candidate of maximal
    score. *)
Lemma select_spec identity mb (realities : list RealityOutput) :
  ((select identity mb realities).1 = None
   /\ forall o act, o ∈ realities -> recommended_action o = Some act ->
        _score identity o mb <= -1)
  \/ exists o act,
       o ∈ realities /\ recommended_action o = Some act
       /\ (select identity mb realities).1 = Some (decision_of o act)
       /\ -1 < _score identity o mb
       /\ forall o' act', o' ∈ realities -> recommended_action o' = Some act' ->
            _score identity o' mb <= _score identity o mb.
Proof.
  unfold select.
  destruct (consider_fold identity mb realities None (-1))
    as (_ & Hall & [[H1 H2] | (o & act & Ho & Hact & H1 & H2 & Hlt)]).
  - left. split; [assumption|]. intros o act Ho Hact.
    rewrite <- H2. eapply Hall; eassumption.
  - right. exists o, act. repeat split; auto.
    intros o' act' Ho' Hact'. rewrite <- H2. eapply Hall; eassumption.
Qed.

Lemma arbitrate_cases now identity mb (realities : list RealityOutput) :
  ((select identity mb realities).1 = None
   /\ arbitrate now identity mb realities = no_recommendation now)
  \/ exists best,
       (select identity mb realities).1 = Some best
       /\ ((0.7 - 0.2 * mb < decision_risk best /\ decision_confidence best < 0.7
            /\ arbitrate now identity mb realities = override_decision now)
           \/ (~ (0.7 - 0.2 * mb < decision_risk best
                  /\ decision_confidence best < 0.7)
               /\ arbitrate now identity mb realities = best)).
Proof.
  unfold arbitrate. destruct (select identity mb realities).1 as [best|];
    [|left; auto].
  right. exists best. split; [reflexivity|].
  case_Qltb (0.7 - mb * 0.2) (decision_risk best); simpl.
  - case_Qltb (decision_confidence best) 0.7.
    + left. repeat split; auto. lra.
    + right. split; [|reflexivity]. intros [_ H]. lra.
  - right. split; [|reflexivity]. intros [H _]. lra.
Qed.

(** *** The memory bias *)

Lemma inject_length_succ {A : Type} (x : A) (l : list A) :
  inject_Z (Z.of_nat (length (x :: l))) == inject_Z (Z.of_nat (length l)) + 1.
Proof.
  simpl length. rewrite Nat2Z.inj_succ. unfold Z.succ.
  rewrite inject_Z_plus. reflexivity.
Qed.

Lemma inject_length_pos {A : Type} (x : A) (l : list A) :
  0 < inject_Z (Z.of_nat (length (x :: l))).
Proof.
  rewrite inject_length_succ.
  assert (0 <= inject_Z (Z.of_nat (length l))).
  { change 0 with (inject_Z 0). rewrite <- Zle_Qle. lia. }
  lra.
Qed.

(** The bias is the arithmetic mean of the deltas of the records found. *)
Lemma memory_bias_is_mean (recent : list MemoryEntry) :
  recent <> [] ->
  memory_bias_of recent * inject_Z (Z.of_nat (length recent))
  == delta_sum recent.
Proof.
  destruct recent as [|e l]; [congruence|]. intros _.
  unfold memory_bias_of, delta_sum.
  pose proof (inject_length_pos e l). field. lra.
Qed.

Lemma delta_sum_bounds (l : list MemoryEntry) : forall acc,
  Forall (fun e => -1 <= entry_confidence_delta e
                   /\ entry_confidence_delta e <= 1) l ->
  acc - inject_Z (Z.of_nat (length l))
  <= foldl (fun a e => a + entry_confidence_delta e) acc l
  /\ foldl (fun a e => a + entry_confidence_delta e) acc l
     <= acc + inject_Z (Z.of_nat (length l)).
Proof.
  induction l as [|e l IH]; intros acc Hl.
  - simpl. change (Z.of_nat 0) with 0%Z. unfold inject_Z. lra.
  - inversion Hl as [|? ? [He1 He2] Hl']; subst.
    destruct (IH (acc + entry_confidence_delta e) Hl') as [H1 H2].
    pose proof (inject_length_succ e l) as Hn.
    cbn [foldl]. split; lra.
Qed.

Lemma memory_bias_bounds (recent : list MemoryEntry) :
  Forall (fun e => -1 <= entry_confidence_delta e
                   /\ entry_confidence_delta e <= 1) recent ->
  -1 <= memory_bias_of recent /\ memory_bias_of recent <= 1.
Proof.
  intros Hr. destruct recent as [|e l]; [simpl; lra|].
  pose proof (inject_length_pos e l) as Hpos.
  destruct (delta_sum_bounds (e :: l) 0 Hr) as [H1 H2].
  unfold memory_bias_of. split.
  - apply Qle_shift_div_l; [assumption | lra].
  - apply Qle_shift_div_r; [assumption | lra].
Qed.

(** With confidences, risks and traits in [[0, 1]] and deltas in
    [[-1, 1]], every score is above the initial [best_score]. *)
Lemma scores_above_sentinel identity (o : RealityOutput)
    (recent : list MemoryEntry) :
  0 <= assertiveness identity <= 1 ->
  0 <= caution identity <= 1 ->
  0 <= curiosity identity <= 1 ->
  0 <= confidence o <= 1 ->
  0 <= risk o <= 1 ->
  Forall (fun e => -1 <= entry_confidence_delta e
                   /\ entry_confidence_delta e <= 1) recent ->
  -1 < _score identity o (memory_bias_of recent).
Proof.
  intros Ha Hc Hq Hconf Hrisk Hr.
  destruct (memory_bias_bounds recent Hr) as [Hb1 Hb2].
  unfold _score. set (mb := memory_bias_of recent) in *.
  set (c := confidence o) in *. set (r := risk o) in *.
  set (m := 1 + 0.2 * (assertiveness identity - caution identity)
            + 0.1 * curiosity identity + mb).
  assert (Hm : -0.2 <= m) by (unfold m; lra).
  assert (Hb0 : 0 <= c * (1 - r)) by (apply Qmult_le_0_compat; lra).
  assert (Hb3 : 0 <= (1 - c) * (1 - r)) by (apply Qmult_le_0_compat; lra).
  destruct (Qlt_le_dec m 0).
  - assert (0 <= (1 - c * (1 - r)) * (- m)) by (apply Qmult_le_0_compat; lra).
    lra.
  - assert (0 <= c * (1 - r) * m) by (apply Qmult_le_0_compat; lra). lra.
Qed.

(** The loop selects the maximum-score candidate when its score beats the
    initial [best_score]. *)
Lemma select_first_max identity mb (realities : list RealityOutput) o act :
  first_max identity mb realities o act ->
  -1 < _score identity o mb ->
  (select identity mb realities).1 = Some (decision_of o act).
Proof.
  intros (Hact & before & after & -> & Hb & Ha) Hgt.
  unfold select. rewrite foldl_app. cbn [foldl].
  destruct (consider_fold identity mb before None (-1)) as (_ & _ & Hsel).
  cbv zeta in Hsel.
  destruct (foldl (consider identity mb) (None, -1) before) as [b1 s1].
  simpl in Hsel.
  assert (Hs1 : s1 < _score identity o mb).
  { destruct Hsel as [[_ ->] | (o' & act' & Ho' & Hact' & _ & -> & _)];
      [assumption | eapply Hb; eassumption]. }
  assert (Hstep : consider identity mb (b1, s1) o
                  = (Some (decision_of o act), _score identity o mb)).
  { unfold consider. rewrite Hact. simpl.
    apply Qltb_lt in Hs1. rewrite Hs1. reflexivity. }
  rewrite Hstep.
  destruct (consider_fold identity mb after (Some (decision_of o act))
              (_score identity o mb)) as (_ & _ & Hsel2).
  cbv zeta in Hsel2.
  destruct Hsel2 as [[-> _] | (o' & act' & Ho' & Hact' & _ & _ & Hlt)];
    [reflexivity|].
  specialize (Ha o' act' Ho' Hact'). lra.
Qed.

(** C5 (as amended): a decision returned by [deliberate] is one of the
    three fixed [observe] decisions, or it is a candidate and then it does
    not have a risk above [0.7 - 0.2 * memory_bias] together with a
    confidence below 0.7.  Whenever the maximum-score candidate beats the
    initial [best_score] of -1 and violates that bound, the decision
    returned is the [observe] override with the risk-exceeded-confidence
    rationale.  On values in range (confidences, risks and traits in
    [[0, 1]], confidence deltas in [[-1, 1]]) every score is above -1 and
    the claim holds as it was written: no decision returned violates the
    bound, and a maximum-score candidate that violates it is replaced by
    the override. *)
Theorem risk_bound now io identity (memory : CausalMemory) server
    (realities : list RealityOutput) (directed : bool) (d : GovernorDecision) :
  deliberate now io identity memory server realities directed = Ok d ->
  ((action d = fallback now /\ intent_type (action d) = Observe
    /\ (d = ambient_decision now \/ d = no_recommendation now
        \/ d = override_decision now))
   \/ exists recent o act,
        directed = true
        /\ fetch_recent io memory server 6 = Ok recent
        /\ o ∈ realities /\ recommended_action o = Some act
        /\ d = decision_of o act
        /\ ~ (0.7 - 0.2 * memory_bias_of recent < decision_risk d
              /\ decision_confidence d < 0.7))
  /\ (forall recent o act,
        directed = true ->
        fetch_recent io memory server 6 = Ok recent ->
        first_max identity (memory_bias_of recent) realities o act ->
        -1 < _score identity o (memory_bias_of recent) ->
        0.7 - 0.2 * memory_bias_of recent < risk o ->
        confidence o < 0.7 ->
        d = override_decision now
        /\ intent_type (action d) = Observe
        /\ rationale d = "Risk exceeded confidence; opting to hold position.")
  /\ (forall recent,
        fetch_recent io memory server 6 = Ok recent ->
        in_range identity realities recent ->
        ~ (0.7 - 0.2 * memory_bias_of recent < decision_risk d
           /\ decision_confidence d < 0.7)
        /\ forall o act,
             directed = true ->
             first_max identity (memory_bias_of recent) realities o act ->
             0.7 - 0.2 * memory_bias_of recent < risk o ->
             confidence o < 0.7 ->
             d = override_decision now
             /\ intent_type (action d) = Observe
             /\ rationale d
                = "Risk exceeded confidence; opting to hold position.").
Proof.
  intros Hd.
  assert (P1 :
    (action d = fallback now /\ intent_type (action d) = Observe
     /\ (d = ambient_decision now \/ d = no_recommendation now
         \/ d = override_decision now))
    \/ exists recent o act,
         directed = true
         /\ fetch_recent io memory server 6 = Ok recent
         /\ o ∈ realities /\ recommended_action o = Some act
         /\ d = decision_of o act
         /\ ~ (0.7 - 0.2 * memory_bias_of recent < decision_risk d
               /\ decision_confidence d < 0.7)).
  { revert Hd. unfold deliberate. destruct directed; simpl.
    - destruct (fetch_recent io memory server 6) as [recent|e] eqn:Ef;
        [|discriminate].
      intros [= <-].
      destruct (arbitrate_cases now identity (memory_bias_of recent) realities)
        as [[_ ->] | (best & Hbest & [(_ & _ & ->) | (Hok & ->)])];
        [left; auto 10 | left; auto 10 |].
      right.
      destruct (select_spec identity (memory_bias_of recent) realities)
        as [[Hnone _] | (o & act & Ho & Hact & Hsel & _)]; [congruence|].
      exists recent, o, act. rewrite Hsel in Hbest. injection Hbest as <-.
      repeat split; auto.
    - intros [= <-]. left; auto 10. }
  assert (P2 : forall recent o act,
    directed = true ->
    fetch_recent io memory server 6 = Ok recent ->
    first_max identity (memory_bias_of recent) realities o act ->
    -1 < _score identity o (memory_bias_of recent) ->
    0.7 - 0.2 * memory_bias_of recent < risk o ->
    confidence o < 0.7 ->
    d = override_decision now
    /\ intent_type (action d) = Observe
    /\ rationale d = "Risk exceeded confidence; opting to hold position.").
  { intros recent o act -> Hf Hmax Hgt Hr Hc. revert Hd.
    unfold deliberate. simpl. rewrite Hf. intros [= <-].
    pose proof (select_first_max _ _ _ _ _ Hmax Hgt) as Hsel.
    destruct (arbitrate_cases now identity (memory_bias_of recent) realities)
      as [[Hnone _] | (best & Hbest & [(_ & _ & ->) | (Hok & _)])].
    - congruence.
    - auto.
    - rewrite Hsel in Hbest. injection Hbest as <-. destruct Hok.
      simpl. auto. }
  split; [exact P1|]. split; [exact P2|].
  intros recent Hf (Ha & Hc & Hq & Hout & Hrec).
  destruct (memory_bias_bounds recent Hrec) as [Hb1 Hb2].
  split.
  - destruct P1 as [(_ & _ & [-> | [-> | ->]])
                   | (recent' & o & act & _ & Hf' & _ & _ & _ & Hok)];
      try (simpl; intros [H _]; lra).
    rewrite Hf in Hf'. injection Hf' as <-. exact Hok.
  - intros o act Hdir Hmax Hr Hcf.
    apply (P2 recent o act Hdir Hf Hmax); [|assumption|assumption].
    destruct Hmax as (Hact & before & after & -> & _).
    rewrite Forall_forall in Hout.
    destruct (Hout o) as [? ?]; [apply elem_of_app; right; left|].
    apply scores_above_sentinel; assumption.
Qed.

(** C5 as stated fails here: with a memory bias of 4 the only candidate,
    of confidence 0.5 and risk 2, is the maximum-score candidate and
    violates the bound, but its score of -101/40 does not beat the initial
    [best_score] of -1, so that the call returns the no-recommendation
    decision and not the override; and that decision itself, of risk 0.1
    and confidence 0.3, lies over the bound of -0.1. *)
Lemma unselected_counterexample :
  fetch_recent None elated_store "global" 6
  = Ok [mkEntry 1 "global" "discord_message"
          (mkContext None None None false (Some "hello"))
          "social" "observe" "observe" "success" 4 1000]
  /\ (forall recent,
        fetch_recent None elated_store "global" 6 = Ok recent ->
        Qred (memory_bias_of recent) = 4
        /\ first_max neutral (memory_bias_of recent) [reckless] reckless
             reply_intent
        /\ Qred (_score neutral reckless (memory_bias_of recent)) = -101 # 40
        /\ 0.7 - 0.2 * memory_bias_of recent < risk reckless
        /\ confidence reckless < 0.7
        /\ 0.7 - 0.2 * memory_bias_of recent
           < decision_risk (no_recommendation 2000)
        /\ decision_confidence (no_recommendation 2000) < 0.7)
  /\ deliberate 2000 None neutral elated_store "global" [reckless] true
     = Ok (no_recommendation 2000)
  /\ rationale (no_recommendation 2000)
     = "No strong recommendation; choosing deliberate observation."
  /\ no_recommendation 2000 <> override_decision 2000.
Proof.
  assert (Hf : fetch_recent None elated_store "global" 6
               = Ok [mkEntry 1 "global" "discord_message"
                       (mkContext None None None false (Some "hello"))
                       "social" "observe" "observe" "success" 4 1000])
    by (vm_compute; reflexivity).
  split; [exact Hf|]. split.
  { intros recent Hr. rewrite Hf in Hr. injection Hr as <-.
    split_and!; try (vm_compute; reflexivity).
    split; [reflexivity|]. exists [], []. split; [reflexivity|].
    split; intros o' act' Ho'; inversion Ho'. }
  split; [vm_compute; reflexivity|]. split; [reflexivity|]. discriminate.
Qed.

(** *** The records [fetch_recent] returns *)

Lemma insert_desc_sorted {A : Type} (key : A -> Q) (x : A) (l : list A) :
  newest_first key l -> newest_first key (insert_desc key x l).
Proof.
  induction l as [|y l IH]; simpl; [auto|].
  intros [Hy Hl]. case_Qleb (key y) (key x); simpl.
  - split; [|auto]. constructor; [assumption|].
    eapply Forall_impl; [exact Hy|]. simpl. intros; lra.
  - split; [|auto].
    rewrite (MemoryFacts.insert_desc_Permutation key x l).
    constructor; [lra | assumption].
Qed.

Lemma order_desc_sorted {A : Type} (key : A -> Q) (l : list A) :
  newest_first key (order_desc key l).
Proof.
  unfold order_desc. induction l as [|x l IH]; simpl; [exact I|].
  apply insert_desc_sorted. assumption.
Qed.

Lemma newest_first_split {A : Type} (key : A -> Q) (l1 l2 : list A) :
  newest_first key (l1 ++ l2) ->
  forall x y, x ∈ l1 -> y ∈ l2 -> key y <= key x.
Proof.
  induction l1 as [|a l1 IH]; simpl; intros H x y Hx Hy; [inversion Hx|].
  destruct H as [Ha Hrest].
  apply elem_of_cons in Hx as [->|Hx]; [|eauto].
  rewrite Forall_forall in Ha. apply Ha. apply elem_of_app. right. assumption.
Qed.

(** On a store that is not disabled and a database that answers,
    [fetch_recent(server, 6)] returns the entries of the at most 6 newest
    rows of the server. *)
Lemma fetch_recent_newest (m : CausalMemory) server recent :
  disabled_due_to_size m = false ->
  fetch_recent None m server 6 = Ok recent ->
  exists newest older,
    newest ++ older ≡ₚ filter (fun r => row_server_id r = server) (memory (db m))
    /\ recent = entry_of_row server <$> newest
    /\ (length newest <= 6)%nat
    /\ (older <> [] -> length newest = 6%nat)
    /\ forall x y, x ∈ newest -> y ∈ older -> row_ts y <= row_ts x.
Proof.
  intros Hd. unfold fetch_recent. rewrite Hd. intros [= <-].
  set (rows := filter _ _). set (sorted := order_desc row_ts rows).
  exists (take 6 sorted), (drop 6 sorted). unfold sql_limit. simpl.
  rewrite take_drop. split; [apply MemoryFacts.order_desc_Permutation|].
  split; [reflexivity|]. split; [rewrite length_take; lia|]. split.
  - intros Hne. rewrite length_take.
    destruct (decide (6 <= length sorted)%nat); [lia|].
    rewrite drop_ge in Hne by lia. congruence.
  - apply newest_first_split. rewrite take_drop. apply order_desc_sorted.
Qed.

(** On a store that is not disabled, [fetch_recent(server, 6)] answers only
    when the connection does, and then with the entries of the 6 newest rows
    of the server, or of all of them when there are fewer. *)
Lemma fetch_recent_last_six io (m : CausalMemory) server recent :
  disabled_due_to_size m = false ->
  fetch_recent io m server 6 = Ok recent ->
  exists newest older,
    newest ++ older ≡ₚ filter (fun r => row_server_id r = server) (memory (db m))
    /\ recent = entry_of_row server <$> newest
    /\ entry_confidence_delta <$> recent = row_confidence_delta <$> newest
    /\ length newest = Nat.min 6 (length (newest ++ older))
    /\ forall x y, x ∈ newest -> y ∈ older -> row_ts y <= row_ts x.
Proof.
  intros Hd Hf.
  assert (Hio : io = None).
  { revert Hf. unfold fetch_recent. rewrite Hd. destruct io; [discriminate|auto]. }
  subst io.
  destruct (fetch_recent_newest m server recent Hd Hf)
    as (newest & older & Hperm & -> & Hlen & Hfull & Hord).
  exists newest, older. split_and!; auto.
  - rewrite <- list_fmap_compose. reflexivity.
  - destruct older as [|y older].
    + rewrite app_nil_r. symmetry. apply Nat.min_r. exact Hlen.
    + assert (H6 : length newest = 6%nat) by (apply Hfull; discriminate).
      rewrite length_app, H6. cbn [length]. lia.
Qed.

(** *** Selection *)

(** C6 (as amended): an undirected call returns the fixed low-confidence,
    low-risk [observe] decision at once.  In a directed call for which
    [fetch_recent] answers, the memory bias is the mean confidence delta
    over the last 6 records of the server, the newest ones by timestamp, or
    over all of them when there are fewer, and 0 when there is none;
    while the store is disabled by size no record is read and the bias is
    0.  The score is the stated product, and the candidate selected has the
    largest score among those that beat the initial [best_score] of -1: the
    call returns it or the override in its place, and returns the
    no-recommendation [observe] decision when no candidate scores above
    -1. *)
Theorem deliberate_selects now io identity (memory : CausalMemory) server
    (realities : list RealityOutput) :
  (deliberate now io identity memory server realities false
   = Ok (ambient_decision now)
   /\ intent_type (action (ambient_decision now)) = Observe
   /\ decision_confidence (ambient_decision now) = 0.35
   /\ decision_risk (ambient_decision now) = 0.05)
  /\ (disabled_due_to_size memory = true ->
      fetch_recent io memory server 6 = Ok [])
  /\ forall recent,
       fetch_recent io memory server 6 = Ok recent ->
       let mb := memory_bias_of recent in
       (disabled_due_to_size memory = false ->
        exists newest older,
          newest ++ older
          ≡ₚ filter (fun r => row_server_id r = server) (Memory.memory (db memory))
          /\ recent = entry_of_row server <$> newest
          /\ entry_confidence_delta <$> recent = row_confidence_delta <$> newest
          /\ length newest = Nat.min 6 (length (newest ++ older))
          /\ forall x y, x ∈ newest -> y ∈ older -> row_ts y <= row_ts x)
       /\ (length recent <= 6)%nat
       /\ (recent = [] -> mb = 0)
       /\ (recent <> [] ->
           mb * inject_Z (Z.of_nat (length recent)) == delta_sum recent)
       /\ (forall o,
             _score identity o mb
             = confidence o * (1 - risk o)
               * (1 + 0.2 * (assertiveness identity - caution identity)
                  + 0.1 * curiosity identity + mb))
       /\ (((forall o act, o ∈ realities -> recommended_action o = Some act ->
               _score identity o mb <= -1)
            /\ deliberate now io identity memory server realities true
               = Ok (no_recommendation now))
           \/ exists o act,
                o ∈ realities /\ recommended_action o = Some act
                /\ (select identity mb realities).1 = Some (decision_of o act)
                /\ -1 < _score identity o mb
                /\ (forall o' act', o' ∈ realities ->
                      recommended_action o' = Some act' ->
                      _score identity o' mb <= _score identity o mb)
                /\ (deliberate now io identity memory server realities true
                    = Ok (decision_of o act)
                    \/ deliberate now io identity memory server realities true
                       = Ok (override_decision now))).
Proof.
  split; [repeat split; reflexivity|]. split.
  { intros Hd. unfold fetch_recent. rewrite Hd. reflexivity. }
  intros recent Hf mb. split.
  { intros Hd. exact (fetch_recent_last_six io memory server recent Hd Hf). }
  split.
  { revert Hf. unfold fetch_recent. destruct (disabled_due_to_size memory).
    - intros [= <-]. simpl. lia.
    - destruct io; [discriminate|]. intros [= <-].
      rewrite length_fmap. unfold sql_limit. simpl. rewrite length_take. lia. }
  split; [intros ->; reflexivity|].
  split; [apply memory_bias_is_mean|].
  split; [reflexivity|].
  unfold deliberate. simpl. rewrite Hf. fold mb.
  destruct (select_spec identity mb realities)
    as [[Hnone Hall] | (o & act & Ho & Hact & Hsel & Hgt & Hmax)].
  - left. split; [assumption|]. unfold arbitrate. rewrite Hnone. reflexivity.
  - right. exists o, act. repeat split; auto.
    destruct (arbitrate_cases now identity mb realities)
      as [[Hnone _] | (best & Hbest & [(_ & _ & ->) | (_ & ->)])];
      [congruence | right; reflexivity | left; congruence].
Qed.

(** C6 as stated fails here: a candidate exists, and it is the one of
    maximal score, yet the call returns the no-recommendation fallback,
    because the score -39/20 of the candidate does not beat the initial
    [best_score] of -1.  And on a store disabled by size the bias is
    computed from no record at all, although the table holds five rows of
    the server. *)
Lemma sentinel_counterexample :
  recommended_action strong = Some reply_intent
  /\ fetch_recent None gloomy_store "global" 6
     = Ok [mkEntry 1 "global" "discord_message"
             (mkContext None None None false (Some "hello"))
             "social" "observe" "observe" "failure" (-3) 1000]
  /\ Qred (_score neutral strong (-3)) = -39 # 20
  /\ deliberate 2000 None neutral gloomy_store "global" [strong] true
     = Ok (no_recommendation 2000)
  /\ length (memory (db disabled_store)) = 5%nat
  /\ fetch_recent None disabled_store "global" 6 = Ok [].
Proof. vm_compute. repeat split; reflexivity. Qed.

Lemma risk_bound_witness :
  deliberate 2000 None neutral MemorySpec.store_of_five "global" [risky] true
  = Ok (override_decision 2000)
  /\ rationale (override_decision 2000)
     = "Risk exceeded confidence; opting to hold position.".
Proof.
  assert (H : deliberate 2000 None neutral MemorySpec.store_of_five "global"
                [risky] true = Ok (override_decision 2000))
    by (vm_compute; reflexivity).
  assert (Hf : fetch_recent None MemorySpec.store_of_five "global" 6
               = Ok five_entries) by (vm_compute; reflexivity).
  assert (Hm : first_max neutral (memory_bias_of five_entries) [risky] risky
                 reply_intent).
  { split; [reflexivity|]. exists [], []. split; [reflexivity|].
    split; intros o' act' Ho'; inversion Ho'. }
  assert (Hs : -1 < _score neutral risky (memory_bias_of five_entries))
    by (vm_compute; reflexivity).
  assert (Hr : 0.7 - 0.2 * memory_bias_of five_entries < risk risky)
    by (vm_compute; reflexivity).
  assert (Hc : confidence risky < 0.7) by (vm_compute; reflexivity).
  split; [exact H|].
  exact (proj2 (proj2 (proj1 (proj2
           (risk_bound 2000 None neutral MemorySpec.store_of_five "global"
              [risky] true (override_decision 2000) H))
           five_entries risky reply_intent eq_refl Hf Hm Hs Hr Hc))).
Defined.

(** X5: on values in range every candidate beats the initial [best_score],
    so a directed call for which [fetch_recent] answers returns the
    no-recommendation decision only when no output recommends an action, and
    otherwise selects a candidate of maximal score (returned as it is, or
    replaced by the override). *)
Theorem in_range_selection now io identity (memory : CausalMemory) server
    (realities : list RealityOutput) (recent : list MemoryEntry) :
  fetch_recent io memory server 6 = Ok recent ->
  in_range identity realities recent ->
  ((forall o, o ∈ realities -> recommended_action o = None)
   /\ deliberate now io identity memory server realities true
      = Ok (no_recommendation now))
  \/ exists o act,
       o ∈ realities /\ recommended_action o = Some act
       /\ (forall o' act', o' ∈ realities -> recommended_action o' = Some act' ->
             _score identity o' (memory_bias_of recent)
             <= _score identity o (memory_bias_of recent))
       /\ (deliberate now io identity memory server realities true
           = Ok (decision_of o act)
           \/ deliberate now io identity memory server realities true
              = Ok (override_decision now)).
Proof.
  intros Hf (Ha & Hc & Hq & Hout & Hrec).
  assert (Hgt : forall o, o ∈ realities ->
                  -1 < _score identity o (memory_bias_of recent)).
  { intros o Ho. rewrite Forall_forall in Hout. destruct (Hout o Ho) as [? ?].
    apply scores_above_sentinel; assumption. }
  unfold deliberate. simpl. rewrite Hf.
  destruct (select_spec identity (memory_bias_of recent) realities)
    as [[Hnone Hall] | (o & act & Ho & Hact & Hsel & _ & Hmax)].
  - left. split.
    + intros o Ho. destruct (recommended_action o) as [act|] eqn:E; [|reflexivity].
      specialize (Hall o act Ho E). specialize (Hgt o Ho). lra.
    + unfold arbitrate. rewrite Hnone. reflexivity.
  - right. exists o, act. split_and!; auto.
    destruct (arbitrate_cases now identity (memory_bias_of recent) realities)
      as [[Hnone _] | (best & Hbest & [(_ & _ & ->) | (_ & ->)])];
      [congruence | right; reflexivity | left; congruence].
Qed.

Lemma in_range_selection_witness :
  deliberate 2000 None neutral MemorySpec.store_of_five "global"
    [silent; calm; strong] true
  = Ok (decision_of strong reply_intent).
Proof.
  assert (Hf : fetch_recent None MemorySpec.store_of_five "global" 6
               = Ok five_entries) by (vm_compute; reflexivity).
  assert (Hr : in_range neutral [silent; calm; strong] five_entries).
  { unfold in_range, five_entries. simpl.
    split_and!; try lra; repeat constructor; simpl; lra. }
  destruct (in_range_selection 2000 None neutral MemorySpec.store_of_five
              "global" [silent; calm; strong] five_entries Hf Hr)
    as [[_ H] | (o & act & _ & _ & _ & _)].
  - vm_compute in H. discriminate H.
  - vm_compute. reflexivity.
Defined.

End GovernorFacts.

(** ** SessionStore *)

Module ConversationFacts.
Import Conversation ConversationSpec.

Lemma wf_new ttl : wf (new ttl).
Proof.
  split; simpl.
  - intros u g c r H. rewrite lookup_empty in H. discriminate.
  - intros g c r H. rewrite lookup_empty in H. discriminate.
  - intros r [s H]. rewrite lookup_empty in H. discriminate.
Qed.

Lemma expire_stale_store now st :
  (expire_stale now st).2
  = set_sessions (filter (fun kr => ref_expired st now kr.2 = false) (sessions st)) st.
Proof. reflexivity. Qed.

Lemma expire_stale_timeouts now st :
  Forall (fun e => e.2 = "timeout") (expire_stale now st).1.
Proof.
  unfold expire_stale. simpl. apply Forall_fmap, Forall_forall.
  intros kr _. reflexivity.
Qed.

Lemma wf_expire_stale now st : wf st -> wf (expire_stale now st).2.
Proof.
  intros [W1 W2 W3]. rewrite expire_stale_store. split; simpl; [|assumption..].
  intros u g c r H. apply map_lookup_filter_Some in H as [H _]. auto.
Qed.

Lemma wf_clear_expired_active now guild channel st :
  wf st -> wf (clear_expired_active now guild channel st).
Proof.
  intros W. pose proof W as [W1 W2 W3]. unfold clear_expired_active.
  destruct (active_by_channel st !! (guild, channel)) as [ra|] eqn:Ea; [|assumption].
  destruct (heap st !! ra) as [a|] eqn:Eh; [|assumption].
  destruct (expired now a); [|assumption].
  split; simpl; [| |assumption].
  - intros u g c r H. apply lookup_delete_Some in H as [Hne H].
    destruct (W1 _ _ _ _ H) as (Hact & s & Hs & Hu).
    split; [|eauto]. rewrite lookup_delete_ne; [assumption|].
    intros [= <- <-]. rewrite Ea in Hact. injection Hact as <-.
    rewrite Eh in Hs. injection Hs as <-. apply Hne. unfold _key. congruence.
  - intros g c r H. apply lookup_delete_Some in H as [_ H]. eauto.
Qed.


Lemma active_session_Some st guild channel r a :
  active_session st guild channel = Some (r, a)
  <-> active_by_channel st !! (guild, channel) = Some r /\ heap st !! r = Some a.
Proof.
  unfold active_session.
  destruct (active_by_channel st !! (guild, channel)) as [r'|]; simpl.
  - destruct (heap st !! r') as [a'|] eqn:E; simpl.
    + split; [intros [= <- <-]; auto | intros [[= <-] H]; congruence].
    + split; [discriminate | intros [[= <-] H]; congruence].
  - split; [discriminate | intros [H _]; discriminate].
Qed.

Lemma active_session_None st guild channel :
  wf st ->
  active_session st guild channel = None ->
  active_by_channel st !! (guild, channel) = None.
Proof.
  intros [_ W2 _]. unfold active_session.
  destruct (active_by_channel st !! (guild, channel)) as [r|] eqn:E; [|reflexivity].
  simpl. destruct (W2 _ _ _ E) as [a ->]. discriminate.
Qed.

Lemma wf_supersede author guild channel ended st :
  wf st -> wf (supersede author guild channel ended st).2.
Proof.
  intros W. pose proof W as [W1 W2 W3]. unfold supersede.
  destruct (active_session st guild channel) as [[ra a]|] eqn:Ea; [|assumption].
  apply active_session_Some in Ea as [Ea Eh].
  destruct (bool_decide (user_id a <> author)); [|assumption].
  split; simpl; [| |assumption].
  - intros u g c r H. apply lookup_delete_Some in H as [Hne H].
    destruct (W1 _ _ _ _ H) as (Hact & s & Hs & Hu).
    split; [|eauto]. rewrite lookup_delete_ne; [assumption|].
    intros [= <- <-]. rewrite Ea in Hact. injection Hact as <-.
    rewrite Eh in Hs. injection Hs as <-. apply Hne. unfold _key. congruence.
  - intros g c r H. apply lookup_delete_Some in H as [_ H]. eauto.
Qed.

(** What [supersede] leaves behind: the author's own key is untouched, and
    an active session of the channel, if one is left, is the author's. *)
Lemma supersede_post author guild channel ended st :
  wf st ->
  let st' := (supersede author guild channel ended st).2 in
  sessions st' !! _key author guild channel
  = sessions st !! _key author guild channel
  /\ heap st' = heap st /\ next_ref st' = next_ref st
  /\ ttl_seconds st' = ttl_seconds st
  /\ forall r a, active_session st' guild channel = Some (r, a) ->
       user_id a = author.
Proof.
  intros W st'. subst st'. unfold supersede.
  destruct (active_session st guild channel) as [[ra a]|] eqn:Ea.
  - destruct (bool_decide (user_id a <> author)) eqn:Eu; simpl.
    + apply bool_decide_eq_true in Eu. repeat split.
      * apply lookup_delete_ne. unfold _key. congruence.
      * intros r a'. unfold active_session. simpl.
        rewrite lookup_delete_eq. discriminate.
    + apply bool_decide_eq_false in Eu. repeat split.
      intros r a'. rewrite Ea. intros [= <- <-].
      destruct (decide (user_id a = author)); [assumption | contradiction].
  - simpl. repeat split. intros r a'. rewrite Ea. discriminate.
Qed.

Lemma wf_refresh now ttl st r a :
  wf st -> heap st !! r = Some a ->
  wf (set_heap (<[r := refresh now ttl a]> (heap st)) st).
Proof.
  intros [W1 W2 W3] Hr. split; simpl.
  - intros u g c r' H. destruct (W1 _ _ _ _ H) as (Hact & s & Hs & Hu).
    split; [assumption|]. destruct (decide (r = r')) as [->|Hne].
    + rewrite lookup_insert_eq. eexists. split; [reflexivity|].
      simpl. congruence.
    + rewrite lookup_insert_ne by assumption. eauto.
  - intros g c r' H. destruct (decide (r = r')) as [->|Hne].
    + rewrite lookup_insert_eq. eauto.
    + rewrite lookup_insert_ne by assumption. eauto.
  - intros r' [s H]. destruct (decide (r = r')) as [<-|Hne].
    + apply W3. eauto.
    + rewrite lookup_insert_ne in H by assumption. apply W3. eauto.
Qed.

(** The directed branch after [supersede]: the session returned is the
    author's, it is the active session of the channel and the only one that
    [sessions] holds for the channel. *)
Lemma engage_spec now author guild channel st :
  wf st ->
  (forall r a, active_session st guild channel = Some (r, a) ->
     user_id a = author) ->
  let res := engage now author guild channel
               (sessions st !! _key author guild channel) st in
  wf res.2
  /\ active_by_channel res.2 !! (guild, channel) = Some res.1
  /\ sessions res.2 !! _key author guild channel = Some res.1
  /\ (exists s, heap res.2 !! res.1 = Some s /\ user_id s = author
                /\ expires_at s = now + ttl_seconds st)
  /\ (forall u r, sessions res.2 !! (u, guild, channel) = Some r ->
        u = author /\ r = res.1)
  /\ (forall u, u <> author ->
        sessions res.2 !! (u, guild, channel) = sessions st !! (u, guild, channel))
  /\ (res.1 < next_ref res.2)%nat
  /\ (sessions st !! _key author guild channel = None -> res.1 = next_ref st).
Proof.
  intros W Hown. pose proof W as [W1 W2 W3].
  assert (F : forall u r, sessions st !! (u, guild, channel) = Some r -> u = author).
  { intros u r H. destruct (W1 _ _ _ _ H) as (Hact & s & Hs & Hu).
    rewrite <- Hu. apply (Hown r s). apply active_session_Some. auto. }
  (* the two ways the block ends *)
  assert (Hcreate :
    let r := next_ref st in
    let s := mkSession author channel guild now now true (now + ttl_seconds st) 1 in
    let st' := mkStore (ttl_seconds st) (<[r := s]> (heap st)) (S r)
                 (<[_key author guild channel := r]> (sessions st))
                 (active_by_channel st) in
    let st'' := set_active (<[(guild, channel) := r]> (active_by_channel st')) st' in
    wf st''
    /\ active_by_channel st'' !! (guild, channel) = Some r
    /\ sessions st'' !! _key author guild channel = Some r
    /\ (exists s0, heap st'' !! r = Some s0 /\ user_id s0 = author
                   /\ expires_at s0 = now + ttl_seconds st)
    /\ (forall u, u <> author ->
          sessions st'' !! (u, guild, channel) = sessions st !! (u, guild, channel))
    /\ (r < next_ref st'')%nat).
  { simpl. split; [split; simpl|].
    - intros u g c r H. apply lookup_insert_Some in H as [[[= <- <- <-] <-] | [Hne H]].
      + rewrite !lookup_insert_eq. split; [reflexivity|]. eauto.
      + destruct (W1 _ _ _ _ H) as (Hact & s & Hs & Hu).
        assert (r <> next_ref st).
        { assert (r < next_ref st)%nat by (apply W3; eauto). lia. }
        rewrite (lookup_insert_ne (heap st)) by congruence. split; [|eauto].
        rewrite lookup_insert_ne; [assumption|].
        intros [= <- <-]. apply Hne. unfold _key.
        rewrite (F _ _ H). reflexivity.
    - intros g c r H. apply lookup_insert_Some in H as [[_ <-] | [_ H]].
      + rewrite lookup_insert_eq. eauto.
      + destruct (decide (next_ref st = r)) as [<-|Hne].
        * rewrite lookup_insert_eq. eauto.
        * rewrite lookup_insert_ne by assumption. eauto.
    - intros r [s H]. destruct (decide (next_ref st = r)) as [<-|Hne]; [lia|].
      rewrite lookup_insert_ne in H by assumption.
      assert (r < next_ref st)%nat by (apply W3; eauto). lia.
    - rewrite !lookup_insert_eq. repeat split; eauto; try lia.
      intros u Hu. apply lookup_insert_ne. unfold _key. congruence. }
  cbv zeta in Hcreate.
  destruct Hcreate as (C1 & C2 & C3 & C4 & C5 & C6).
  assert (Hsingle : forall st' r',
    wf st' -> active_by_channel st' !! (guild, channel) = Some r' ->
    (exists s, heap st' !! r' = Some s /\ user_id s = author
               /\ expires_at s = now + ttl_seconds st) ->
    forall u r, sessions st' !! (u, guild, channel) = Some r ->
      u = author /\ r = r').
  { intros st' r' [W1' _ _] Hact (s & Hs & Hu & _) u r H.
    destruct (W1' _ _ _ _ H) as (Hact' & s' & Hs' & Hu').
    rewrite Hact in Hact'. injection Hact' as <-.
    rewrite Hs in Hs'. injection Hs' as <-. split; congruence. }
  unfold engage.
  destruct (sessions st !! _key author guild channel) as [r0|] eqn:Es; simpl.
  - destruct (W1 _ _ _ _ Es) as (Hact & s0 & Hs0 & Hu0).
    rewrite Hs0. simpl. destruct (expired now s0) eqn:Ex; simpl.
    + split_and!; eauto; try discriminate; eapply Hsingle; eauto.
    + pose proof (wf_refresh now (ttl_seconds st) st r0 s0 W Hs0) as [R1 R2 R3].
      assert (Hwf : wf (set_active (<[(guild, channel) := r0]> (active_by_channel st))
                          (set_heap (<[r0 := refresh now (ttl_seconds st) s0]> (heap st)) st))).
      { split; simpl.
        - intros u g c r H. destruct (R1 _ _ _ _ H) as (Ha & Hh). simpl in Ha, Hh.
          split; [|assumption].
          destruct (decide ((guild, channel) = (g, c))) as [[= <- <-]|Hne].
          + rewrite lookup_insert_eq. congruence.
          + rewrite lookup_insert_ne by assumption. assumption.
        - intros g c r H. apply lookup_insert_Some in H as [[_ <-] | [_ H]].
          + rewrite lookup_insert_eq. eauto.
          + apply (R2 g c). assumption.
        - assumption. }
      assert (Hobj : exists s, (<[r0 := refresh now (ttl_seconds st) s0]> (heap st))
                                 !! r0 = Some s
                               /\ user_id s = author
                               /\ expires_at s = now + ttl_seconds st).
      { rewrite lookup_insert_eq. eexists. split; [reflexivity|]. simpl. auto. }
      split_and!; simpl; auto; try discriminate;
        try apply lookup_insert_eq; try (apply W3; eauto).
      eapply (Hsingle _ r0 Hwf); simpl; [apply lookup_insert_eq | exact Hobj].
  - split_and!; eauto; try discriminate; eapply Hsingle; eauto.
Qed.

Lemma wf_route now clock stim st :
  wf st -> wf (route_stimulus now clock stim st).2.
Proof.
  intros W. unfold route_stimulus.
  pose proof (wf_expire_stale clock st W) as W0.
  destruct (expire_stale clock st) as [ended st0]. simpl in W0.
  destruct (negb _); [assumption|].
  destruct (author_id (context stim)) as [author|]; [|assumption].
  destruct (channel_id (context stim)) as [channel|]; [|assumption].
  set (guild := guild_of stim).
  pose proof (wf_clear_expired_active now guild channel st0 W0) as W1.
  set (st1 := clear_expired_active now guild channel st0) in *.
  destruct (detected_direct now st1 stim author guild channel).
  - pose proof (wf_supersede author guild channel ended st1 W1) as W2.
    destruct (supersede_post author guild channel ended st1 W1)
      as (Hkey & _ & _ & _ & Hown).
    destruct (supersede author guild channel ended st1) as [ended1 st2].
    simpl in *. rewrite <- Hkey.
    destruct (engage_spec now author guild channel st2 W2 Hown) as (W3 & _).
    destruct (engage now author guild channel _ st2) as [r st3]. assumption.
  - destruct (active_session st1 guild channel) as [[r a]|] eqn:Ea; [|assumption].
    destruct (bool_decide (user_id a = author)); [|assumption].
    apply active_session_Some in Ea as [_ Eh]. simpl.
    apply wf_refresh; assumption.
Qed.

Lemma wf_run events : forall st, wf st -> wf (run events st).
Proof.
  unfold run. induction events as [|e events IH]; intros st W; simpl; [assumption|].
  apply IH. destruct e as [now clock stim | now]; simpl.
  - apply wf_route. assumption.
  - apply wf_expire_stale. assumption.
Qed.

Lemma clear_expired_active_ttl now guild channel st :
  ttl_seconds (clear_expired_active now guild channel st) = ttl_seconds st.
Proof.
  unfold clear_expired_active.
  destruct (active_by_channel st !! (guild, channel)) as [r|]; [|reflexivity].
  destruct (heap st !! r) as [a|]; [|reflexivity].
  destruct (expired now a); reflexivity.
Qed.

Lemma supersede_ttl author guild channel ended st :
  ttl_seconds (supersede author guild channel ended st).2 = ttl_seconds st.
Proof.
  unfold supersede. destruct (active_session st guild channel) as [[r a]|];
    [|reflexivity].
  destruct (bool_decide _); reflexivity.
Qed.

Lemma engage_ttl now author guild channel session st :
  ttl_seconds (engage now author guild channel session st).2 = ttl_seconds st.
Proof.
  unfold engage.
  destruct (session ≫= _) as [[r s]|]; reflexivity.
Qed.

Lemma route_ttl now clock stim st :
  ttl_seconds (route_stimulus now clock stim st).2 = ttl_seconds st.
Proof.
  unfold route_stimulus.
  assert (H0 : ttl_seconds (expire_stale clock st).2 = ttl_seconds st) by reflexivity.
  destruct (expire_stale clock st) as [ended st0]. simpl in H0.
  destruct (negb _); [assumption|].
  destruct (author_id (context stim)) as [author|]; [|assumption].
  destruct (channel_id (context stim)) as [channel|]; [|assumption].
  pose proof (clear_expired_active_ttl now (guild_of stim) channel st0) as H1.
  set (st1 := clear_expired_active now (guild_of stim) channel st0) in *.
  destruct (detected_direct _ _ _ _ _ _).
  - pose proof (supersede_ttl author (guild_of stim) channel ended st1) as H2.
    destruct (supersede _ _ _ _ st1) as [ended1 st2]. simpl in H2.
    pose proof (engage_ttl now author (guild_of stim) channel
                  (sessions st1 !! _key author (guild_of stim) channel) st2) as H3.
    destruct (engage _ _ _ _ _ st2) as [r st3]. simpl in *. congruence.
  - destruct (active_session st1 (guild_of stim) channel) as [[r a]|];
      [|simpl; congruence].
    destruct (bool_decide _); simpl; congruence.
Qed.

Lemma run_ttl events : forall st, ttl_seconds (run events st) = ttl_seconds st.
Proof.
  unfold run. induction events as [|e events IH]; intros st; simpl; [reflexivity|].
  rewrite IH. destruct e; simpl; [apply route_ttl | reflexivity].
Qed.

Lemma wf_one_active st now g c r1 r2 :
  wf st -> is_active_for st now g c r1 -> is_active_for st now g c r2 -> r1 = r2.
Proof.
  intros [W1 _ _] [H1 _] [H2 _].
  assert (A1 : active_by_channel st !! (g, c) = Some r1).
  { destruct H1 as [H1 | [u H1]]; [assumption | apply (W1 _ _ _ _ H1)]. }
  assert (A2 : active_by_channel st !! (g, c) = Some r2).
  { destruct H2 as [H2 | [u H2]]; [assumption | apply (W1 _ _ _ _ H2)]. }
  congruence.
Qed.

Lemma superseded_after_timeouts ended r :
  Forall (fun e => e.2 = "timeout") ended ->
  superseded (ended ++ [(r, "superseded")]) = [(r, "superseded")].
Proof.
  intros H. unfold superseded. rewrite filter_app.
  rewrite (MemoryFacts.filter_none _ ended).
  - reflexivity.
  - eapply Forall_impl; [exact H|]. simpl. intros e -> [=].
Qed.

(** The directed branch on a store whose channel is held by another user. *)
Lemma route_supersedes now clock stim st author channel r a :
  wf st ->
  type stim = "discord_message" \/ type stim = "attachment" ->
  author_id (context stim) = Some author ->
  channel_id (context stim) = Some channel ->
  mentions_bot (context stim) = true
  \/ _looks_directed now author None
       (lower (strip (default "" (content (context stim))))) = true ->
  active_by_channel st !! (guild_of stim, channel) = Some r ->
  heap st !! r = Some a ->
  expired now a = false ->
  user_id a <> author ->
  let res := route_stimulus now clock stim st in
  routed_label res.1 = "directed"
  /\ superseded (routed_ended res.1) = [(r, "superseded")]
  /\ sessions res.2 !! (user_id a, guild_of stim, channel) = None
  /\ exists r' s',
       routed_session res.1 = Some r' /\ r' <> r
       /\ active_by_channel res.2 !! (guild_of stim, channel) = Some r'
       /\ sessions res.2 !! (author, guild_of stim, channel) = Some r'
       /\ heap res.2 !! r' = Some s' /\ user_id s' = author
       /\ expires_at s' = now + ttl_seconds st
       /\ forall u r'', sessions res.2 !! (u, guild_of stim, channel) = Some r'' ->
            u = author /\ r'' = r'.
Proof.
  intros W Hty Hau Hch Hdir Hact Hheap Hlive Huser res. subst res.
  unfold route_stimulus.
  pose proof (wf_expire_stale clock st W) as W0.
  pose proof (expire_stale_timeouts clock st) as Hto.
  pose proof (expire_stale_store clock st) as Hst0.
  destruct (expire_stale clock st) as [ended st0]. simpl in W0, Hto, Hst0.
  assert (Hnot : negb (bool_decide (type stim = "discord_message")
                       || bool_decide (type stim = "attachment")) = false).
  { destruct Hty as [-> | ->]; reflexivity. }
  rewrite Hnot, Hau, Hch. set (guild := guild_of stim) in *.
  assert (Hact0 : active_by_channel st0 !! (guild, channel) = Some r)
    by (subst st0; assumption).
  assert (Hheap0 : heap st0 !! r = Some a) by (subst st0; assumption).
  assert (Hst1 : clear_expired_active now guild channel st0 = st0).
  { unfold clear_expired_active. rewrite Hact0, Hheap0, Hlive. reflexivity. }
  rewrite Hst1.
  assert (Hnone : sessions st0 !! _key author guild channel = None).
  { destruct (sessions st0 !! _key author guild channel) as [r0|] eqn:E; [|reflexivity].
    destruct (wf_sessions st0 W0 _ _ _ _ E) as (Ha & s & Hs & Hu).
    rewrite Hact0 in Ha. injection Ha as <-. congruence. }
  assert (Hdet : detected_direct now st0 stim author guild channel = true).
  { unfold detected_direct. rewrite Hnone. simpl.
    destruct Hdir as [-> | ->]; [reflexivity | apply orb_true_r]. }
  rewrite Hdet.
  pose proof (wf_supersede author guild channel ended st0 W0) as W2.
  destruct (supersede_post author guild channel ended st0 W0)
    as (Hkey & Hh2 & Hn2 & Httl & Hown).
  assert (Hsup : supersede author guild channel ended st0
                 = (ended ++ [(r, "superseded")],
                    (supersede author guild channel ended st0).2)).
  { unfold supersede.
    rewrite (proj2 (active_session_Some st0 guild channel r a) (conj Hact0 Hheap0)).
    rewrite bool_decide_eq_true_2 by assumption. reflexivity. }
  rewrite Hsup. set (st2 := (supersede author guild channel ended st0).2) in *.
  rewrite <- Hkey.
  destruct (engage_spec now author guild channel st2 W2 Hown)
    as (W3 & E1 & E2 & (s' & E3 & E4 & E5) & E6 & E7 & E8 & E9).
  destruct (engage now author guild channel _ st2) as [r' st3]. simpl in *.
  split; [reflexivity|]. split; [apply superseded_after_timeouts; assumption|].
  split.
  { destruct (sessions st3 !! (user_id a, guild, channel)) as [x|] eqn:E; [|reflexivity].
    destruct (E6 _ _ E). contradiction. }
  exists r', s'. split_and!; auto.
  - rewrite E9 by (rewrite Hkey; exact Hnone). rewrite Hn2.
    assert (r < next_ref st0)%nat by (apply (wf_heap st0 W0); eauto). lia.
  - rewrite E5, Httl. subst st0. reflexivity.
Qed.

Example switch_on_new_mention :
  let first := route_stimulus 100 100 (mention_by 1) (new 30) in
  let second := route_stimulus 101 101 (mention_by 2) first.2 in
  (routed_label first.1, routed_session first.1, routed_ended first.1)
  = ("directed", Some 0%nat, [])
  /\ (routed_label second.1, routed_session second.1, routed_ended second.1)
     = ("directed", Some 1%nat, [(0%nat, "superseded")])
  /\ map_to_list (sessions second.2) = [((2%Z, "guild", 99%Z), 1%nat)]
  /\ map_to_list (active_by_channel second.2) = [(("guild", 99%Z), 1%nat)].
Proof. vm_compute. repeat split; reflexivity. Qed.

(** C8: every store reached from an empty one by routing stimuli and
    sweeping stale sessions is well formed, and a channel of it has at most
    one session that is not expired.  On every well-formed store, a
    directed stimulus of a user other than the one of the channel's active,
    unexpired session ends that session with exactly one [superseded]
    event, removes it from the store, and makes a session of the new user
    the active one and the only one of the channel; the store stays well
    formed, with at most one session per channel. *)
Theorem one_active_session :
  (forall ttl events,
     let st := run events (new ttl) in
     wf st /\ ttl_seconds st = ttl
     /\ (forall now g c r1 r2,
           is_active_for st now g c r1 -> is_active_for st now g c r2 -> r1 = r2)
     /\ (forall u1 u2 g c r1 r2,
           sessions st !! (u1, g, c) = Some r1 ->
           sessions st !! (u2, g, c) = Some r2 -> u1 = u2 /\ r1 = r2))
  /\ forall st now clock stim author channel r a,
       wf st ->
       (type stim = "discord_message" \/ type stim = "attachment") ->
       author_id (context stim) = Some author ->
       channel_id (context stim) = Some channel ->
       (mentions_bot (context stim) = true
        \/ _looks_directed now author None
             (lower (strip (default "" (content (context stim))))) = true) ->
       active_by_channel st !! (guild_of stim, channel) = Some r ->
       heap st !! r = Some a ->
       expired now a = false ->
       user_id a <> author ->
       let res := route_stimulus now clock stim st in
       routed_label res.1 = "directed"
       /\ superseded (routed_ended res.1) = [(r, "superseded")]
       /\ sessions res.2 !! (user_id a, guild_of stim, channel) = None
       /\ (exists r' s',
             routed_session res.1 = Some r' /\ r' <> r
             /\ active_by_channel res.2 !! (guild_of stim, channel) = Some r'
             /\ sessions res.2 !! (author, guild_of stim, channel) = Some r'
             /\ heap res.2 !! r' = Some s' /\ user_id s' = author
             /\ expires_at s' = now + ttl_seconds st
             /\ forall u r'', sessions res.2 !! (u, guild_of stim, channel) = Some r'' ->
                  u = author /\ r'' = r')
       /\ wf res.2
       /\ forall now' r1 r2,
            is_active_for res.2 now' (guild_of stim) channel r1 ->
            is_active_for res.2 now' (guild_of stim) channel r2 -> r1 = r2.
Proof.
  split.
  - intros ttl events st. assert (W : wf st) by (apply wf_run, wf_new).
    split; [exact W|]. split; [apply run_ttl|].
    split; [intros; eapply wf_one_active; eassumption|].
    intros u1 u2 g c r1 r2 H1 H2.
    destruct (wf_sessions st W _ _ _ _ H1) as (A1 & s1 & Hs1 & Hu1).
    destruct (wf_sessions st W _ _ _ _ H2) as (A2 & s2 & Hs2 & Hu2).
    rewrite A1 in A2. injection A2 as <-.
    rewrite Hs1 in Hs2. injection Hs2 as <-. split; congruence.
  - intros st now clock stim author channel r a W Hty Hau Hch Hdir Hact Hheap
      Hlive Huser res.
    destruct (route_supersedes now clock stim st author channel r a
                W Hty Hau Hch Hdir Hact Hheap Hlive Huser)
      as (H1 & H2 & H3 & H4).
    fold res in H1, H2, H3, H4.
    assert (W' : wf res.2) by (apply wf_route; assumption).
    split_and!; try assumption.
    intros now' r1 r2. apply wf_one_active. exact W'.
Qed.

(** The scenario of test_session_switches_on_new_mention. *)
Lemma one_active_session_witness :
  let first := route_stimulus 100 100 (mention_by 1) (new 30) in
  let second := route_stimulus 101 101 (mention_by 2) first.2 in
  routed_label second.1 = "directed"
  /\ superseded (routed_ended second.1) = [(0%nat, "superseded")]
  /\ sessions second.2 !! (1%Z, "guild", 99%Z) = None
  /\ exists r',
       routed_session second.1 = Some r' /\ r' <> 0%nat
       /\ active_by_channel second.2 !! ("guild", 99%Z) = Some r'
       /\ sessions second.2 !! (2%Z, "guild", 99%Z) = Some r'.
Proof.
  intros first second.
  assert (W : wf first.2).
  { exact (proj1 (proj1 one_active_session 30
                    [Route 100 100 (mention_by 1)])). }
  assert (H1 : type (mention_by 2) = "discord_message"
               \/ type (mention_by 2) = "attachment") by (left; reflexivity).
  assert (H2 : author_id (context (mention_by 2)) = Some 2%Z) by reflexivity.
  assert (H3 : channel_id (context (mention_by 2)) = Some 99%Z) by reflexivity.
  assert (H4 : mentions_bot (context (mention_by 2)) = true
               \/ _looks_directed 101 2 None
                    (lower (strip (default "" (content (context (mention_by 2))))))
                  = true) by (left; reflexivity).
  assert (H5 : active_by_channel first.2 !! (guild_of (mention_by 2), 99%Z)
               = Some 0%nat) by (vm_compute; reflexivity).
  assert (H6 : heap first.2 !! 0%nat
               = Some (mkSession 1 99 "guild" 100 100 true (100 + 30) 1))
    by (vm_compute; reflexivity).
  assert (H7 : expired 101 (mkSession 1 99 "guild" 100 100 true (100 + 30) 1)
               = false) by (vm_compute; reflexivity).
  assert (H8 : user_id (mkSession 1 99 "guild" 100 100 true (100 + 30) 1)
               <> 2%Z) by discriminate.
  destruct (proj2 one_active_session first.2 101 101 (mention_by 2) 2%Z 99%Z
              0%nat _ W H1 H2 H3 H4 H5 H6 H7 H8)
    as (G1 & G2 & G3 & (r' & s' & G4 & G5 & G6 & G7 & _) & _).
  split; [exact G1|]. split; [exact G2|]. split; [exact G3|].
  exists r'. split_and!; assumption.
Defined.

End ConversationFacts.

(** ** CognitionLoop *)

Module CognitionFacts.
Import Cognition CognitionSpec.

Lemma keeps_safe_refl c : keeps_safe c c.
Proof. unfold keeps_safe. auto. Qed.

Lemma keeps_safe_trans c1 c2 c3 :
  keeps_safe c1 c2 -> keeps_safe c2 c3 -> keeps_safe c1 c3.
Proof. unfold keeps_safe. auto. Qed.

Lemma record_overrun_safe reason c :
  safe_mode (_record_overrun reason c) = true
  /\ memory_allow_writes (_record_overrun reason c) = false
  /\ overrun_note (_record_overrun reason c) = reason.
Proof. repeat split. Qed.

Lemma watchdog_keeps cfg w c : keeps_safe c (_watchdog cfg w c).
Proof.
  unfold keeps_safe, _watchdog. destruct (overloaded cfg c w); auto.
Qed.

Lemma process_keeps r c c' : process r c = Some c' -> keeps_safe c c'.
Proof.
  unfold process, keeps_safe.
  destruct (late_before r); [discriminate|].
  destruct (late_after r); [discriminate|].
  destruct (interpretation r), (decide_raises r), (dispatch r),
    (reflect_raises r); intros [= <-]; simpl; auto.
Qed.

Lemma overrun_of_safe r c : safe_mode (overrun_of r c) = true.
Proof. unfold overrun_of. destruct (late_before r); reflexivity. Qed.

Lemma process_all_keeps runs : forall c, keeps_safe c (process_all runs c).
Proof.
  induction runs as [|r runs IH]; intros c; simpl; [apply keeps_safe_refl|].
  destruct (process r c) as [c'|] eqn:E.
  - eapply keeps_safe_trans; [eapply process_keeps; eassumption | apply IH].
  - intros _. apply overrun_of_safe.
Qed.

Lemma tick_keeps env c : keeps_safe c (_tick env c).
Proof.
  unfold _tick. destruct (decay_late env); [intros _; reflexivity|].
  assert (H : keeps_safe c (if backlog_on_empty_pull env
                            then _record_overrun "stimulus_queue_backlog" c
                            else c)).
  { destruct (backlog_on_empty_pull env); [intros _; reflexivity|].
    apply keeps_safe_refl. }
  destruct (ending env); (eapply keeps_safe_trans; [exact H|]);
    apply process_all_keeps.
Qed.

Lemma tick_round_keeps cfg env w c : keeps_safe c (tick_round cfg env w c).
Proof.
  unfold tick_round. destruct (ending env).
  - eapply keeps_safe_trans; [apply tick_keeps | apply watchdog_keeps].
  - intros _. apply watchdog_keeps. reflexivity.
  - intros _. reflexivity.
Qed.

Lemma health_round_keeps cfg h c : keeps_safe c (health_round cfg h c).
Proof.
  unfold keeps_safe, health_round. intros H. rewrite H. simpl. exact H.
Qed.

Lemma maintenance_round_keeps report c :
  keeps_safe c (maintenance_round report c).
Proof.
  unfold keeps_safe, maintenance_round.
  destruct report as [r|]; [destruct (Memory.disabled r)|]; auto.
Qed.

Lemma core_step_keeps cfg c step : keeps_safe c (core_step cfg c step).
Proof.
  destruct step; simpl;
    [apply tick_round_keeps | apply health_round_keeps
     | apply maintenance_round_keeps].
Qed.

(** C9: no step of the core clears the safe-mode flag, over one step or
    over any run of steps; each of the automatic triggers sets it (a tick
    that raises or times out, a failing reflection, a saturated action
    queue or a backlog behind an empty pull, an overloaded watchdog sample,
    a slow log read, a maintenance report of a disabled store); and among
    all the steps of the system, the only one that takes the flag from true
    to false is the exit command of an administrator, outside the core. *)
Theorem safe_mode_only_leaves_by_command (cfg : RuntimeConfig) :
  (forall c step, safe_mode c = true -> safe_mode (core_step cfg c step) = true)
  /\ (forall steps c,
        safe_mode c = true -> safe_mode (foldl (core_step cfg) c steps) = true)
  /\ (forall env w c reached,
        ending env = Crashes reached \/ ending env = TimesOut reached ->
        safe_mode (tick_round cfg env w c) = true
        /\ memory_allow_writes (tick_round cfg env w c) = false)
  /\ (forall r c c',
        process r c = Some c' ->
        (reflect_raises r = true /\ decide_raises r = false
         /\ dispatch r <> ActRaises) \/ (decide_raises r = false /\ dispatch r = QueueFull)
        \/ interpretation r = StillPending ->
        safe_mode c' = true)
  /\ (forall env c,
        decay_late env = true \/ backlog_on_empty_pull env = true ->
        safe_mode (_tick env c) = true)
  /\ (forall w c,
        overloaded cfg c w = true ->
        safe_mode (_watchdog cfg w c) = true
        /\ memory_allow_writes (_watchdog cfg w c) = false
        /\ tick_interval_override (_watchdog cfg w c)
           = Some (watchdog_safe_tick_interval cfg))
  /\ (forall r c,
        Memory.disabled r = true ->
        safe_mode (maintenance_round (Some r) c) = true)
  /\ (forall c s,
        safe_mode c = true -> safe_mode (system_step cfg c s) = false ->
        s = Outside (ExitSafeMode true))
  /\ (forall c, safe_mode (command_step c (ExitSafeMode true)) = false).
Proof.
  split_and!.
  - intros c step. apply core_step_keeps.
  - intros steps. induction steps as [|step steps IH]; intros c Hc; simpl;
      [assumption|]. apply IH. apply core_step_keeps. assumption.
  - intros env w c reached [H | H]; unfold tick_round; rewrite H.
    + split; reflexivity.
    + unfold _watchdog. destruct (overloaded _ _ _); split; reflexivity.
  - intros r c c'. unfold process.
    destruct (late_before r); [discriminate|].
    destruct (late_after r); [discriminate|].
    destruct (interpretation r), (decide_raises r), (dispatch r),
      (reflect_raises r); intros [= <-];
      intros [(? & ? & ?) | [(? & ?) | ?]]; simpl;
      try reflexivity; try discriminate; try contradiction.
  - intros env c [H | H]; unfold _tick.
    + rewrite H. reflexivity.
    + destruct (decay_late env); [reflexivity|]. rewrite H.
      destruct (ending env); apply process_all_keeps; reflexivity.
  - intros w c H. unfold _watchdog. rewrite H. repeat split.
  - intros r c H. unfold maintenance_round. rewrite H. reflexivity.
  - intros c [step | [[|] | [|]]] Hc; simpl.
    + rewrite (core_step_keeps cfg c step Hc). discriminate.
    + reflexivity.
    + rewrite Hc. discriminate.
    + discriminate.
    + rewrite Hc. discriminate.
  - intros c. simpl. destruct (safe_mode c) eqn:E; [reflexivity | assumption].
Qed.

End CognitionFacts.

(** ** Runs of breaker calls *)

Module SafetyRunFacts.
Import Safety SafetySpec SafetyRunSpec SafetyFacts.

Lemma drop_expired_length w now fs :
  (length (drop_expired w now fs) <= length fs)%nat.
Proof.
  induction fs as [|f fs IH]; simpl; [lia|].
  destruct (Qltb w (now - f)); simpl; lia.
Qed.

Lemma prune_length now clock b :
  (length (failures (_prune now clock b)) <= length (failures b))%nat.
Proof.
  unfold _prune. destruct (_ && _); simpl; [lia|]. apply drop_expired_length.
Qed.

Lemma apply_config b op :
  threshold (apply_op b op) = threshold b
  /\ window_seconds (apply_op b op) = window_seconds b
  /\ cooldown_seconds (apply_op b op) = cooldown_seconds b.
Proof.
  destruct op as [now clock|now clock r|now clock]; simpl.
  - destruct (allow_result now clock b) as [_ ->].
    destruct (prune_config now clock b) as (? & ? & ? & _). auto.
  - apply record_failure_config.
  - unfold record_success.
    destruct (prune_config now clock b) as (? & ? & ? & _).
    destruct (failures _); simpl; auto.
Qed.

(** What a call that is not a failure does: it moves nothing but the
    history, which it can only shorten, and the reason. *)
Lemma apply_quiet b op :
  is_failure op = false ->
  tripped_until (apply_op b op) = tripped_until b
  /\ (length (failures (apply_op b op)) <= length (failures b))%nat.
Proof.
  destruct op as [now clock|now clock r|now clock]; simpl; [|discriminate|]; intros _.
  - destruct (allow_result now clock b) as [_ ->].
    rewrite prune_tripped_until. split; [reflexivity | apply prune_length].
  - unfold record_success. pose proof (prune_length now clock b) as Hl.
    pose proof (prune_tripped_until now clock b) as Ht.
    destruct (failures (_prune now clock b)) eqn:E; simpl; rewrite ?E; simpl in *; split; auto; lia.
Qed.

Lemma record_failure_length now clock r b :
  (length (failures (record_failure now clock r b)) <= S (length (failures b)))%nat.
Proof.
  unfold record_failure.
  match goal with |- context [_prune ?n ?c ?x] =>
    pose proof (prune_length n c x) as Hl; set (b3 := _prune n c x) in * end.
  simpl in Hl. rewrite length_app in Hl. simpl in Hl.
  destruct (_ <=? _)%Z; simpl; lia.
Qed.

Lemma record_failure_untripped now clock r b :
  (Z.of_nat (S (length (failures b))) < threshold b)%Z ->
  tripped_until (record_failure now clock r b) = tripped_until b.
Proof.
  intros Hlt. unfold record_failure.
  match goal with |- context [_prune ?n ?c ?x] =>
    pose proof (prune_length n c x) as Hl;
    pose proof (prune_tripped_until n c x) as Ht;
    destruct (prune_config n c x) as (Hc & _);
    set (b3 := _prune n c x) in * end.
  simpl in Hl, Ht, Hc. rewrite length_app in Hl. simpl in Hl.
  destruct (_ <=? _)%Z eqn:E; simpl; [|assumption].
  apply Z.leb_le in E. lia.
Qed.

Lemma run_ops_below ops : forall b,
  (Z.of_nat (length (failures b) + length (failure_times ops)) < threshold b)%Z ->
  tripped_until (run_ops ops b) = tripped_until b.
Proof.
  unfold run_ops.
  induction ops as [|op ops IH]; intros b Hlt; simpl; [reflexivity|].
  destruct (apply_config b op) as (Hc & _).
  destruct op as [now clock|now clock r|now clock].
  - destruct (apply_quiet b (CallAllow now clock) eq_refl) as [Ht Hl].
    rewrite IH; [assumption|]. rewrite Hc. simpl in *. lia.
  - rewrite IH.
    + apply record_failure_untripped. simpl in Hlt. lia.
    + simpl apply_op. simpl apply_op in Hc. rewrite Hc.
      pose proof (record_failure_length now clock r b). simpl in Hlt.
      unfold failure_times in *. simpl in Hlt. lia.
  - destruct (apply_quiet b (CallSuccess now clock) eq_refl) as [Ht Hl].
    rewrite IH; [assumption|]. rewrite Hc. simpl in *. lia.
Qed.

(** X6: a breaker on which [record_failure] has been called fewer than
    [threshold] times since it was created is not tripped, whatever
    [allow] and [record_success] calls came in between and whatever the
    clock read at each call: [tripped_until] is still 0 and [allow]
    answers [True] at every time [now >= 0]. *)
Theorem no_trip_below_threshold (nm : string) (thr : Z) (win cool : Q)
    (ops : list Op) (now clock : Q) :
  (Z.of_nat (length (failure_times ops)) < thr)%Z ->
  0 <= now ->
  tripped_until (run_ops ops (new nm thr win cool)) = 0
  /\ (allow now clock (run_ops ops (new nm thr win cool))).1 = true.
Proof.
  intros Hlt Hnow.
  assert (Ht : tripped_until (run_ops ops (new nm thr win cool)) = 0).
  { rewrite run_ops_below; [reflexivity|]. simpl. assumption. }
  split; [exact Ht|].
  destruct (allow_result now clock (run_ops ops (new nm thr win cool))) as [-> _].
  rewrite Ht. apply negb_true_iff. apply Qltb_ge. assumption.
Qed.

Lemma spaced_tail w t l : spaced w (t :: l) -> spaced w l.
Proof. intros [_ H]. exact H. Qed.

(** The history after a pruning is a suffix of the one before, or empty. *)
Lemma prune_suffix now clock b :
  failures (_prune now clock b) = []
  \/ exists dropped, failures b = dropped ++ failures (_prune now clock b).
Proof.
  unfold _prune. destruct (_ && _); simpl; [left; reflexivity|].
  right. destruct (drop_expired_split (window_seconds b) now (failures b))
    as (d & Hd & _). exists d. assumption.
Qed.

Lemma prune_short now clock b t :
  failures b = [] \/ failures b = [t] ->
  failures (_prune now clock b) = [] \/ failures (_prune now clock b) = [t].
Proof.
  intros H. destruct (prune_suffix now clock b) as [He | (d & Hd)]; [auto|].
  destruct H as [H | H]; rewrite H in Hd.
  - left. symmetry in Hd. apply app_eq_nil in Hd. tauto.
  - destruct d as [|x d]; simpl in Hd; [right; congruence|].
    left. injection Hd as _ Hd. symmetry in Hd. apply app_eq_nil in Hd. tauto.
Qed.

Lemma apply_quiet_short b op t :
  is_failure op = false ->
  failures b = [] \/ failures b = [t] ->
  failures (apply_op b op) = [] \/ failures (apply_op b op) = [t].
Proof.
  destruct op as [now clock|now clock r|now clock]; simpl; [|discriminate|];
    intros _ H.
  - destruct (allow_result now clock b) as [_ ->]. apply prune_short. assumption.
  - unfold record_success. pose proof (prune_short now clock b t H) as Hp.
    destruct (failures (_prune now clock b)) eqn:E; simpl; rewrite ?E; auto.
Qed.

Lemma record_failure_spaced now clock r b :
  (2 <= threshold b)%Z ->
  failures b = [] \/ (exists t, failures b = [t] /\ window_seconds b < now - t) ->
  (failures (record_failure now clock r b) = []
   \/ failures (record_failure now clock r b) = [now])
  /\ tripped_until (record_failure now clock r b) = tripped_until b.
Proof.
  intros Hthr H. unfold record_failure.
  set (b2 := set_reason r (set_failures (failures b ++ [now]) b)).
  assert (Hs : failures (_prune now clock b2) = []
               \/ failures (_prune now clock b2) = [now]).
  { destruct H as [H | (t & H & Hgap)].
    - apply prune_short. right. unfold b2. simpl. rewrite H. reflexivity.
    - unfold _prune. destruct (_ && _); simpl; [auto|].
      rewrite H. simpl. apply Qltb_lt in Hgap. rewrite Hgap.
      destruct (Qltb (window_seconds b) (now - now)); [left | right]; reflexivity. }
  destruct (prune_config now clock b2) as (Hc & _).
  pose proof (prune_tripped_until now clock b2) as Ht.
  set (b3 := _prune now clock b2) in *. simpl in Hc, Ht.
  assert (Hlen : (length (failures b3) <= 1)%nat)
    by (destruct Hs as [-> | ->]; simpl; lia).
  destruct (_ <=? _)%Z eqn:E; simpl.
  - apply Z.leb_le in E. lia.
  - split; assumption.
Qed.

Lemma run_ops_spaced ops : forall b,
  (2 <= threshold b)%Z ->
  (failures b = [] /\ spaced (window_seconds b) (failure_times ops))
  \/ (exists t, failures b = [t]
                /\ spaced (window_seconds b) (t :: failure_times ops)) ->
  tripped_until (run_ops ops b) = tripped_until b.
Proof.
  unfold run_ops.
  induction ops as [|op ops IH]; intros b Hthr H; simpl; [reflexivity|].
  destruct (apply_config b op) as (Hc & Hw & _).
  destruct (is_failure op) eqn:Ef.
  - destruct op as [| now clock r |]; try discriminate. simpl apply_op in *.
    simpl failure_times in H.
    destruct (record_failure_spaced now clock r b Hthr) as [Hs Ht].
    { destruct H as [[H _] | (t & H & Hsp)]; [left; assumption|].
      right. exists t. split; [assumption|]. destruct Hsp as [Hgap _]. exact Hgap. }
    rewrite IH; [assumption | rewrite Hc; assumption |]. rewrite Hw.
    assert (Hsp : spaced (window_seconds b) (now :: failure_times ops)).
    { destruct H as [[_ H] | (t & _ & H)]; [assumption|].
      eapply spaced_tail. exact H. }
    destruct Hs as [Hs | Hs]; [left | right].
    + split; [assumption | eapply spaced_tail; exact Hsp].
    + exists now. split; assumption.
  - assert (Hft : failure_times (op :: ops) = failure_times ops).
    { destruct op; try discriminate; reflexivity. }
    rewrite Hft in H.
    destruct (apply_quiet b op Ef) as [Ht _].
    rewrite IH; [assumption | rewrite Hc; assumption |]. rewrite Hw.
    destruct H as [[H Hsp] | (t & H & Hsp)].
    + left. split; [|assumption].
      destruct (apply_quiet_short b op 0 Ef (or_introl H)) as [G | G]; [assumption|].
      exfalso. destruct op as [now clock| |now clock]; try discriminate; simpl in G.
      * destruct (allow_result now clock b) as [_ E]. rewrite E in G.
        pose proof (prune_length now clock b) as Hl. rewrite G, H in Hl. simpl in Hl. lia.
      * unfold record_success in G. pose proof (prune_length now clock b) as Hl.
        rewrite H in Hl. destruct (failures (_prune now clock b)) eqn:E; simpl in *;
          rewrite ?E in G; try discriminate. lia.
    + destruct (apply_quiet_short b op t Ef (or_intror H)) as [G | G].
      * left. split; [assumption | eapply spaced_tail; exact Hsp].
      * right. exists t. split; assumption.
Qed.

(** X7: with a threshold of at least 2, failures that each come more than
    [window_seconds] after the failure before never trip the breaker,
    however many they are, whatever else is called in between and whatever
    the clock readings of the prunings. *)
Theorem sparse_failures_never_trip (nm : string) (thr : Z) (win cool : Q)
    (ops : list Op) (now clock : Q) :
  (2 <= thr)%Z ->
  spaced win (failure_times ops) ->
  0 <= now ->
  tripped_until (run_ops ops (new nm thr win cool)) = 0
  /\ (allow now clock (run_ops ops (new nm thr win cool))).1 = true.
Proof.
  intros Hthr Hsp Hnow.
  assert (Ht : tripped_until (run_ops ops (new nm thr win cool)) = 0).
  { rewrite run_ops_spaced; [reflexivity | assumption |].
    left. split; [reflexivity | assumption]. }
  split; [exact Ht|].
  destruct (allow_result now clock (run_ops ops (new nm thr win cool))) as [-> _].
  rewrite Ht. apply negb_true_iff. apply Qltb_ge. assumption.
Qed.

Lemma no_trip_below_threshold_witness :
  tripped_until (run_ops two_failures (new "pm2_logs" 3 300 900)) = 0
  /\ (allow 600 600 (run_ops two_failures (new "pm2_logs" 3 300 900))).1 = true.
Proof.
  assert (H1 : (Z.of_nat (length (failure_times two_failures)) < 3)%Z)
    by (simpl; lia).
  assert (H2 : 0 <= 600) by lra.
  exact (no_trip_below_threshold "pm2_logs" 3 300 900 two_failures 600 600 H1 H2).
Defined.

Lemma sparse_failures_never_trip_witness :
  tripped_until (run_ops two_failures (new "pm2_logs" 2 300 900)) = 0
  /\ (allow 600 600 (run_ops two_failures (new "pm2_logs" 2 300 900))).1 = true.
Proof.
  assert (H1 : (2 <= 2)%Z) by lia.
  assert (H2 : spaced 300 (failure_times two_failures))
    by (simpl; split; [lra | split; exact I]).
  assert (H3 : 0 <= 600) by lra.
  exact (sparse_failures_never_trip "pm2_logs" 2 300 900 two_failures 600 600
           H1 H2 H3).
Defined.

End SafetyRunFacts.

(** ** The throttle of the watchdog *)

Module ThrottleFacts.
Import Cognition CognitionSpec ThrottleSpec.

Lemma keeps_throttle_refl cfg c : keeps_throttle cfg c c.
Proof. split; auto. Qed.

Lemma keeps_throttle_trans cfg c1 c2 c3 :
  keeps_throttle cfg c1 c2 -> keeps_throttle cfg c2 c3 -> keeps_throttle cfg c1 c3.
Proof.
  intros [H1 L1] [H2 L2]. split; [|auto].
  destruct H2 as [-> | ->]; auto.
Qed.

Lemma record_overrun_throttle cfg reason c :
  keeps_throttle cfg c (_record_overrun reason c).
Proof. split; simpl; auto. Qed.

Lemma watchdog_throttle cfg w c : keeps_throttle cfg c (_watchdog cfg w c).
Proof.
  unfold _watchdog. destruct (overloaded cfg c w); split; simpl; auto.
Qed.

Lemma process_throttle cfg r c c' :
  process r c = Some c' -> keeps_throttle cfg c c'.
Proof.
  unfold process.
  destruct (late_before r); [discriminate|].
  destruct (late_after r); [discriminate|].
  destruct (interpretation r), (decide_raises r), (dispatch r),
    (reflect_raises r); intros [= <-]; split; simpl; auto.
Qed.

Lemma overrun_of_throttle cfg r c : keeps_throttle cfg c (overrun_of r c).
Proof.
  unfold overrun_of. destruct (late_before r); [split; simpl; auto|].
  destruct (interpretation r); split; simpl; auto.
Qed.

Lemma process_all_throttle cfg runs : forall c,
  keeps_throttle cfg c (process_all runs c).
Proof.
  induction runs as [|r runs IH]; intros c; simpl; [apply keeps_throttle_refl|].
  destruct (process r c) as [c'|] eqn:E.
  - eapply keeps_throttle_trans; [eapply process_throttle; eassumption | apply IH].
  - apply overrun_of_throttle.
Qed.

Lemma tick_throttle cfg env c : keeps_throttle cfg c (_tick env c).
Proof.
  unfold _tick. destruct (decay_late env); [apply record_overrun_throttle|].
  assert (H : keeps_throttle cfg c
                (if backlog_on_empty_pull env
                 then _record_overrun "stimulus_queue_backlog" c else c)).
  { destruct (backlog_on_empty_pull env);
      [apply record_overrun_throttle | apply keeps_throttle_refl]. }
  destruct (ending env); (eapply keeps_throttle_trans; [exact H|]);
    apply process_all_throttle.
Qed.

Lemma system_step_throttle cfg c s : keeps_throttle cfg c (system_step cfg c s).
Proof.
  destruct s as [[env w | h | report] | [[|] | [|]]]; simpl.
  - unfold tick_round. pose proof (tick_throttle cfg env c) as Ht.
    destruct (ending env).
    + eapply keeps_throttle_trans; [exact Ht | apply watchdog_throttle].
    + eapply keeps_throttle_trans; [exact Ht|].
      eapply keeps_throttle_trans; [|apply watchdog_throttle].
      apply record_overrun_throttle.
    + eapply keeps_throttle_trans; [exact Ht|]. split; simpl; auto.
  - unfold health_round.
    destruct (safe_mode c || log_ingestion_disabled c
              || negb (pm2_ingestion_enabled cfg)); [apply keeps_throttle_refl|].
    destruct (Safety.allow _ _ _) as [ok b]. destruct ok; simpl.
    + destruct (scan h) as [msg | duration queue_full]; [split; simpl; auto|].
      destruct (Qltb _ _); [split; simpl; auto|].
      destruct queue_full; split; simpl; auto.
    + split; simpl; auto.
  - unfold maintenance_round. destruct report as [r|]; [|apply keeps_throttle_refl].
    destruct (Memory.disabled r); split; simpl; auto.
  - destruct (safe_mode c); split; simpl; auto.
  - apply keeps_throttle_refl.
  - split; simpl; auto.
  - apply keeps_throttle_refl.
Qed.

Lemma run_throttle cfg steps : forall c,
  keeps_throttle cfg c (foldl (system_step cfg) c steps).
Proof.
  induction steps as [|s steps IH]; intros c; simpl; [apply keeps_throttle_refl|].
  eapply keeps_throttle_trans; [apply system_step_throttle | apply IH].
Qed.

(** X8: the throttle of the watchdog is never lifted.  Once
    [tick_interval_override] holds the safe interval of the watchdog, every
    run of steps of the loop (stimuli, ticks, health and maintenance rounds,
    admin commands) leaves it there, and when that interval is not 0 the
    tick interval stays at least as long; once log ingestion is disabled it
    stays disabled. *)
Theorem throttle_never_lifted (cfg : RuntimeConfig) (steps : list Step) (c : Core) :
  (tick_interval_override c = Some (watchdog_safe_tick_interval cfg) ->
   tick_interval_override (foldl (system_step cfg) c steps)
   = Some (watchdog_safe_tick_interval cfg)
   /\ (~ watchdog_safe_tick_interval cfg == 0 ->
       watchdog_safe_tick_interval cfg
       <= _current_tick_interval cfg (foldl (system_step cfg) c steps)))
  /\ (log_ingestion_disabled c = true ->
      log_ingestion_disabled (foldl (system_step cfg) c steps) = true).
Proof.
  destruct (run_throttle cfg steps c) as [Ho Hl]. split; [|exact Hl].
  intros Hc.
  assert (Ho' : tick_interval_override (foldl (system_step cfg) c steps)
                = Some (watchdog_safe_tick_interval cfg))
    by (destruct Ho as [-> | ->]; auto).
  split; [exact Ho'|]. intros Hnz. unfold _current_tick_interval. rewrite Ho'.
  destruct (Qeq_bool _ 0) eqn:E; [apply Qeq_bool_iff in E; contradiction|].
  apply Q.le_max_r.
Qed.

End ThrottleFacts.

(** ** Topics *)

Module TopicFacts.
Import Memory MemorySpec HotTableSpec.

Lemma lower_ascii_letter c :
  is_ascii_letter (lower_ascii c) = true -> is_lower_letter (lower_ascii c) = true.
Proof.
  destruct c as [[] [] [] [] [] [] [] []]; vm_compute; congruence.
Qed.

Lemma all_chars_app P s1 s2 :
  all_chars P (s1 +:+ s2) = all_chars P s1 && all_chars P s2.
Proof.
  induction s1 as [|c s1 IH]; simpl; [reflexivity|].
  rewrite IH. apply andb_assoc.
Qed.

Lemma close_run_topic run :
  all_chars is_lower_letter run = true -> Forall is_topic (close_run run).
Proof.
  intros H. unfold close_run.
  destruct (4 <=? String.length run)%nat eqn:E; [|constructor].
  apply Nat.leb_le in E. constructor; [split; assumption | constructor].
Qed.

Lemma letter_runs_topics s : forall run,
  all_chars is_lower_letter run = true ->
  Forall is_topic (letter_runs (lower s) run).
Proof.
  induction s as [|c s IH]; intros run Hrun; simpl.
  - apply close_run_topic. assumption.
  - destruct (is_ascii_letter (lower_ascii c)) eqn:E.
    + apply IH. rewrite all_chars_app, Hrun. simpl.
      rewrite (lower_ascii_letter c E). reflexivity.
    + apply Forall_app. split; [apply close_run_topic; assumption|].
      apply IH. reflexivity.
Qed.

Lemma collect_topics_spec k (P : string -> Prop) tokens : forall seen,
  NoDup seen -> Forall P seen -> Forall P tokens ->
  (Z.of_nat (length seen) < Z.max 1 k)%Z ->
  NoDup (collect_topics k tokens seen)
  /\ Forall P (collect_topics k tokens seen)
  /\ (Z.of_nat (length (collect_topics k tokens seen)) <= Z.max 1 k)%Z.
Proof.
  induction tokens as [|t tokens IH]; intros seen Hnd Hs Ht Hlen; simpl.
  - split_and!; [assumption | assumption | lia].
  - inversion Ht as [|? ? Pt Ht']; subst.
    set (seen' := if bool_decide (t ∈ seen) then seen else seen ++ [t]).
    assert (Hnd' : NoDup seen').
    { unfold seen'. case_bool_decide; [assumption|].
      apply NoDup_app. split_and!; [assumption | | apply NoDup_singleton].
      intros x Hx Hx'. apply list_elem_of_singleton in Hx'. subst. contradiction. }
    assert (Hs' : Forall P seen').
    { unfold seen'. case_bool_decide; [assumption|].
      apply Forall_app. split; [assumption | constructor; [assumption | constructor]]. }
    assert (Hl' : (length seen' <= S (length seen))%nat).
    { unfold seen'. case_bool_decide; [lia|]. rewrite length_app. simpl. lia. }
    destruct (k <=? Z.of_nat (length seen'))%Z eqn:E.
    + split_and!; [assumption | assumption | lia].
    + apply Z.leb_gt in E. apply IH; [assumption | assumption | assumption | lia].
Qed.

Lemma collect_topics_first k t tokens :
  (k <= 1)%Z -> collect_topics k (t :: tokens) [] = [t].
Proof.
  intros Hk. simpl. change (Z.of_nat 1) with 1%Z.
  destruct (k <=? 1)%Z eqn:E; [reflexivity|].
  apply Z.leb_gt in E. lia.
Qed.

(** X9: [extract_topics] returns distinct words of at least four lowercase
    letters, and at most [max(1, max_topics)] of them: the bound is tested
    after a word has been added, so that with [max_topics <= 1], 0 and
    negative values included, the result is the first such word of the
    text, if there is one. *)
Theorem extract_topics_spec (text : string) (max_topics : Z) :
  NoDup (extract_topics text max_topics)
  /\ Forall is_topic (extract_topics text max_topics)
  /\ (Z.of_nat (length (extract_topics text max_topics)) <= Z.max 1 max_topics)%Z
  /\ ((max_topics <= 1)%Z ->
      extract_topics text max_topics
      = take 1 (letter_runs (lower text) EmptyString)).
Proof.
  unfold extract_topics.
  destruct (collect_topics_spec max_topics is_topic
              (letter_runs (lower text) EmptyString) [])
    as (H1 & H2 & H3);
    [constructor | constructor | apply letter_runs_topics; reflexivity | simpl; lia |].
  split_and!; [assumption | assumption | assumption |].
  intros Hk. destruct (letter_runs (lower text) EmptyString) as [|t tokens];
    [reflexivity|]. apply collect_topics_first. assumption.
Qed.

Example extract_topics_example :
  extract_topics "Vyxen, please RECAP the recap of last week!" 5
  = ["vyxen"; "please"; "recap"; "last"; "week"]
  /\ extract_topics "alpha beta gamma" 0 = ["alpha"].
Proof. split; vm_compute; reflexivity. Qed.

End TopicFacts.

(** ** The hot table: record and fetch_recent *)

Module HotTableFacts.
Import Safety Memory MemorySpec HotTableSpec MemoryFacts.

(** What a committed write did: the connection did not raise, the writer
    returned, and the database is what the writer made of it. *)
Lemma execute_write_committed clk io table writer (m m' : CausalMemory) t :
  _execute_write clk io table writer m = (m', Committed t) ->
  io = None
  /\ allow_writes m = true
  /\ writer (db m) = Ok (db m')
  /\ config m' = config m
  /\ disabled_due_to_size m' = disabled_due_to_size m
  /\ warm_archive m' = warm_archive m
  /\ _table_over_limit m table = false.
Proof.
  unfold _execute_write.
  destruct (allow_writes m); simpl; [|discriminate].
  destruct (allow _ _ _) as [ok br]. destruct ok; simpl; [|discriminate].
  destruct (_ <=? _)%Z; [discriminate|].
  destruct io as [e|].
  { destruct e as [msg| |msg]; simpl; try destruct (contains _ _); discriminate. }
  match goal with |- context [_table_over_limit ?x table] =>
    change (_table_over_limit x table) with (_table_over_limit m table) end.
  destruct (_table_over_limit m table); simpl; [discriminate|].
  destruct (writer (db m)) as [d|e]; simpl.
  - intros [= <- <-]. simpl. auto 10.
  - destruct e as [msg| |msg]; simpl; try destruct (contains _ _); discriminate.
Qed.

(** A write that is not committed leaves the database as it was. *)
Lemma execute_write_uncommitted clk io table writer (m : CausalMemory) :
  (forall t, (_execute_write clk io table writer m).2 <> Committed t) ->
  db (_execute_write clk io table writer m).1 = db m.
Proof.
  intros Hno. destruct (execute_write_stamps clk io table writer m)
    as (_ & [(_ & _ & Hd) | [(_ & _ & Hd & _) | (_ & Hc & _)]]); auto.
  exfalso. eapply Hno. exact Hc.
Qed.

Lemma NoDup_fmap_filter {A B : Type} (f : A -> B) (P : A -> Prop)
    `{!forall x, Decision (P x)} (l : list A) :
  NoDup (f <$> l) -> NoDup (f <$> filter P l).
Proof.
  intros Hnd. eapply sublist_NoDup; [exact Hnd|].
  apply fmap_sublist, sublist_filter.
Qed.

Lemma Forall_filter_keep {A : Type} (P Q : A -> Prop)
    `{!forall x, Decision (Q x)} (l : list A) :
  Forall P l -> Forall P (filter Q l).
Proof.
  rewrite !Forall_forall. intros Hl x Hx.
  apply list_elem_of_filter in Hx as [_ Hx]. auto.
Qed.

Lemma filter_ids_length {A : Type} `{EqDecision B} (f : A -> B) (ids : list B)
    (l : list A) :
  NoDup (f <$> l) ->
  (length (filter (fun x => f x ∈ ids) l) <= length ids)%nat.
Proof.
  intros Hnd. rewrite <- (length_fmap f).
  apply submseteq_length. apply NoDup_submseteq.
  - apply NoDup_fmap_filter. assumption.
  - intros y Hy. apply list_elem_of_fmap in Hy as (x & -> & Hx).
    apply list_elem_of_filter in Hx as [Hx _]. exact Hx.
Qed.

Lemma sql_limit_length {A : Type} (n : Z) (l : list A) :
  (0 <= n)%Z -> (Z.of_nat (length (sql_limit n l)) <= n)%Z.
Proof.
  intros Hn. unfold sql_limit. destruct (n <? 0)%Z eqn:E.
  - apply Z.ltb_lt in E. lia.
  - rewrite length_take. lia.
Qed.

(** What the writer of [record] leaves in the table. *)
Lemma record_writer_rows cfg clock server stimulus interp dec act res delta d d' :
  record_writer cfg clock server stimulus interp dec act res delta d = Ok d' ->
  let row := recorded_row d server stimulus interp dec act res delta in
  let rows1 := memory d ++ [row] in
  let keep := row_id <$> sql_limit (memory_retention_limit cfg)
                           (order_desc row_ts rows1) in
  memory d'
  = filter (fun r => Qltb (row_ts r) (clock - memory_retention_window_seconds cfg)
                     = false)
      (filter (fun r => row_id r ∈ keep) rows1)
  /\ next_id d' = (next_id d + 1)%Z
  /\ tables d' = tables d.
Proof. unfold record_writer. intros [= <-]. simpl. auto. Qed.

(** X10: what a committed [record] leaves in the [memory] table: at most
    [memory_retention_limit] rows, none older than the retention window at
    the time of the call, with ids that are still unique and below the next
    id; every row is a row that was there or the row of the call, and the
    other tables are not touched. *)
Theorem record_retention clk io clock server stimulus interp dec act res delta
    (m m' : CausalMemory) t :
  record clk io clock server stimulus interp dec act res delta m
  = (m', Committed t) ->
  ids_fresh (db m) ->
  (0 <= memory_retention_limit (config m))%Z ->
  ids_fresh (db m')
  /\ (Z.of_nat (length (memory (db m'))) <= memory_retention_limit (config m))%Z
  /\ Forall (fun r => clock - memory_retention_window_seconds (config m)
                      <= row_ts r) (memory (db m'))
  /\ (forall r, r ∈ memory (db m') ->
        r ∈ memory (db m)
        \/ r = recorded_row (db m) server stimulus interp dec act res delta)
  /\ tables (db m') = tables (db m).
Proof.
  unfold record. intros Hw [Hnd Hlt] Hlim.
  apply execute_write_committed in Hw as (_ & _ & Hw & _).
  apply record_writer_rows in Hw as (Hrows & Hnext & Htab).
  set (row := recorded_row (db m) server stimulus interp dec act res delta) in *.
  set (rows1 := memory (db m) ++ [row]) in *.
  assert (Hnd1 : NoDup (row_id <$> rows1)).
  { unfold rows1. rewrite fmap_app. apply NoDup_app. split_and!.
    - assumption.
    - intros x Hx Hx'. simpl in Hx'. apply list_elem_of_singleton in Hx'. subst x.
      apply list_elem_of_fmap in Hx as (r & Hr & Hin).
      rewrite Forall_forall in Hlt. specialize (Hlt r Hin). simpl in Hr. lia.
    - simpl. apply NoDup_singleton. }
  assert (Hlt1 : Forall (fun r => (row_id r < next_id (db m) + 1)%Z) rows1).
  { unfold rows1. apply Forall_app. split.
    - eapply Forall_impl; [exact Hlt|]. simpl. intros; lia.
    - constructor; [simpl; lia | constructor]. }
  split_and!.
  - split.
    + rewrite Hrows. apply NoDup_fmap_filter. apply NoDup_fmap_filter. assumption.
    + rewrite Hrows, Hnext. apply Forall_filter_keep, Forall_filter_keep. assumption.
  - rewrite Hrows. etransitivity; [apply inj_le; apply length_filter|].
    etransitivity; [apply inj_le; apply filter_ids_length; assumption|].
    rewrite length_fmap. apply sql_limit_length. assumption.
  - rewrite Hrows. apply Forall_forall. intros r Hr.
    apply list_elem_of_filter in Hr as [Hr _]. apply Qltb_ge in Hr. exact Hr.
  - intros r Hr. rewrite Hrows in Hr.
    apply list_elem_of_filter in Hr as [_ Hr].
    apply list_elem_of_filter in Hr as [_ Hr].
    unfold rows1 in Hr. apply elem_of_app in Hr as [Hr | Hr]; [left; assumption|].
    right. apply list_elem_of_singleton in Hr. assumption.
  - assumption.
Qed.


(** *** Round trip *)

Lemma order_desc_snoc_newest {A : Type} (key : A -> Q) (x : A) (l : list A) :
  Forall (fun y => key y < key x) l ->
  order_desc key (l ++ [x]) = x :: order_desc key l.
Proof.
  unfold order_desc. induction 1 as [|y l Hy _ IH]; simpl; [reflexivity|].
  rewrite IH. simpl. case_Qleb (key x) (key y); [lra | reflexivity].
Qed.

Lemma filter_snoc_keep {A : Type} (P : A -> Prop) `{!forall x, Decision (P x)}
    (l : list A) (x : A) :
  P x -> filter P (l ++ [x]) = filter P l ++ [x].
Proof.
  intros Hx. rewrite filter_app. f_equal.
  rewrite filter_cons_True by assumption. reflexivity.
Qed.

Lemma sql_limit_cons {A : Type} (n : Z) (x : A) (l : list A) :
  (1 <= n)%Z -> sql_limit n (x :: l) = x :: sql_limit (n - 1) l.
Proof.
  intros Hn. unfold sql_limit.
  destruct (n <? 0)%Z eqn:E; [apply Z.ltb_lt in E; lia|].
  destruct (n - 1 <? 0)%Z eqn:E'; [apply Z.ltb_lt in E'; lia|].
  replace (Z.to_nat n) with (S (Z.to_nat (n - 1))) by lia. reflexivity.
Qed.

(** X11: a committed [record] of a stimulus that is newer than every stored
    row and inside the retention window is what [fetch_recent(server, 1)]
    returns next: the entry carries the id the table gave it and the fields
    of the call. *)
Theorem record_then_fetch clk io clock server stimulus interp dec act res delta
    (m m' : CausalMemory) t :
  record clk io clock server stimulus interp dec act res delta m
  = (m', Committed t) ->
  disabled_due_to_size m = false ->
  (1 <= memory_retention_limit (config m))%Z ->
  clock - memory_retention_window_seconds (config m) <= timestamp stimulus ->
  Forall (fun r => row_ts r < timestamp stimulus) (memory (db m)) ->
  fetch_recent None m' server 1
  = Ok [mkEntry (next_id (db m)) server (type stimulus) (context stimulus)
          interp dec act res delta (timestamp stimulus)].
Proof.
  unfold record. intros Hw Hdis Hlim Hwin Hnew.
  apply execute_write_committed in Hw as (_ & _ & Hw & _ & Hd' & _).
  apply record_writer_rows in Hw as (Hrows & _ & _).
  set (row := recorded_row (db m) server stimulus interp dec act res delta) in *.
  assert (Hsort : order_desc row_ts (memory (db m) ++ [row])
                  = row :: order_desc row_ts (memory (db m)))
    by (apply order_desc_snoc_newest; exact Hnew).
  rewrite Hsort, sql_limit_cons in Hrows by assumption.
  rewrite filter_snoc_keep in Hrows by (simpl; left).
  rewrite filter_snoc_keep in Hrows by (apply Qltb_ge; exact Hwin).
  unfold fetch_recent. rewrite Hd', Hdis, Hrows.
  rewrite filter_snoc_keep by reflexivity.
  rewrite order_desc_snoc_newest.
  - rewrite sql_limit_cons by lia. unfold sql_limit. simpl. reflexivity.
  - apply Forall_filter_keep, Forall_filter_keep, Forall_filter_keep. exact Hnew.
Qed.

(** X12: on a store that is not disabled, [fetch_recent(server, limit)]
    returns rows of that server only, newest first, and no returned row is
    older than a row of the server that it leaves out; it returns
    [min(limit, number of rows of the server)] entries for a limit that is
    not negative, and all of them for a negative one. *)
Theorem fetch_recent_spec (m : CausalMemory) (server : string) (limit : Z) :
  disabled_due_to_size m = false ->
  exists newest older,
    fetch_recent None m server limit = Ok (entry_of_row server <$> newest)
    /\ newest ++ older
       ≡ₚ filter (fun r => row_server_id r = server) (memory (db m))
    /\ GovernorSpec.newest_first row_ts newest
    /\ (forall x y, x ∈ newest -> y ∈ older -> row_ts y <= row_ts x)
    /\ ((0 <= limit)%Z ->
        length newest = Nat.min (Z.to_nat limit) (length (newest ++ older)))
    /\ ((limit < 0)%Z -> older = []).
Proof.
  intros Hd. unfold fetch_recent. rewrite Hd.
  set (rows := filter _ _). set (sorted := order_desc row_ts rows).
  assert (Hs : GovernorSpec.newest_first row_ts sorted)
    by apply GovernorFacts.order_desc_sorted.
  unfold sql_limit. destruct (limit <? 0)%Z eqn:E.
  - apply Z.ltb_lt in E. exists sorted, []. rewrite app_nil_r. split_and!.
    + reflexivity.
    + apply order_desc_Permutation.
    + assumption.
    + intros x y _ Hy. inversion Hy.
    + intros; lia.
    + reflexivity.
  - apply Z.ltb_ge in E.
    exists (take (Z.to_nat limit) sorted), (drop (Z.to_nat limit) sorted).
    rewrite take_drop. split_and!.
    + reflexivity.
    + apply order_desc_Permutation.
    + clear -Hs. revert Hs. generalize (Z.to_nat limit) as n.
      induction sorted as [|x l IH]; intros [|n]; simpl; auto.
      intros [Hx Hl]. split; [|auto].
      rewrite Forall_forall in *. intros y Hy. apply Hx.
      rewrite <- (take_drop n l). apply elem_of_app. left. assumption.
    + apply GovernorFacts.newest_first_split. rewrite take_drop. assumption.
    + intros _. apply length_take.
    + intros; lia.
Qed.

Lemma record_retention_witness :
  (Z.of_nat (length (memory (db (test_record 1001 1 one_record)))) <= 6)%Z.
Proof.
  assert (H1 : record (steady_clock 1001) None 1001 "global" (test_stimulus 1)
                 "social" "observe" "observe" "success" 0.1 one_record
               = (test_record 1001 1 one_record, Committed 1001))
    by (vm_compute; reflexivity).
  assert (H2 : ids_fresh (db one_record)).
  { split; [apply (bool_decide_unpack _); vm_compute; reflexivity|].
    repeat constructor. }
  assert (H3 : (0 <= memory_retention_limit (config one_record))%Z)
    by (vm_compute; discriminate).
  exact (proj1 (proj2 (record_retention _ _ _ _ _ _ _ _ _ _ _ _ _ H1 H2 H3))).
Defined.

Lemma record_then_fetch_witness :
  fetch_recent None (test_record 1001 1 one_record) "global" 1
  = Ok [mkEntry 2 "global" "discord_message" (context (test_stimulus 1))
          "social" "observe" "observe" "success" 0.1 1001].
Proof.
  assert (H1 : record (steady_clock 1001) None 1001 "global" (test_stimulus 1)
                 "social" "observe" "observe" "success" 0.1 one_record
               = (test_record 1001 1 one_record, Committed 1001))
    by (vm_compute; reflexivity).
  assert (H2 : disabled_due_to_size one_record = false) by reflexivity.
  assert (H3 : (1 <= memory_retention_limit (config one_record))%Z)
    by (vm_compute; discriminate).
  assert (H4 : 1001 - memory_retention_window_seconds (config one_record)
               <= timestamp (test_stimulus 1)) by (vm_compute; discriminate).
  assert (H5 : Forall (fun r => row_ts r < timestamp (test_stimulus 1))
                 (memory (db one_record))).
  { repeat constructor. }
  exact (record_then_fetch _ _ _ _ _ _ _ _ _ _ _ _ _ H1 H2 H3 H4 H5).
Defined.

Lemma fetch_recent_spec_witness :
  exists newest,
    fetch_recent None store_of_five "global" 2
    = Ok (entry_of_row "global" <$> newest)
    /\ GovernorSpec.newest_first row_ts newest.
Proof.
  destruct (fetch_recent_spec store_of_five "global" 2 eq_refl)
    as (newest & older & H1 & _ & H3 & _).
  exists newest. split; assumption.
Defined.

End HotTableFacts.

(** ** Rotation into the warm archive *)

Module RotationFacts.
Import Safety Memory MemorySpec HotTableSpec MemoryFacts.

Lemma insert_asc_sorted {A : Type} (key : A -> Q) (x : A) (l : list A) :
  oldest_first key l -> oldest_first key (insert_asc key x l).
Proof.
  induction l as [|y l IH]; simpl; [auto|].
  intros [Hy Hl]. case_Qleb (key x) (key y); simpl.
  - split; [|auto]. constructor; [assumption|].
    eapply Forall_impl; [exact Hy|]. simpl. intros; lra.
  - split; [|auto].
    rewrite (insert_asc_Permutation key x l).
    constructor; [lra | assumption].
Qed.

Lemma order_asc_sorted {A : Type} (key : A -> Q) (l : list A) :
  oldest_first key (order_asc key l).
Proof.
  unfold order_asc. induction l as [|x l IH]; simpl; [exact I|].
  apply insert_asc_sorted. assumption.
Qed.

Lemma oldest_first_split {A : Type} (key : A -> Q) (l1 l2 : list A) :
  oldest_first key (l1 ++ l2) ->
  forall x y, x ∈ l1 -> y ∈ l2 -> key x <= key y.
Proof.
  induction l1 as [|a l1 IH]; simpl; intros H x y Hx Hy; [inversion Hx|].
  destruct H as [Ha Hrest].
  apply elem_of_cons in Hx as [->|Hx]; [|eauto].
  rewrite Forall_forall in Ha. apply Ha. apply elem_of_app. right. assumption.
Qed.

Lemma filter_all {A : Type} (P : A -> Prop) `{!forall x, Decision (P x)}
    (l : list A) :
  Forall P l -> filter P l = l.
Proof.
  induction 1 as [|x l Hx _ IH]; [reflexivity|].
  rewrite filter_cons_True by assumption. congruence.
Qed.

(** With unique ids, deleting the ids of the first [k] rows of an ordering
    leaves exactly the other rows. *)
Lemma delete_ids_split (k : nat) (rows sorted : list MemRow) :
  sorted ≡ₚ rows ->
  NoDup (row_id <$> rows) ->
  delete_ids (row_id <$> take k sorted) rows ≡ₚ drop k sorted.
Proof.
  intros Hperm Hnd. unfold delete_ids.
  set (P := fun r : MemRow => row_id r ∉ row_id <$> take k sorted).
  rewrite <- (filter_Permutation P _ _ Hperm).
  rewrite <- (take_drop k sorted) at 1. rewrite filter_app.
  rewrite (filter_none P (take k sorted)).
  - simpl. rewrite filter_all; [reflexivity|].
    assert (Hnd' : NoDup (row_id <$> take k sorted ++ drop k sorted)).
    { rewrite take_drop. rewrite Hperm. assumption. }
    rewrite fmap_app in Hnd'. apply NoDup_app in Hnd' as (_ & Hdisj & _).
    apply Forall_forall. intros r Hr Hin. apply (Hdisj (row_id r) Hin).
    apply list_elem_of_fmap. exists r. split; [reflexivity | assumption].
  - apply Forall_forall. intros r Hr HP. apply HP.
    apply list_elem_of_fmap. exists r. split; [reflexivity | assumption].
Qed.

(** X13: a rotation over the cap moves exactly
    [min(hot_rotation_chunk, total - hot_memory_row_cap)] rows, the oldest
    ones, out of the [memory] table and leaves the others as they are.  The
    rows are deleted whether or not the archive could be written: when the
    append fails the archive is unchanged and the moved rows are lost. *)
Theorem rotation_moves_oldest (archive_ok : bool) (clock : Q) (m : CausalMemory) :
  allow_writes m = true ->
  NoDup (row_id <$> memory (db m)) ->
  (0 <= hot_rotation_chunk (config m))%Z ->
  (0 <= hot_memory_row_cap (config m))%Z ->
  (hot_memory_row_cap (config m) < Z.of_nat (length (memory (db m))))%Z ->
  let to_move := Z.min (hot_rotation_chunk (config m))
                   (Z.of_nat (length (memory (db m)))
                    - hot_memory_row_cap (config m)) in
  let moved := take (Z.to_nat to_move) (order_asc row_ts (memory (db m))) in
  let m' := (_rotate_old_records None archive_ok clock m).1 in
  (_rotate_old_records None archive_ok clock m).2 = to_move
  /\ Z.of_nat (length moved) = to_move
  /\ memory (db m') ++ moved ≡ₚ memory (db m)
  /\ (forall x y, x ∈ moved -> y ∈ memory (db m') -> row_ts x <= row_ts y)
  /\ warm_archive m'
     = (if archive_ok then warm_archive m ++ _summarize_rows moved
        else warm_archive m)
  /\ last_rotation_ts m' = Some clock.
Proof.
  intros Hw Hnd Hchunk Hcap0 Hcap to_move moved m'.
  assert (Hm : (0 <= to_move <= Z.of_nat (length (memory (db m))))%Z)
    by (unfold to_move; lia).
  assert (Hlen : Z.of_nat (length moved) = to_move).
  { unfold moved. rewrite length_take.
    rewrite (Permutation_length (order_asc_Permutation row_ts _)). lia. }
  assert (Hrot : _rotate_old_records None archive_ok clock m
                 = (set_last_rotation_ts (Some clock)
                      (set_db (mkDb (delete_ids (row_id <$> moved) (memory (db m)))
                                 (next_id (db m)) (tables (db m)))
                         (_append_warm_archive archive_ok (_summarize_rows moved) m)),
                    Z.of_nat (length moved))).
  { unfold _rotate_old_records. rewrite Hw. simpl.
    destruct (_ <=? _)%Z eqn:E; [apply Z.leb_le in E; lia|].
    fold to_move. unfold sql_limit.
    destruct (to_move <? 0)%Z eqn:E'; [apply Z.ltb_lt in E'; lia|].
    fold moved.
    assert (Hf : forall x, db (_append_warm_archive archive_ok x m) = db m).
    { intros x. unfold _append_warm_archive. destruct x, archive_ok; reflexivity. }
    rewrite Hf. reflexivity. }
  unfold m'. rewrite Hrot. simpl.
  assert (Hrest : delete_ids (row_id <$> moved) (memory (db m))
                  ≡ₚ drop (Z.to_nat to_move) (order_asc row_ts (memory (db m)))).
  { apply delete_ids_split; [apply order_asc_Permutation | assumption]. }
  split_and!.
  - assumption.
  - assumption.
  - rewrite Hrest. unfold moved. rewrite Permutation_app_comm, take_drop.
    apply order_asc_Permutation.
  - intros x y Hx Hy. rewrite Hrest in Hy.
    eapply (oldest_first_split row_ts); [|exact Hx | exact Hy].
    unfold moved. rewrite take_drop. apply order_asc_sorted.
  - unfold _append_warm_archive. destruct (_summarize_rows moved) eqn:E.
    + destruct archive_ok; [rewrite app_nil_r|]; reflexivity.
    + destruct archive_ok; reflexivity.
  - reflexivity.
Qed.

Lemma rotation_moves_oldest_witness :
  (_rotate_old_records None false 1010 store_of_five).2 = 2%Z
  /\ warm_archive (_rotate_old_records None false 1010 store_of_five).1
     = warm_archive store_of_five.
Proof.
  assert (H1 : allow_writes store_of_five = true) by reflexivity.
  assert (H2 : NoDup (row_id <$> memory (db store_of_five)))
    by (apply (bool_decide_unpack _); vm_compute; reflexivity).
  assert (H3 : (0 <= hot_rotation_chunk (config store_of_five))%Z)
    by (vm_compute; discriminate).
  assert (H4 : (0 <= hot_memory_row_cap (config store_of_five))%Z)
    by (vm_compute; discriminate).
  assert (H5 : (hot_memory_row_cap (config store_of_five)
                < Z.of_nat (length (memory (db store_of_five))))%Z)
    by (vm_compute; reflexivity).
  destruct (rotation_moves_oldest false 1010 store_of_five H1 H2 H3 H4 H5)
    as (G1 & _ & _ & _ & G5 & _).
  split; [exact G1 | exact G5].
Defined.

End RotationFacts.

Module SummaryFacts.
Import Safety Memory MemorySpec HotTableSpec MemoryFacts.

Lemma count_type_count t t' counts :
  count_of t' (count_type t counts)
  = (count_of t' counts + (if decide (t = t') then 1 else 0))%Z.
Proof.
  induction counts as [|[k n] counts IH]; simpl.
  - destruct (decide (t = t')); reflexivity.
  - destruct (decide (k = t)) as [->|Hkt]; simpl.
    + destruct (decide (t = t')); [reflexivity | lia].
    + destruct (decide (k = t')) as [->|Hkt'].
      * destruct (decide (t = t')); [congruence | lia].
      * apply IH.
Qed.

Lemma count_type_keys t counts :
  (count_type t counts).*1
  = if bool_decide (t ∈ counts.*1) then counts.*1 else counts.*1 ++ [t].
Proof.
  induction counts as [|[k n] counts IH].
  - reflexivity.
  - cbn [count_type]. destruct (decide (k = t)) as [->|Hkt]; rewrite !fmap_cons; cbn [fst].
    + rewrite bool_decide_eq_true_2 by left. reflexivity.
    + rewrite IH. case_bool_decide as H1; case_bool_decide as H2; try reflexivity.
      * exfalso. apply H2. right. assumption.
      * exfalso. apply elem_of_cons in H2 as [-> | H2]; [congruence | contradiction].
Qed.

Lemma count_type_NoDup t counts :
  NoDup counts.*1 -> NoDup (count_type t counts).*1.
Proof.
  intros Hnd. rewrite count_type_keys. case_bool_decide as H; [assumption|].
  apply NoDup_app. split_and!; [assumption | | apply NoDup_singleton].
  intros x Hx Hx'. apply list_elem_of_singleton in Hx'. subst. contradiction.
Qed.

Lemma count_of_elem t n counts :
  NoDup counts.*1 ->
  (t, n) ∈ counts <-> t ∈ counts.*1 /\ count_of t counts = n.
Proof.
  induction counts as [|[k c] counts IH]; simpl; intros Hnd.
  - split; [intros H; inversion H | intros [H _]; inversion H].
  - apply NoDup_cons in Hnd as [Hk Hnd]. specialize (IH Hnd).
    destruct (decide (k = t)) as [->|Hkt].
    + split.
      * intros H. apply elem_of_cons in H as [[= ->] | H];
          [split; [left | reflexivity]|].
        exfalso. apply Hk. apply list_elem_of_fmap.
        exists (t, n). split; [reflexivity | assumption].
      * intros [_ ->]. left.
    + rewrite !elem_of_cons, IH. split.
      * intros [[= -> ->] | H]; [congruence | tauto].
      * intros [[-> | H] Hc]; [congruence | tauto].
Qed.

Lemma rows_of_type_snoc t rows r :
  rows_of_type t (rows ++ [r])
  = (rows_of_type t rows + (if decide (row_stimulus_type r = t) then 1 else 0))%Z.
Proof.
  unfold rows_of_type. rewrite filter_app, length_app.
  destruct (decide (row_stimulus_type r = t)) as [E|E].
  - rewrite filter_cons_True by exact E. simpl. lia.
  - rewrite filter_cons_False by exact E. simpl. lia.
Qed.

Lemma counter_spec (rows : list MemRow) :
  let counts := foldl (fun c x => count_type (row_stimulus_type x) c) [] rows in
  NoDup counts.*1
  /\ (forall t, count_of t counts = rows_of_type t rows)
  /\ (forall t, t ∈ counts.*1 <-> (0 < rows_of_type t rows)%Z).
Proof.
  induction rows as [|r rows IH] using rev_ind; simpl.
  - split_and!; [constructor | reflexivity |].
    intros t. split; [intros H; inversion H | unfold rows_of_type; simpl; lia].
  - rewrite foldl_app. simpl. destruct IH as (Hnd & Hc & Hk).
    set (counts := foldl _ [] rows) in *. split_and!.
    + apply count_type_NoDup. assumption.
    + intros t. rewrite count_type_count, Hc, rows_of_type_snoc. reflexivity.
    + intros t. rewrite count_type_keys, rows_of_type_snoc.
      pose proof (Hk t) as Hkt.
      assert (H0 : (0 <= rows_of_type t rows)%Z) by (unfold rows_of_type; lia).
      case_bool_decide as Hin; destruct (decide (row_stimulus_type r = t)) as [E|E].
      * subst t. split; [lia | tauto].
      * rewrite Hkt. split; lia.
      * subst t. split; [lia|]. intros _. apply elem_of_app. right. left.
      * rewrite elem_of_app, Hkt. split; [|lia].
        intros [H | H]; [lia|]. apply list_elem_of_singleton in H. congruence.
Qed.

Lemma fold_min_bound (x : Q) (l : list Q) :
  Forall (fun y => foldr Qmin x l <= y) (x :: l).
Proof.
  induction l as [|z l IH]; simpl.
  - constructor; [lra | constructor].
  - pose proof (Q.le_min_l z (foldr Qmin x l)).
    pose proof (Q.le_min_r z (foldr Qmin x l)).
    inversion IH as [|? ? Hx Hl]; subst.
    constructor; [lra|]. constructor; [assumption|].
    eapply Forall_impl; [exact Hl|]. simpl. intros; lra.
Qed.

Lemma fold_max_bound (x : Q) (l : list Q) :
  Forall (fun y => y <= foldr Qmax x l) (x :: l).
Proof.
  induction l as [|z l IH]; simpl.
  - constructor; [lra | constructor].
  - pose proof (Q.le_max_l z (foldr Qmax x l)).
    pose proof (Q.le_max_r z (foldr Qmax x l)).
    inversion IH as [|? ? Hx Hl]; subst.
    constructor; [lra|]. constructor; [assumption|].
    eapply Forall_impl; [exact Hl|]. simpl. intros; lra.
Qed.

Lemma fold_min_attained (x : Q) (l : list Q) :
  Exists (fun y => y == foldr Qmin x l) (x :: l).
Proof.
  induction l as [|z l IH]; simpl.
  - left. reflexivity.
  - destruct (Q.min_spec z (foldr Qmin x l)) as [[_ E] | [_ E]].
    + right. left. symmetry. exact E.
    + apply Exists_cons in IH as [H | H].
      * left. rewrite E. exact H.
      * right. right. eapply Exists_impl; [exact H|]. simpl.
        intros y Hy. rewrite E. exact Hy.
Qed.

Lemma fold_max_attained (x : Q) (l : list Q) :
  Exists (fun y => y == foldr Qmax x l) (x :: l).
Proof.
  induction l as [|z l IH]; simpl.
  - left. reflexivity.
  - destruct (Q.max_spec z (foldr Qmax x l)) as [[_ E] | [_ E]].
    + apply Exists_cons in IH as [H | H].
      * left. rewrite E. exact H.
      * right. right. eapply Exists_impl; [exact H|]. simpl.
        intros y Hy. rewrite E. exact Hy.
    + right. left. symmetry. exact E.
Qed.

(** X14: the archive lines of a non-empty batch are one summary per row, in
    order, and then one aggregate line: it counts every stimulus type of
    the batch once, with the number of its rows, and its [ts_min] and
    [ts_max] are the least and the greatest timestamp of the batch. *)
Theorem summarize_rows_aggregate (rows : list MemRow) :
  rows <> [] ->
  exists counts lo hi,
    _summarize_rows rows = (row_summary <$> rows) ++ [Aggregate counts lo hi]
    /\ NoDup counts.*1
    /\ (forall t n, (t, n) ∈ counts
                    <-> n = rows_of_type t rows /\ (0 < n)%Z)
    /\ Forall (fun r => lo <= row_ts r /\ row_ts r <= hi) rows
    /\ Exists (fun r => row_ts r == lo) rows
    /\ Exists (fun r => row_ts r == hi) rows.
Proof.
  intros Hne. destruct rows as [|r rest]; [congruence|].
  destruct (counter_spec (r :: rest)) as (Hnd & Hc & Hk).
  eexists _, _, _. split; [reflexivity|]. split_and!.
  - exact Hnd.
  - intros t n. rewrite count_of_elem by exact Hnd. rewrite Hk, Hc.
    split; [intros [? <-]; auto | intros [-> ?]; auto].
  - pose proof (fold_min_bound (row_ts r) (row_ts <$> rest)) as Hmin.
    pose proof (fold_max_bound (row_ts r) (row_ts <$> rest)) as Hmax.
    change (row_ts r :: (row_ts <$> rest)) with (row_ts <$> (r :: rest)) in *.
    rewrite Forall_fmap in Hmin, Hmax.
    rewrite Forall_forall in *. intros x Hx. split; [apply Hmin | apply Hmax]; exact Hx.
  - pose proof (fold_min_attained (row_ts r) (row_ts <$> rest)) as Hmin.
    change (row_ts r :: (row_ts <$> rest)) with (row_ts <$> (r :: rest)) in *.
    apply Exists_fmap in Hmin. exact Hmin.
  - pose proof (fold_max_attained (row_ts r) (row_ts <$> rest)) as Hmax.
    change (row_ts r :: (row_ts <$> rest)) with (row_ts <$> (r :: rest)) in *.
    apply Exists_fmap in Hmax. exact Hmax.
Qed.

Lemma summarize_rows_aggregate_witness :
  exists counts lo hi,
    _summarize_rows (memory (db store_of_five))
    = (row_summary <$> memory (db store_of_five)) ++ [Aggregate counts lo hi]
    /\ NoDup counts.*1.
Proof.
  assert (H : memory (db store_of_five) <> []) by (vm_compute; discriminate).
  destruct (summarize_rows_aggregate (memory (db store_of_five)) H)
    as (counts & lo & hi & G1 & G2 & _).
  exists counts, lo, hi. split; assumption.
Defined.

End SummaryFacts.

(** ** The limits of the other tables *)

Module TableLimitFacts.
Import Safety Memory MemorySpec HotTableSpec MemoryFacts RotationFacts.

(** With unique rowids, deleting the rowids of the first [k] rows of an
    ordering leaves exactly the other rows. *)
Lemma delete_rowids_split (k : nat) (rows sorted : list AuxRow) :
  sorted ≡ₚ rows ->
  NoDup (aux_rowid <$> rows) ->
  delete_rowids (aux_rowid <$> take k sorted) rows ≡ₚ drop k sorted.
Proof.
  intros Hperm Hnd. unfold delete_rowids.
  set (P := fun r : AuxRow => aux_rowid r ∉ aux_rowid <$> take k sorted).
  rewrite <- (filter_Permutation P _ _ Hperm).
  rewrite <- (take_drop k sorted) at 1. rewrite filter_app.
  rewrite (filter_none P (take k sorted)).
  - simpl. rewrite filter_all; [reflexivity|].
    assert (Hnd' : NoDup (aux_rowid <$> take k sorted ++ drop k sorted)).
    { rewrite take_drop. rewrite Hperm. assumption. }
    rewrite fmap_app in Hnd'. apply NoDup_app in Hnd' as (_ & Hdisj & _).
    apply Forall_forall. intros r Hr Hin. apply (Hdisj (aux_rowid r) Hin).
    apply list_elem_of_fmap. exists r. split; [reflexivity | assumption].
  - apply Forall_forall. intros r Hr HP. apply HP.
    apply list_elem_of_fmap. exists r. split; [reflexivity | assumption].
Qed.

(** A round of the loop touches its own table only. *)
Lemma trim_table_other limits t ts ts' u :
  trim_table limits t ts = Some ts' -> u <> t -> ts' !! u = ts !! u.
Proof.
  unfold trim_table. intros H Hne.
  destruct (limits !! t) as [limit|]; [|congruence].
  destruct (limit =? 0)%Z; [congruence|].
  destruct (ts !! t) as [rows|]; [|discriminate].
  destruct (limit <? _)%Z; [|congruence].
  injection H as <-. apply lookup_insert_ne. congruence.
Qed.

(** What a round makes of its table depends on that table only. *)
Lemma trim_table_local limits t ts1 ts2 a :
  ts1 !! t = ts2 !! t ->
  trim_table limits t ts1 = Some a ->
  exists b, trim_table limits t ts2 = Some b /\ b !! t = a !! t.
Proof.
  unfold trim_table. intros E H.
  destruct (limits !! t) as [limit|]; [|injection H as <-; eauto].
  destruct (limit =? 0)%Z; [injection H as <-; eauto|].
  rewrite <- E. destruct (ts1 !! t) as [rows|] eqn:E1; [|discriminate].
  destruct (limit <? _)%Z; injection H as <-; eexists; (split; [reflexivity|]).
  - rewrite !lookup_insert_eq. reflexivity.
  - congruence.
Qed.

Lemma foldl_trim_None limits (l : list string) :
  foldl (fun acc t => acc ≫= trim_table limits t) None l = None.
Proof. induction l as [|t l IH]; simpl; auto. Qed.

(** The loop over the tables: a table of the list is trimmed once, from
    what it held at the start, and the other tables are not touched. *)
Lemma foldl_trim_lookup limits (l : list string) : forall ts ts',
  NoDup l ->
  foldl (fun acc t => acc ≫= trim_table limits t) (Some ts) l = Some ts' ->
  forall t,
    (t ∈ l -> exists ts1, trim_table limits t ts = Some ts1
                          /\ ts' !! t = ts1 !! t)
    /\ (t ∉ l -> ts' !! t = ts !! t).
Proof.
  induction l as [|u l IH]; intros ts ts' Hnd H t; simpl in H.
  - injection H as <-. split; [intros Hin; inversion Hin | reflexivity].
  - apply NoDup_cons in Hnd as [Hu Hnd].
    destruct (trim_table limits u ts) as [tsu|] eqn:Eu;
      [|simpl in H; rewrite foldl_trim_None in H; discriminate].
    simpl in H. destruct (IH tsu ts' Hnd H t) as [Hin Hout]. split.
    + intros Ht. apply elem_of_cons in Ht as [-> | Ht].
      * exists tsu. split; [assumption | auto].
      * destruct (Hin Ht) as (ts1 & E1 & E2).
        assert (Hne : t <> u) by (intros ->; contradiction).
        destruct (trim_table_local limits t tsu ts ts1) as (b & Eb & Ebt);
          [apply (trim_table_other limits u ts tsu t Eu Hne) | assumption |].
        exists b. split; [assumption | congruence].
    + intros Ht. apply not_elem_of_cons in Ht as [Hne Ht].
      rewrite (Hout Ht). apply (trim_table_other limits u ts tsu t Eu Hne).
Qed.

(** X30: [_enforce_table_limits] cuts each table of its loop that has a
    limit other than 0 down to that limit: it keeps
    [min(count, limit)] rows, none of them older than a row it drops, and
    with a negative limit it empties the table.  Tables that are not in
    the loop are left as they are, whatever their limit. *)
Theorem table_limits_enforced (m : CausalMemory) (t : string) (limit : Z)
    (rows : list AuxRow) :
  disabled_due_to_size m = false ->
  tables_exist m ->
  t ∈ trims ->
  _table_limits m !! t = Some limit ->
  limit <> 0%Z ->
  tables (db m) !! t = Some rows ->
  NoDup (aux_rowid <$> rows) ->
  let m' := _enforce_table_limits None m in
  (exists kept dropped,
     tables (db m') !! t = Some kept
     /\ kept ++ dropped ≡ₚ rows
     /\ length kept = Nat.min (length rows) (Z.to_nat limit)
     /\ forall x y, x ∈ dropped -> y ∈ kept -> aux_stamp x <= aux_stamp y)
  /\ forall u, u ∉ trims -> tables (db m') !! u = tables (db m) !! u.
Proof.
  intros Hd Hex Ht Hl Hnz Hrows Hnd m'.
  assert (Hndt : NoDup trims) by (apply (bool_decide_unpack _); vm_compute; exact I).
  destruct (trims_succeed (_table_limits m) trims (tables (db m)) Hex) as [ts' Hf].
  assert (Hm' : tables (db m') = ts').
  { unfold m', _enforce_table_limits. rewrite Hd, Hf. reflexivity. }
  rewrite Hm'. split.
  - destruct (proj1 (foldl_trim_lookup _ _ _ _ Hndt Hf t) Ht) as (ts1 & E1 & E2).
    rewrite E2. clear E2 Hf Hm'. unfold trim_table in E1. rewrite Hl, Hrows in E1.
    destruct (limit =? 0)%Z eqn:Ez; [apply Z.eqb_eq in Ez; contradiction|].
    destruct (limit <? Z.of_nat (length rows))%Z eqn:Elt.
    + apply Z.ltb_lt in Elt. injection E1 as <-. rewrite lookup_insert_eq.
      set (sorted := order_asc aux_stamp rows).
      assert (Hperm : sorted ≡ₚ rows) by apply order_asc_Permutation.
      assert (Hlen : length sorted = length rows) by (rewrite Hperm; reflexivity).
      set (k := Z.to_nat (Z.of_nat (length rows) - limit)).
      assert (Hsl : sql_limit (Z.of_nat (length rows) - limit) sorted
                    = take k sorted).
      { unfold sql_limit. destruct (_ <? 0)%Z eqn:En; [|reflexivity].
        apply Z.ltb_lt in En. lia. }
      rewrite Hsl.
      pose proof (delete_rowids_split k rows sorted Hperm Hnd) as Hsplit.
      exists (delete_rowids (aux_rowid <$> take k sorted) rows), (take k sorted).
      split_and!.
      * reflexivity.
      * rewrite Hsplit, <- Hperm, Permutation_app_comm. rewrite take_drop.
        reflexivity.
      * rewrite Hsplit, length_drop, Hlen. unfold k. lia.
      * intros x y Hx Hy. rewrite Hsplit in Hy.
        apply (oldest_first_split aux_stamp (take k sorted) (drop k sorted));
          [rewrite take_drop; apply order_asc_sorted | assumption | assumption].
    + apply Z.ltb_ge in Elt. injection E1 as <-. exists rows, [].
      split_and!.
      * assumption.
      * rewrite app_nil_r. reflexivity.
      * lia.
      * intros x y Hx. inversion Hx.
  - intros u Hu. apply (proj2 (foldl_trim_lookup _ _ _ _ Hndt Hf u) Hu).
Qed.

Lemma table_limits_enforced_witness :
  exists kept,
    tables (db (_enforce_table_limits None crowded_store)) !! "user_profiles"
    = Some kept
    /\ length kept = 5%nat.
Proof.
  assert (H1 : disabled_due_to_size crowded_store = false)
    by (vm_compute; reflexivity).
  assert (H2 : tables_exist crowded_store).
  { intros t Ht. unfold trims in Ht.
    repeat (apply elem_of_cons in Ht as [-> | Ht]; [vm_compute; eauto|]).
    inversion Ht. }
  assert (H3 : "user_profiles" ∈ trims) by (unfold trims; constructor).
  assert (H4 : _table_limits crowded_store !! "user_profiles" = Some 5%Z)
    by (vm_compute; reflexivity).
  assert (H5 : 5%Z <> 0%Z) by discriminate.
  assert (H6 : tables (db crowded_store) !! "user_profiles" = Some six_profiles)
    by (vm_compute; reflexivity).
  assert (H7 : NoDup (aux_rowid <$> six_profiles))
    by (apply (bool_decide_unpack _); vm_compute; exact I).
  destruct (table_limits_enforced crowded_store "user_profiles" 5 six_profiles
              H1 H2 H3 H4 H5 H6 H7) as [(kept & dropped & G1 & _ & G3 & _) _].
  exists kept. split; [exact G1 | exact G3].
Defined.

End TableLimitFacts.

(** ** The breaker of the store *)

Module WriteBreakerFacts.
Import Safety Memory MemorySpec WriteBreakerSpec SafetyFacts MemoryFacts.

Lemma execute_write_failed clk io table writer (m m' : CausalMemory) e :
  _execute_write clk io table writer m = (m', Failed e) ->
  _breaker m'
  = record_failure (wc_breaker clk) (wc_breaker_tripped clk) (exn_str e)
      (_prune (wc_allow clk) (wc_allow_tripped clk) (_breaker m))
  /\ db m' = db m
  /\ allow_writes m' = true.
Proof.
  unfold _execute_write.
  destruct (allow_writes m) eqn:Ew; simpl; [|discriminate].
  destruct (allow_result (wc_allow clk) (wc_allow_tripped clk) (_breaker m))
    as [_ Hbr].
  destruct (allow _ _ _) as [ok br]. simpl in Hbr. subst br.
  destruct ok; simpl; [|discriminate].
  destruct (_ <=? _)%Z; [discriminate|].
  destruct io as [e0|].
  { destruct e0 as [msg| |msg]; simpl; try destruct (contains _ _);
      try discriminate; intros [= <- <-]; simpl; auto. }
  destruct (_table_over_limit _ _); simpl; [discriminate|].
  destruct (writer _) as [d|e0]; simpl; [discriminate|].
  destruct e0 as [msg| |msg]; simpl; try destruct (contains _ _);
    try discriminate; intros [= <- <-]; simpl; auto.
Qed.

Lemma prune_keeps_recent lo now clock b old recent :
  now <= clock ->
  lo <= now -> now <= lo + window_seconds b ->
  failures b = old ++ recent ->
  Forall (fun f => lo <= f /\ f <= lo + window_seconds b) recent ->
  exists old', failures (_prune now clock b) = old' ++ recent.
Proof.
  intros Hc Hlo Hhi Hf Hr. rewrite prune_monotone_clock by assumption. simpl.
  rewrite Hf.
  assert (Hk : Forall (fun f => now - f <= window_seconds b) recent).
  { eapply Forall_impl; [exact Hr|]. simpl. intros f [? ?]. lra. }
  destruct (drop_expired_keeps_tail (window_seconds b) now old recent Hk)
    as (old' & Ho & _).
  exists old'. exact Ho.
Qed.

Lemma run_writes_failed_recent lo calls : forall (m : CausalMemory) old recent,
  breaker_window lo (window_seconds (_breaker m)) calls ->
  Forall is_failed (run_writes calls m).2 ->
  failures (_breaker m) = old ++ recent ->
  Forall (fun f => lo <= f /\ f <= lo + window_seconds (_breaker m)) recent ->
  let m' := (run_writes calls m).1 in
  (exists old',
     failures (_breaker m')
     = old' ++ recent ++ ((fun c => wc_breaker (call_clock c)) <$> calls))
  /\ threshold (_breaker m') = threshold (_breaker m)
  /\ window_seconds (_breaker m') = window_seconds (_breaker m)
  /\ cooldown_seconds (_breaker m') = cooldown_seconds (_breaker m)
  /\ db m' = db m
  /\ (calls <> [] -> allow_writes m' = true).
Proof.
  induction calls as [|c calls IH]; intros m old recent Hw Hres Hf Hr; simpl.
  - split; [exists old; rewrite app_nil_r; assumption|].
    split_and!; try reflexivity. congruence.
  - simpl in Hres.
    destruct (_execute_write (call_clock c) (call_io c) (call_table c)
                (call_writer c) m) as [m1 r] eqn:E1.
    destruct (run_writes calls m1) as [m2 rs] eqn:E2. simpl in *.
    inversion Hres as [|? ? Hr1 Hrs]; subst.
    destruct r as [why|stamp|e]; try contradiction.
    apply execute_write_failed in E1 as (Hb1 & Hd1 & Ha1).
    inversion Hw as [|? ? [(Hl1 & Hh1 & Hc1) (Hl2 & Hh2 & Hc2)] Hw']; subst.
    destruct (prune_config (wc_allow (call_clock c))
                (wc_allow_tripped (call_clock c)) (_breaker m))
      as (Ht0 & Hw0 & Hcd0 & _).
    destruct (prune_keeps_recent lo _ _ (_breaker m) old recent Hc1 Hl1 Hh1 Hf Hr)
      as (old1 & Hf1).
    set (b1 := _prune _ _ (_breaker m)) in *.
    destruct (record_failure_config (wc_breaker (call_clock c))
                (wc_breaker_tripped (call_clock c)) (exn_str e) b1)
      as (Ht1 & Hw1 & Hcd1).
    assert (Hkeep : Forall (fun f => wc_breaker (call_clock c) - f
                                     <= window_seconds b1)
                      (recent ++ [wc_breaker (call_clock c)])).
    { rewrite Hw0. apply Forall_app. split.
      - eapply Forall_impl; [exact Hr|]. simpl. intros f [? ?]. lra.
      - constructor; [lra | constructor]. }
    destruct (drop_expired_keeps_tail (window_seconds b1)
                (wc_breaker (call_clock c)) old1 _ Hkeep) as (old2 & Hold2 & _).
    specialize (IH m1 old2 (recent ++ [wc_breaker (call_clock c)])).
    rewrite E2 in IH. simpl in IH.
    rewrite Hb1, Hw1, Hw0, Ht1, Ht0, Hcd1, Hcd0 in IH.
    destruct IH as ((old' & Hfin) & ? & ? & ? & ? & ?).
    + assumption.
    + assumption.
    + rewrite record_failure_failures by assumption.
      rewrite Hf1, <- app_assoc. exact Hold2.
    + apply Forall_app. split; [assumption|].
      constructor; [split; assumption | constructor].
    + split_and!; auto; try congruence.
      * exists old'. rewrite Hfin, <- app_assoc. reflexivity.
      * intros _. destruct calls; [|auto; apply H3; discriminate].
        simpl in E2. injection E2 as <- _. assumption.
Qed.


Lemma run_writes_app l1 l2 (m : CausalMemory) :
  run_writes (l1 ++ l2) m
  = ((run_writes l2 (run_writes l1 m).1).1,
     (run_writes l1 m).2 ++ (run_writes l2 (run_writes l1 m).1).2).
Proof.
  revert m. induction l1 as [|c l1 IH]; intros m; simpl.
  - destruct (run_writes l2 m); reflexivity.
  - destruct (_execute_write _ _ _ _ m) as [m1 r]. rewrite IH.
    destruct (run_writes l1 m1) as [m2 rs]. simpl. reflexivity.
Qed.

(** While the breaker is open, a write is refused and the database is not
    touched. *)
Lemma write_refused_while_open clk io table writer (m : CausalMemory) :
  allow_writes m = true ->
  wc_allow clk < tripped_until (_breaker m) ->
  (_execute_write clk io table writer m).2 = Skipped BreakerOpen
  /\ db (_execute_write clk io table writer m).1 = db m.
Proof.
  intros Hw Hlt. unfold _execute_write. rewrite Hw. simpl.
  destruct (allow_result (wc_allow clk) (wc_allow_tripped clk) (_breaker m))
    as [Hok _].
  destruct (allow _ _ _) as [ok br]. simpl in Hok.
  apply Qltb_lt in Hlt. rewrite Hlt in Hok. subst ok. simpl. auto.
Qed.

(** X15: when every write of a run fails, the run is at least [threshold]
    writes long and its clock readings lie within one breaker window, the
    breaker of the store ends tripped until [cooldown_seconds] after the
    last failure; the database is unchanged, and every later write that
    comes before that time is skipped without touching the database. *)
Theorem failed_writes_trip_breaker (lo : Q) (calls : list WriteCall)
    (last : WriteCall) (m : CausalMemory) :
  breaker_window lo (window_seconds (_breaker m)) (calls ++ [last]) ->
  Forall is_failed (run_writes (calls ++ [last]) m).2 ->
  (threshold (_breaker m) <= Z.of_nat (length (calls ++ [last])))%Z ->
  let m' := (run_writes (calls ++ [last]) m).1 in
  let until := wc_breaker (call_clock last) + cooldown_seconds (_breaker m) in
  tripped_until (_breaker m') = until
  /\ db m' = db m
  /\ forall clk io table writer,
       wc_allow clk < until ->
       (_execute_write clk io table writer m').2 = Skipped BreakerOpen
       /\ db (_execute_write clk io table writer m').1 = db m.
Proof.
  intros Hwin Hres Hthr m' until.
  destruct (run_writes_failed_recent lo (calls ++ [last]) m (failures (_breaker m)) []
              Hwin Hres) as ((old' & Hf) & Ht & Hw & Hc & Hd & Ha);
    [rewrite app_nil_r; reflexivity | constructor |].
  fold m' in Hf, Ht, Hw, Hc, Hd, Ha.
  assert (Htrip : tripped_until (_breaker m') = until).
  { unfold m' in *. rewrite run_writes_app in *. simpl in *.
    apply Forall_app in Hres as [_ Hres].
    set (m1 := (run_writes calls m).1) in *.
    destruct (_execute_write (call_clock last) (call_io last) (call_table last)
                (call_writer last) m1) as [m2 r] eqn:E. simpl in *.
    inversion Hres as [|? ? Hr _]; subst.
    destruct r as [why|stamp|e]; try contradiction.
    apply execute_write_failed in E as (Hb & _ & _).
    rewrite Hb in *.
    set (b1 := _prune _ _ (_breaker m1)) in *.
    destruct (record_failure_config (wc_breaker (call_clock last))
                (wc_breaker_tripped (call_clock last)) (exn_str e) b1)
      as (Ht1 & _ & Hc1).
    rewrite record_failure_trips.
    - unfold until. rewrite <- Hc, Hc1. reflexivity.
    - rewrite <- Ht1, Ht, Hf. simpl. rewrite length_app, length_fmap. lia. }
  split_and!; [exact Htrip | exact Hd |].
  intros clk io table writer Hlt. rewrite <- Hd.
  apply write_refused_while_open; [|rewrite Htrip; exact Hlt].
  apply Ha. destruct calls; discriminate.
Qed.

Lemma execute_write_locked clk io table writer (m : CausalMemory) :
  is_locked io ->
  let r := _execute_write clk io table writer m in
  db r.1 = db m
  /\ tripped_until (_breaker r.1) = tripped_until (_breaker m)
  /\ exists why, r.2 = Skipped why.
Proof.
  intros Hl. unfold _execute_write.
  destruct (allow_writes m); simpl; [|eauto].
  destruct (allow_result (wc_allow clk) (wc_allow_tripped clk) (_breaker m))
    as [_ Hbr].
  destruct (allow _ _ _) as [ok br]. simpl in Hbr. subst br.
  pose proof (prune_tripped_until (wc_allow clk) (wc_allow_tripped clk)
                (_breaker m)) as Hp.
  destruct ok; simpl; [|eauto].
  destruct (_ <=? _)%Z; simpl; [eauto|].
  destruct io as [[msg| |msg]|]; simpl in Hl; try contradiction.
  rewrite Hl. simpl. eauto.
Qed.

(** X16: writes that meet a locked database are skipped without a failure
    being recorded: however many there are, the database and
    [tripped_until] of the breaker are unchanged. *)
Theorem locked_writes_spare_breaker (calls : list WriteCall) (m : CausalMemory) :
  Forall (fun c => is_locked (call_io c)) calls ->
  db (run_writes calls m).1 = db m
  /\ tripped_until (_breaker (run_writes calls m).1)
     = tripped_until (_breaker m)
  /\ Forall (fun r => exists why, r = Skipped why) (run_writes calls m).2.
Proof.
  revert m. induction calls as [|c calls IH]; intros m Hl; simpl.
  - split_and!; [reflexivity | reflexivity | constructor].
  - inversion Hl as [|? ? Hc Hl']; subst.
    destruct (execute_write_locked (call_clock c) (call_io c) (call_table c)
                (call_writer c) m Hc) as (Hd & Ht & (why & Hr)).
    destruct (_execute_write _ _ _ _ m) as [m1 r]. simpl in *.
    destruct (IH m1 Hl') as (Hd' & Ht' & Hr').
    destruct (run_writes calls m1) as [m2 rs]. simpl in *.
    split_and!; [congruence | congruence |].
    constructor; [eauto | assumption].
Qed.

Lemma failed_writes_trip_breaker_witness :
  tripped_until
    (_breaker (run_writes (failing_writes "disk I/O error"
                           ++ [failing_write 1004 "disk I/O error"])
                 fresh_store).1)
  = wc_breaker (steady_clock 1004) + cooldown_seconds (_breaker fresh_store).
Proof.
  assert (H1 : breaker_window 1000 (window_seconds (_breaker fresh_store))
                 (failing_writes "disk I/O error"
                  ++ [failing_write 1004 "disk I/O error"])).
  { repeat constructor; vm_compute; discriminate. }
  assert (H2 : Forall is_failed
                 (run_writes (failing_writes "disk I/O error"
                              ++ [failing_write 1004 "disk I/O error"])
                    fresh_store).2).
  { vm_compute. repeat constructor. }
  assert (H3 : (threshold (_breaker fresh_store)
                <= Z.of_nat (length (failing_writes "disk I/O error"
                                     ++ [failing_write 1004 "disk I/O error"])))%Z)
    by (vm_compute; discriminate).
  exact (proj1 (failed_writes_trip_breaker 1000 _ _ fresh_store H1 H2 H3)).
Defined.

Lemma locked_writes_spare_breaker_witness :
  db (run_writes (failing_writes "database is locked") fresh_store).1
  = db fresh_store.
Proof.
  assert (H : Forall (fun c => is_locked (call_io c))
                (failing_writes "database is locked")).
  { repeat constructor. }
  exact (proj1 (locked_writes_spare_breaker _ fresh_store H)).
Defined.

End WriteBreakerFacts.

(** ** Profiles and relationships *)

Module ProfileFacts.
Import Safety Memory MemorySpec ProfileSpec MemoryFacts HotTableFacts.

Lemma clamp01_unit (v : Q) : 0 <= clamp01 v /\ clamp01 v <= 1.
Proof.
  unfold clamp01. split; [apply Q.le_max_l|].
  apply Q.max_lub; [lra | apply Q.le_min_l].
Qed.

Lemma apply_deltas_lookup deltas current k :
  apply_deltas deltas current !! k = adjusted deltas current k.
Proof.
  unfold apply_deltas, adjusted. revert k.
  apply (map_fold_weak_ind
           (fun r md => forall k,
              r !! k = match current !! k with
                       | None => None
                       | Some v => Some (match md !! k with
                                         | Some d => clamp01 (v + d)
                                         | None => v
                                         end)
                       end)).
  - intros k. rewrite lookup_empty. destruct (current !! k); reflexivity.
  - intros i x md r Hi IH k. destruct (decide (k = i)) as [->|Hne].
    + rewrite lookup_insert_eq. specialize (IH i). rewrite Hi in IH.
      destruct (r !! i) as [v|] eqn:Er.
      * rewrite lookup_insert_eq. destruct (current !! i); congruence.
      * rewrite Er. destruct (current !! i); congruence.
    + rewrite lookup_insert_ne by congruence. rewrite <- IH.
      destruct (r !! i); [rewrite lookup_insert_ne by congruence|]; reflexivity.
Qed.

Lemma or_global_idem s : or_global (or_global s) = or_global s.
Proof.
  unfold or_global. destruct (decide (s = "")) as [->|H].
  - reflexivity.
  - rewrite decide_False by assumption. reflexivity.
Qed.

Lemma find_replaced key data stamp rows :
  list_find (fun r => aux_key r = key) (replace_into key data stamp rows)
  = Some (length (filter (fun r => aux_key r <> key) rows),
          mkAux (next_rowid rows) key (Some data) stamp).
Proof.
  unfold replace_into. set (rest := filter _ rows).
  apply list_find_Some. split_and!.
  - rewrite lookup_app_r by lia. rewrite Nat.sub_diag. reflexivity.
  - reflexivity.
  - intros j y Hj Hlt. rewrite lookup_app_l in Hj by assumption.
    apply list_elem_of_lookup_2 in Hj.
    apply list_elem_of_filter in Hj as [Hne _]. exact Hne.
Qed.

Lemma find_other key key' data stamp rows :
  key' <> key ->
  snd <$> list_find (fun r => aux_key r = key') (replace_into key data stamp rows)
  = snd <$> list_find (fun r => aux_key r = key') rows.
Proof.
  intros Hne. unfold replace_into.
  generalize (next_rowid rows) as rowid.
  intros rowid. induction rows as [|r rows IH].
  - simpl. rewrite decide_False by congruence. reflexivity.
  - destruct (decide (aux_key r = key)) as [Hk|Hk].
    + rewrite filter_cons_False by tauto.
      rewrite IH. simpl. rewrite decide_False by congruence.
      destruct (list_find _ rows) as [[? ?]|]; reflexivity.
    + rewrite filter_cons_True by assumption. simpl.
      destruct (decide (aux_key r = key')); [reflexivity|].
      destruct (list_find _ (filter _ rows ++ _)) as [[? ?]|],
               (list_find _ rows) as [[? ?]|]; simpl in *;
        first [assumption | reflexivity].
Qed.

(** What a committed replacement leaves behind: the row of the key holds
    the new data, and the rows of the other keys are as before. *)
Lemma select_after_replace table key data stamp (d d' : Db) :
  replace_writer table key data stamp d = Ok d' ->
  (forall default, select_data None d' table key default = Ok data)
  /\ (forall table' key' default,
        (table', key') <> (table, key) ->
        select_data None d' table' key' default
        = select_data None d table' key' default)
  /\ memory d' = memory d.
Proof.
  unfold replace_writer. destruct (tables d !! table) as [rows|] eqn:Et;
    [|discriminate]. intros [= <-]. split_and!.
  - intros default. unfold select_data. simpl. rewrite lookup_insert_eq.
    rewrite find_replaced. reflexivity.
  - intros table' key' default Hne. unfold select_data. simpl.
    destruct (decide (table' = table)) as [->|Ht].
    + rewrite lookup_insert_eq, Et.
      assert (Hk : key' <> key) by congruence.
      pose proof (find_other key key' data stamp rows Hk) as Hf.
      destruct (list_find _ (replace_into _ _ _ _)) as [[? ?]|],
               (list_find _ rows) as [[? ?]|]; simpl in Hf;
        first [discriminate | injection Hf as ->; reflexivity | reflexivity].
    + rewrite lookup_insert_ne by congruence. reflexivity.
  - reflexivity.
Qed.

(** X17: after a committed [adjust_user_profile], [get_user_profile] of the
    same server and user returns the profile that the call returned; each
    of its values is the value read before, moved by its delta and clamped
    to [[0, 1]] when the deltas name it, keys that the profile does not
    have are not added, and the profiles of other users are unchanged. *)
Theorem adjust_profile_round_trip read_io clk io stamp server user deltas
    (m m' : CausalMemory) t profile :
  adjust_user_profile read_io clk io stamp server user deltas m
  = Ok (m', Committed t, profile) ->
  disabled_due_to_size m = false ->
  get_user_profile None m' server user = Ok profile
  /\ (exists before,
        get_user_profile read_io m server user = Ok before
        /\ forall k, profile !! k = adjusted deltas before k)
  /\ (forall k v, is_Some (deltas !! k) -> profile !! k = Some v ->
        0 <= v /\ v <= 1)
  /\ (forall server' user',
        (or_global server', user') <> (or_global server, user) ->
        get_user_profile None m' server' user'
        = get_user_profile None m server' user').
Proof.
  unfold adjust_user_profile. intros Hadj Hdis.
  assert (Hget : forall s, get_user_profile read_io m (or_global s) user
                           = get_user_profile read_io m s user).
  { intros s. unfold get_user_profile. rewrite or_global_idem. reflexivity. }
  rewrite Hget in Hadj.
  destruct (get_user_profile read_io m server user) as [before|e] eqn:Eb;
    [|discriminate].
  destruct (_execute_write _ _ _ _ m) as [m1 r] eqn:Ew.
  injection Hadj as -> -> <-.
  apply execute_write_committed in Ew as (_ & _ & Hw & _ & Hd' & _).
  apply select_after_replace in Hw as (Hsel & Hother & _).
  split_and!.
  - unfold get_user_profile. rewrite Hd', Hdis, Hsel. reflexivity.
  - exists before. split; [reflexivity|]. apply apply_deltas_lookup.
  - intros k v [d Hd]. rewrite apply_deltas_lookup. unfold adjusted. rewrite Hd.
    destruct (before !! k); [|discriminate]. intros [= <-]. apply clamp01_unit.
  - intros server' user' Hne. unfold get_user_profile. rewrite Hd', Hdis.
    rewrite Hother; [reflexivity|]. congruence.
Qed.

Lemma sorted_pair_comm a b : sorted_pair a b = sorted_pair b a.
Proof.
  unfold sorted_pair.
  destruct (String.leb a b) eqn:E1, (String.leb b a) eqn:E2; try reflexivity.
  - rewrite (String.leb_antisym a b E1 E2). reflexivity.
  - destruct (String.leb_total a b); congruence.
Qed.

Lemma get_relationship_comm io (m : CausalMemory) server user_a user_b :
  get_relationship io m server user_a user_b
  = get_relationship io m server user_b user_a.
Proof.
  unfold get_relationship. rewrite (sorted_pair_comm user_a user_b). reflexivity.
Qed.

Lemma update_relationship_comm read_io clk io stamp server user_a user_b deltas
    (m : CausalMemory) :
  update_relationship read_io clk io stamp server user_a user_b deltas m
  = update_relationship read_io clk io stamp server user_b user_a deltas m.
Proof.
  unfold update_relationship.
  destruct (decide (user_a = user_b)) as [->|Hne].
  - destruct (decide (user_b = user_b)); [reflexivity | congruence].
  - rewrite (decide_False (P := user_b = user_a)) by congruence.
    rewrite (get_relationship_comm read_io m _ user_a user_b).
    rewrite (sorted_pair_comm user_a user_b). reflexivity.
Qed.

(** X18: after a committed [update_relationship] of two users,
    [get_relationship] returns the relation that the call returned, in
    either order of the users; the call itself does the same in either
    order, and it is committed for two different users only. *)
Theorem relationship_round_trip read_io clk io stamp server user_a user_b deltas
    (m m' : CausalMemory) t relation :
  update_relationship read_io clk io stamp server user_a user_b deltas m
  = Ok (m', Some (Committed t), relation) ->
  disabled_due_to_size m = false ->
  user_a <> user_b
  /\ get_relationship None m' server user_a user_b = Ok relation
  /\ get_relationship None m' server user_b user_a = Ok relation
  /\ (exists before,
        get_relationship read_io m server user_a user_b = Ok before
        /\ forall k, relation !! k = adjusted deltas before k)
  /\ update_relationship read_io clk io stamp server user_b user_a deltas m
     = Ok (m', Some (Committed t), relation).
Proof.
  intros Hupd Hdis.
  assert (Hcomm : update_relationship read_io clk io stamp server user_b user_a
                    deltas m = Ok (m', Some (Committed t), relation))
    by (rewrite <- update_relationship_comm; exact Hupd).
  revert Hupd. unfold update_relationship.
  destruct (decide (user_a = user_b)) as [|Hne]; [discriminate|].
  assert (Hget : get_relationship read_io m (or_global server) user_a user_b
                 = get_relationship read_io m server user_a user_b).
  { unfold get_relationship. rewrite or_global_idem. reflexivity. }
  rewrite Hget.
  destruct (get_relationship read_io m server user_a user_b) as [before|e] eqn:Eb;
    [|discriminate].
  destruct (sorted_pair user_a user_b) as [key_a key_b] eqn:Es.
  destruct (_execute_write _ _ _ _ m) as [m1 r] eqn:Ew.
  intros [= -> -> <-].
  apply execute_write_committed in Ew as (_ & _ & Hw & _ & Hd' & _).
  apply select_after_replace in Hw as (Hsel & _ & _).
  assert (Hafter : get_relationship None m' server user_a user_b
                   = Ok (apply_deltas deltas before)).
  { unfold get_relationship. rewrite Hd', Hdis, Es, Hsel. reflexivity. }
  split_and!.
  - assumption.
  - exact Hafter.
  - rewrite <- get_relationship_comm. exact Hafter.
  - exists before. split; [reflexivity|]. apply apply_deltas_lookup.
  - exact Hcomm.
Qed.

Lemma adjust_profile_round_trip_witness :
  get_user_profile None warmed_store "" "42"
  = Ok (<["warmth" := 1]> PROFILE_DEFAULTS).
Proof.
  assert (H1 : adjust_user_profile None (steady_clock 1000) None 1000 "" "42"
                 warmer fresh_store
               = Ok (warmed_store, Committed 1000,
                     <["warmth" := 1]> PROFILE_DEFAULTS))
    by (vm_compute; reflexivity).
  assert (H2 : disabled_due_to_size fresh_store = false) by reflexivity.
  exact (proj1 (adjust_profile_round_trip _ _ _ _ _ _ _ _ _ _ _ H1 H2)).
Defined.

Lemma relationship_round_trip_witness :
  get_relationship None related_store "" "42" "7"
  = Ok (<["trust" := 1]> RELATIONSHIP_DEFAULTS).
Proof.
  assert (H1 : update_relationship None (steady_clock 1000) None 1000 "" "7"
                 "42" closer fresh_store
               = Ok (related_store, Some (Committed 1000),
                     <["trust" := 1]> RELATIONSHIP_DEFAULTS))
    by (vm_compute; reflexivity).
  assert (H2 : disabled_due_to_size fresh_store = false) by reflexivity.
  exact (proj1 (proj2 (proj2
           (relationship_round_trip _ _ _ _ _ _ _ _ _ _ _ _ H1 H2)))).
Defined.

End ProfileFacts.

(** ** Routing *)

Module RoutingFacts.
Import Conversation ConversationSpec RoutingSpec ConversationFacts.

Lemma not_message_label stim :
  negb (bool_decide (type stim = "discord_message")
        || bool_decide (type stim = "attachment")) = false <-> is_message stim.
Proof.
  unfold is_message. rewrite negb_false_iff, orb_true_iff.
  rewrite !bool_decide_eq_true. reflexivity.
Qed.

(** The text rules of [_looks_directed] do not look at the clock, at the
    author or at the session. *)
Lemma looks_directed_text now author session text :
  _looks_directed 0 0 None text = true ->
  _looks_directed now author session text = true.
Proof.
  unfold _looks_directed. destruct (decide (text = "")); [auto|].
  destruct (_ || _); [auto|]. destruct (contains "vyxen" text); [auto|].
  discriminate.
Qed.

(** The session that [engage] returns is stamped with [now]. *)
Lemma engage_stamp now author guild channel session st s :
  let res := engage now author guild channel session st in
  heap res.2 !! res.1 = Some s ->
  last_interaction s = now /\ expires_at s = now + ttl_seconds st.
Proof.
  unfold engage.
  destruct (session ≫= _) as [[r s0]|]; simpl;
    rewrite lookup_insert_eq; intros [= <-]; simpl; auto.
Qed.

(** The directed branch. *)
Lemma route_directed now clock stim st author channel :
  wf st -> is_message stim ->
  author_id (context stim) = Some author ->
  channel_id (context stim) = Some channel ->
  detected_direct now
    (clear_expired_active now (guild_of stim) channel (expire_stale clock st).2)
    stim author (guild_of stim) channel = true ->
  let res := route_stimulus now clock stim st in
  routed_label res.1 = "directed"
  /\ routing (routed_stimulus res.1) = "directed"
  /\ exists r s,
       routed_session res.1 = Some r
       /\ active_by_channel res.2 !! (guild_of stim, channel) = Some r
       /\ sessions res.2 !! _key author (guild_of stim) channel = Some r
       /\ heap res.2 !! r = Some s
       /\ user_id s = author
       /\ last_interaction s = now
       /\ expires_at s = now + ttl_seconds st.
Proof.
  intros W Hm Hau Hch Hdet res. subst res. unfold route_stimulus.
  pose proof (wf_expire_stale clock st W) as W0.
  assert (Ht0 : ttl_seconds (expire_stale clock st).2 = ttl_seconds st)
    by reflexivity.
  destruct (expire_stale clock st) as [ended st0]. simpl in W0, Hdet, Ht0.
  rewrite (proj2 (not_message_label stim) Hm), Hau, Hch.
  set (guild := guild_of stim) in *.
  pose proof (wf_clear_expired_active now guild channel st0 W0) as W1.
  pose proof (clear_expired_active_ttl now guild channel st0) as Ht1.
  set (st1 := clear_expired_active now guild channel st0) in *.
  rewrite Hdet.
  pose proof (wf_supersede author guild channel ended st1 W1) as W2.
  destruct (supersede_post author guild channel ended st1 W1)
    as (Hkey & _ & _ & Ht2 & Hown).
  destruct (supersede author guild channel ended st1) as [ended1 st2].
  simpl in *. rewrite <- Hkey.
  destruct (engage_spec now author guild channel st2 W2 Hown)
    as (_ & E1 & E2 & (s & E3 & E4 & _) & _).
  pose proof (engage_stamp now author guild channel
                (sessions st2 !! _key author guild channel) st2 s) as Hs.
  destruct (engage now author guild channel _ st2) as [r st3]. simpl in *.
  destruct (Hs E3) as [Hl He].
  split_and!; [reflexivity | reflexivity |].
  exists r, s. split_and!; auto. rewrite He. congruence.
Qed.


Lemma looks_directed_none now author text :
  _looks_directed now author None text = _looks_directed 0 0 None text.
Proof. reflexivity. Qed.




(** The branch of a message that is not detected as directed. *)
Lemma route_plain now clock stim st author channel :
  is_message stim ->
  author_id (context stim) = Some author ->
  channel_id (context stim) = Some channel ->
  let st1 := clear_expired_active now (guild_of stim) channel
               (expire_stale clock st).2 in
  detected_direct now st1 stim author (guild_of stim) channel = false ->
  route_stimulus now clock stim st
  = match active_session st1 (guild_of stim) channel with
    | Some (r, a) =>
        if bool_decide (user_id a = author) then
          (mkRouted "directed" (Some r) (expire_stale clock st).1
             (with_routing "directed" stim),
           set_heap (<[r := refresh now (ttl_seconds st1) a]> (heap st1)) st1)
        else
          (mkRouted "ambient" None (expire_stale clock st).1
             (with_routing "ambient" stim), st1)
    | None =>
        (mkRouted "ambient" None (expire_stale clock st).1
           (with_routing "ambient" stim), st1)
    end.
Proof.
  intros Hm Hau Hch st1 Hdet. subst st1. unfold route_stimulus.
  destruct (expire_stale clock st) as [ended st0]. simpl in *.
  rewrite (proj2 (not_message_label stim) Hm), Hau, Hch, Hdet. reflexivity.
Qed.

(** X19: what [route_stimulus] returns on a well-formed store: the routing
    written on the stimulus is the returned label; the label is
    [system] for what is not a message and [ambient] or [directed] for a
    message; a session is returned exactly with [directed], and it is then
    the active session of the channel, owned by the author, refreshed at
    [now] and expiring [ttl_seconds] later. *)
Theorem route_stimulus_spec (now clock : Q) (stim : Stimulus) (st : SessionStore) :
  wf st ->
  let res := route_stimulus now clock stim st in
  routing (routed_stimulus res.1) = routed_label res.1
  /\ (routed_label res.1 = "system" /\ ~ is_message stim
      \/ routed_label res.1 = "ambient" /\ is_message stim
      \/ routed_label res.1 = "directed" /\ is_message stim)
  /\ (routed_session res.1 = None <-> routed_label res.1 <> "directed")
  /\ (forall r, routed_session res.1 = Some r ->
        exists author channel s,
          author_id (context stim) = Some author
          /\ channel_id (context stim) = Some channel
          /\ active_by_channel res.2 !! (guild_of stim, channel) = Some r
          /\ heap res.2 !! r = Some s
          /\ user_id s = author
          /\ last_interaction s = now
          /\ expires_at s = now + ttl_seconds st).
Proof.
  intros W res.
  destruct (negb (bool_decide (type stim = "discord_message")
                  || bool_decide (type stim = "attachment"))) eqn:Em.
  { assert (Hn : ~ is_message stim).
    { intros Hm. apply not_message_label in Hm. congruence. }
    subst res. unfold route_stimulus.
    destruct (expire_stale clock st) as [ended st0]. rewrite Em. simpl.
    split_and!; [reflexivity | auto | split; [discriminate | reflexivity] |].
    intros r [=]. }
  apply not_message_label in Em.
  assert (Hamb : forall (ended : list (nat * string)) st',
            route_stimulus now clock stim st
            = (mkRouted "ambient" None ended (with_routing "ambient" stim), st') ->
            routing (routed_stimulus res.1) = routed_label res.1
            /\ (routed_label res.1 = "system" /\ ~ is_message stim
                \/ routed_label res.1 = "ambient" /\ is_message stim
                \/ routed_label res.1 = "directed" /\ is_message stim)
            /\ (routed_session res.1 = None <-> routed_label res.1 <> "directed")
            /\ (forall r, routed_session res.1 = Some r ->
                  exists author channel s,
                    author_id (context stim) = Some author
                    /\ channel_id (context stim) = Some channel
                    /\ active_by_channel res.2 !! (guild_of stim, channel) = Some r
                    /\ heap res.2 !! r = Some s
                    /\ user_id s = author
                    /\ last_interaction s = now
                    /\ expires_at s = now + ttl_seconds st)).
  { intros ended st' E. subst res. rewrite E. simpl.
    split_and!; [reflexivity | auto | split; [discriminate | reflexivity] |].
    intros r [=]. }
  destruct (author_id (context stim)) as [author|] eqn:Hau; cycle 1.
  { apply (Hamb (expire_stale clock st).1 (expire_stale clock st).2).
    unfold route_stimulus. destruct (expire_stale clock st) as [ended st0].
    rewrite (proj2 (not_message_label stim) Em), Hau. reflexivity. }
  destruct (channel_id (context stim)) as [channel|] eqn:Hch; cycle 1.
  { apply (Hamb (expire_stale clock st).1 (expire_stale clock st).2).
    unfold route_stimulus. destruct (expire_stale clock st) as [ended st0].
    rewrite (proj2 (not_message_label stim) Em), Hau, Hch. reflexivity. }
  set (st1 := clear_expired_active now (guild_of stim) channel
                (expire_stale clock st).2).
  destruct (detected_direct now st1 stim author (guild_of stim) channel) eqn:Hdet.
  - destruct (route_directed now clock stim st author channel W Em Hau Hch Hdet)
      as (Hl & Hr & r & s & Hs & Ha & _ & Hh & Hu & Hli & Hex).
    fold res in Hl, Hr, Hs, Ha, Hh. split_and!.
    + congruence.
    + auto.
    + rewrite Hs, Hl. split; [discriminate | congruence].
    + intros r' Hr'. rewrite Hs in Hr'. injection Hr' as <-.
      exists author, channel, s. auto 10.
  - pose proof (route_plain now clock stim st author channel Em Hau Hch Hdet) as E.
    fold st1 in E.
    destruct (active_session st1 (guild_of stim) channel) as [[r a]|] eqn:Ea;
      [|eapply Hamb; exact E].
    destruct (bool_decide (user_id a = author)) eqn:Eu; [|eapply Hamb; exact E].
    apply bool_decide_eq_true in Eu. apply active_session_Some in Ea as [Ea Eh].
    subst res. rewrite E. simpl. split_and!.
    + reflexivity.
    + auto.
    + split; [discriminate | congruence].
    + intros r' [= <-]. exists author, channel, (refresh now (ttl_seconds st1) a).
      rewrite lookup_insert_eq. split_and!; auto.
      simpl. unfold st1. rewrite clear_expired_active_ttl. reflexivity.
Qed.

(** X20: after a message that addresses the bot has been routed, [get] for
    its author and channel returns the routed session at every time before
    [now + ttl_seconds], and [None] from that time on. *)
Theorem route_then_get (now clock : Q) (stim : Stimulus) (st : SessionStore)
    (author channel : Z) :
  wf st -> is_message stim ->
  author_id (context stim) = Some author ->
  channel_id (context stim) = Some channel ->
  addresses_bot stim = true ->
  let res := route_stimulus now clock stim st in
  exists r,
    routed_session res.1 = Some r
    /\ forall later,
         get later author (guild_of stim) channel res.2
         = if Qltb later (now + ttl_seconds st) then Some r else None.
Proof.
  intros W Hm Hau Hch Hdir res.
  assert (Hdet : detected_direct now
                   (clear_expired_active now (guild_of stim) channel
                      (expire_stale clock st).2)
                   stim author (guild_of stim) channel = true).
  { unfold detected_direct. unfold addresses_bot in Hdir.
    apply orb_true_iff in Hdir as [-> | Hd]; [reflexivity|].
    rewrite (looks_directed_text _ _ _ _ Hd). apply orb_true_r. }
  destruct (route_directed now clock stim st author channel W Hm Hau Hch Hdet)
    as (_ & _ & r & s & Hs & _ & Hk & Hh & _ & _ & Hex).
  fold res in Hs, Hk, Hh. exists r. split; [exact Hs|].
  intros later. unfold get. rewrite Hk, Hh. unfold expired. rewrite Hex.
  unfold Qltb, Qleb. destruct (Qle_bool _ _); reflexivity.
Qed.




Lemma route_stimulus_spec_witness :
  routing (routed_stimulus (route_stimulus 100 100 (mention_by 1) (new 30)).1)
  = routed_label (route_stimulus 100 100 (mention_by 1) (new 30)).1.
Proof.
  exact (proj1 (route_stimulus_spec 100 100 (mention_by 1) (new 30) (wf_new 30))).
Defined.

Lemma route_then_get_witness :
  exists r,
    routed_session (route_stimulus 100 100 (mention_by 1) (new 30)).1 = Some r
    /\ get 129 1 "guild" 99 engaged_store = Some r
    /\ get 130 1 "guild" 99 engaged_store = None.
Proof.
  assert (H1 : is_message (mention_by 1)) by (left; reflexivity).
  assert (H2 : author_id (context (mention_by 1)) = Some 1%Z) by reflexivity.
  assert (H3 : channel_id (context (mention_by 1)) = Some 99%Z) by reflexivity.
  assert (H4 : addresses_bot (mention_by 1) = true) by reflexivity.
  destruct (route_then_get 100 100 (mention_by 1) (new 30) 1 99 (wf_new 30)
              H1 H2 H3 H4) as (r & Hr & Hget).
  exists r. split; [exact Hr|]. split; [exact (Hget 129) | exact (Hget 130)].
Defined.




End RoutingFacts.

(** ** RateLimiter and ActionAuditor *)

Module RateLimitFacts.
Import Actions ActionsSpec MemorySpec MemoryFacts.

Lemma filter_length_mono {A : Type} (P Q : A -> Prop)
    `{!forall x, Decision (P x)} `{!forall x, Decision (Q x)} (l : list A) :
  (forall x, x ∈ l -> P x -> Q x) ->
  (length (filter P l) <= length (filter Q l))%nat.
Proof.
  induction l as [|x l IH]; intros Himp; [simpl; lia|].
  assert (IH' : (length (filter P l) <= length (filter Q l))%nat).
  { apply IH. intros y Hy. apply Himp. right. assumption. }
  destruct (decide (P x)) as [Hp|Hp].
  - rewrite (filter_cons_True P) by assumption.
    rewrite (filter_cons_True Q) by (apply Himp; [left | assumption]).
    simpl. lia.
  - rewrite (filter_cons_False P) by assumption.
    destruct (decide (Q x)).
    + rewrite (filter_cons_True Q) by assumption. simpl. lia.
    + rewrite (filter_cons_False Q) by assumption. lia.
Qed.

Lemma filter_filter_weaker {A : Type} (P Q : A -> Prop)
    `{!forall x, Decision (P x)} `{!forall x, Decision (Q x)} (l : list A) :
  (forall x, P x -> Q x) -> filter P (filter Q l) = filter P l.
Proof.
  intros Himp. induction l as [|x l IH]; [reflexivity|].
  destruct (decide (Q x)) as [Hq|Hq].
  - rewrite (filter_cons_True Q) by assumption.
    destruct (decide (P x)).
    + rewrite !(filter_cons_True P) by assumption. congruence.
    + rewrite !(filter_cons_False P) by assumption. assumption.
  - rewrite (filter_cons_False Q) by assumption.
    rewrite (filter_cons_False P) by (intros Hp; apply Hq, Himp, Hp). assumption.
Qed.

Lemma count_window_snoc a len log now :
  count_window a len (log ++ [now])
  = (count_window a len log
     + (if Qltb a now && Qleb now (a + len) then 1 else 0))%nat.
Proof.
  unfold count_window. rewrite filter_app, length_app.
  destruct (Qltb a now && Qleb now (a + len)) eqn:E.
  - rewrite filter_cons_True by assumption. reflexivity.
  - rewrite filter_cons_False by congruence. reflexivity.
Qed.

Lemma allow_frame now k (rl : RateLimiter) :
  window (allow now k rl).2 = window rl
  /\ action_burst (allow now k rl).2 = action_burst rl
  /\ max_actions_per_minute (allow now k rl).2 = max_actions_per_minute rl
  /\ forall key, key <> k ->
       actions (allow now k rl).2 !! key = actions rl !! key.
Proof.
  unfold allow. destruct (_ <=? _)%Z; [|destruct (_ <=? _)%Z]; simpl;
    split_and!; try reflexivity; intros key Hne;
    rewrite ?lookup_insert_ne by congruence; reflexivity.
Qed.

Lemma allow_step key T now k (rl : RateLimiter) log :
  limiter_ok key T rl log ->
  T <= now -> 5 <= window rl ->
  limiter_ok key now (allow now k rl).2
    (log ++ (if (allow now k rl).1 && bool_decide (k = key) then [now] else [])).
Proof.
  intros ((Tk & HTk & Hst) & Hb & Hm) HT Hw.
  destruct (allow_frame now k rl) as (Fw & Fb & Fm & Fk).
  destruct (decide (k = key)) as [->|Hne]; cycle 1.
  { rewrite bool_decide_eq_false_2 by assumption. rewrite andb_false_r, app_nil_r.
    unfold limiter_ok. rewrite Fw, Fb, Fm, Fk by congruence.
    split; [exists Tk; split; [lra | assumption]|]. auto. }
  rewrite bool_decide_eq_true_2 by reflexivity. rewrite andb_true_r.
  unfold limiter_ok. rewrite Fw, Fb, Fm. clear Fw Fb Fm Fk.
  unfold allow. rewrite Hst.
  set (w := window rl) in *.
  assert (Hrecent : filter (fun t => Qltb (now - t) w = true)
                      (filter (fun t => Qltb (Tk - t) w = true) log)
                    = filter (fun t => Qltb (now - t) w = true) log).
  { apply filter_filter_weaker. intros t Ht. apply Qltb_lt in Ht. apply Qltb_lt. lra. }
  rewrite Hrecent. set (recent := filter _ log).
  assert (Hburst : filter (fun t => Qltb (now - t) 5 = true) recent
                   = filter (fun t => Qltb (now - t) 5 = true) log).
  { apply filter_filter_weaker. intros t Ht. apply Qltb_lt in Ht. apply Qltb_lt. lra. }
  rewrite Hburst. set (burst := filter _ log).
  assert (Hrefused : (exists Tk0, Tk0 <= now
                        /\ default [] (<[key := recent]> (actions rl) !! key)
                           = filter (fun t => Qltb (Tk0 - t) w = true) (log ++ []))
                     /\ (forall a, (Z.of_nat (count_window a 5 (log ++ []))
                                    <= Z.max 0 (action_burst rl))%Z)
                     /\ (forall a, (Z.of_nat (count_window a w (log ++ []))
                                    <= Z.max 0 (max_actions_per_minute rl))%Z)).
  { rewrite app_nil_r. split; [|auto]. exists now. split; [lra|].
    rewrite lookup_insert_eq. reflexivity. }
  destruct (_ <=? _)%Z eqn:E1; simpl; [exact Hrefused|].
  destruct (action_burst rl <=? _)%Z eqn:E2; simpl; [exact Hrefused|].
  apply Z.leb_gt in E1, E2. split_and!.
  - exists now. split; [lra|]. rewrite lookup_insert_eq. simpl.
    rewrite filter_app. f_equal. rewrite filter_cons_True; [reflexivity|].
    apply Qltb_lt. lra.
  - intros a. rewrite count_window_snoc.
    destruct (Qltb a now && Qleb now (a + 5)) eqn:Ein;
      [|rewrite Nat.add_0_r; apply Hb].
    apply andb_true_iff in Ein as [Ha Hhi]. apply Qltb_lt in Ha. apply Qleb_le in Hhi.
    assert (Hle : (count_window a 5 log <= length burst)%nat).
    { apply filter_length_mono. intros t _ Ht.
      apply andb_true_iff in Ht as [Ht _]. apply Qltb_lt in Ht. apply Qltb_lt. lra. }
    lia.
  - intros a. rewrite count_window_snoc.
    destruct (Qltb a now && Qleb now (a + w)) eqn:Ein;
      [|rewrite Nat.add_0_r; apply Hm].
    apply andb_true_iff in Ein as [Ha Hhi]. apply Qltb_lt in Ha. apply Qleb_le in Hhi.
    assert (Hle : (count_window a w log <= length recent)%nat).
    { apply filter_length_mono. intros t _ Ht.
      apply andb_true_iff in Ht as [Ht _]. apply Qltb_lt in Ht. apply Qltb_lt. lra. }
    lia.
Qed.

Lemma run_limiter_ok key calls : forall T (rl : RateLimiter) log,
  limiter_ok key T rl log ->
  nondecreasing (T :: (fst <$> calls)) ->
  5 <= window rl ->
  exists T',
    limiter_ok key T' (run_limiter calls rl).1
      (log ++ allowed_times key calls (run_limiter calls rl).2).
Proof.
  induction calls as [|[now k] calls IH]; intros T rl log Hok Hmono Hw; simpl.
  - exists T. rewrite app_nil_r. assumption.
  - destruct Hmono as [HT Hmono]. simpl in HT, Hmono.
    pose proof (allow_step key T now k rl log Hok HT Hw) as Hstep.
    destruct (allow_frame now k rl) as (Fw & _).
    destruct (allow now k rl) as [ok rl1]. simpl in *.
    destruct (IH now rl1 _ Hstep Hmono) as (T' & Hfin); [rewrite Fw; assumption|].
    destruct (run_limiter calls rl1) as [rl2 oks]. simpl in *.
    exists T'. rewrite <- app_assoc in Hfin. exact Hfin.
Qed.

Lemma run_limiter_frame calls : forall (rl : RateLimiter),
  window (run_limiter calls rl).1 = window rl
  /\ action_burst (run_limiter calls rl).1 = action_burst rl
  /\ max_actions_per_minute (run_limiter calls rl).1 = max_actions_per_minute rl.
Proof.
  induction calls as [|[now k] calls IH]; intros rl; simpl; [auto|].
  destruct (allow_frame now k rl) as (Fw & Fb & Fm & _).
  destruct (allow now k rl) as [ok rl1]. simpl in *.
  specialize (IH rl1). destruct (run_limiter calls rl1) as [rl2 oks].
  simpl in *. destruct IH as (? & ? & ?). split_and!; congruence.
Qed.

(** X23: under a clock that does not run backwards, the calls on a key that
    [allow] lets through number at most [action_burst] in any window
    [(a, a + 5]] and at most [max_actions_per_minute] in any window
    [(a, a + 60]] (none when the cap is not positive), whatever other keys
    are used in between. *)
Theorem rate_limits_hold (per_minute burst : Z) (calls : list (Q * string))
    (key : string) (a : Q) :
  nondecreasing (fst <$> calls) ->
  let allowed :=
    allowed_times key calls (run_limiter calls (new_limiter per_minute burst)).2 in
  (Z.of_nat (count_window a 5 allowed) <= Z.max 0 burst)%Z
  /\ (Z.of_nat (count_window a 60 allowed) <= Z.max 0 per_minute)%Z.
Proof.
  intros Hmono allowed.
  assert (H0 : forall T, limiter_ok key T (new_limiter per_minute burst) []).
  { intros T. split; [exists T; split; [lra | reflexivity]|].
    split; intros a'; unfold count_window; simpl; lia. }
  assert (Hex : exists T',
            limiter_ok key T' (run_limiter calls (new_limiter per_minute burst)).1
              allowed).
  { destruct calls as [|[now k] calls'].
    - exists 0. apply H0.
    - destruct (run_limiter_ok key ((now, k) :: calls') now
                  (new_limiter per_minute burst) [] (H0 now)) as (T' & H').
      + simpl. split; [lra | exact Hmono].
      + simpl. lra.
      + exists T'. exact H'. }
  destruct Hex as (T' & _ & Hb & Hm).
  destruct (run_limiter_frame calls (new_limiter per_minute burst)) as (Cw & Cb & Cm).
  specialize (Hb a). specialize (Hm a). rewrite Cb in Hb. rewrite Cw, Cm in Hm.
  simpl in Hb, Hm. auto.
Qed.

Lemma rate_limits_hold_witness :
  (Z.of_nat
     (count_window 0 5
        (allowed_times "channel:99" four_calls
           (run_limiter four_calls (new_limiter 20 3)).2)) <= 3)%Z.
Proof.
  assert (H : nondecreasing (fst <$> four_calls)).
  { simpl. repeat split; lra. }
  exact (proj1 (rate_limits_hold 20 3 four_calls "channel:99" 0 H)).
Defined.

End RateLimitFacts.

Module AuditorFacts.
Import Actions ActionsSpec.

Lemma deque_append_window {A : Type} (bound : nat) (x : A) (all : list A) :
  deque_append bound x (drop (length all - bound) all)
  = drop (length (all ++ [x]) - bound) (all ++ [x]).
Proof.
  unfold deque_append. rewrite !length_app, length_drop. simpl.
  destruct (decide (length all <= bound)%nat) as [Hle|Hgt].
  - replace (length all - bound)%nat with 0%nat by lia. rewrite !drop_0.
    replace (length all - 0 + 1 - bound)%nat with (length all + 1 - bound)%nat by lia.
    reflexivity.
  - replace (length all - (length all - bound) + 1 - bound)%nat with 1%nat by lia.
    replace (length all + 1 - bound)%nat with ((length all - bound) + 1)%nat by lia.
    rewrite <- drop_drop. f_equal. rewrite drop_app_le by lia. reflexivity.
Qed.

Lemma record_all_window (results : list ActionResult) : forall (a : ActionAuditor),
  records a = [] ->
  let a' := foldl (fun acc r => record r acc) a results in
  maxlen a' = maxlen a
  /\ records a' = drop (length results - maxlen a) results.
Proof.
  induction results as [|r results IH] using rev_ind; intros a Ha; simpl.
  - split; [reflexivity | exact Ha].
  - rewrite foldl_app. simpl. destruct (IH a Ha) as [Hm Hr].
    split; [exact Hm|]. rewrite Hr, Hm. apply deque_append_window.
Qed.

(** X24: an auditor of [max_records] places holds the last [max_records]
    results recorded, in order.  [recent_failures(limit)] returns the last
    [limit] failures among them for a positive limit; for limit 0 it
    returns all of them, and for a negative limit it drops the first
    [-limit]. *)
Theorem auditor_keeps_latest (max_records limit : Z)
    (results : list ActionResult) (a : ActionAuditor) :
  new_auditor max_records = Ok a ->
  let a' := foldl (fun acc r => record r acc) a results in
  let failed := filter (fun r => success r = false) (records a') in
  records a' = drop (length results - Z.to_nat max_records) results
  /\ (Z.of_nat (length (records a')) <= max_records)%Z
  /\ ((0 < limit)%Z ->
      recent_failures limit a' = drop (length failed - Z.to_nat limit) failed)
  /\ recent_failures 0 a' = failed
  /\ ((limit < 0)%Z -> recent_failures limit a' = drop (Z.to_nat (- limit)) failed).
Proof.
  unfold new_auditor. destruct (max_records <? 0)%Z eqn:E; [discriminate|].
  apply Z.ltb_ge in E. intros [= <-]. cbv zeta.
  set (a' := foldl _ _ results). set (failed := filter _ (records a')).
  destruct (record_all_window results (mkAuditor (Z.to_nat max_records) []) eq_refl)
    as [_ Hr]. simpl in Hr. fold a' in Hr.
  split_and!.
  - exact Hr.
  - rewrite Hr, length_drop. lia.
  - intros Hl. unfold recent_failures, slice_from. fold failed.
    destruct (- limit <? 0)%Z eqn:E'; [|apply Z.ltb_ge in E'; lia].
    f_equal. lia.
  - unfold recent_failures, slice_from. fold failed. simpl. apply drop_0.
  - intros Hl. unfold recent_failures, slice_from. fold failed.
    destruct (- limit <? 0)%Z eqn:E'; [apply Z.ltb_lt in E'; lia | reflexivity].
Qed.

Lemma auditor_keeps_latest_witness :
  records (foldl (fun acc r => record r acc) (mkAuditor 2 [])
             [failed_result 1; failed_result 2; failed_result 3])
  = [failed_result 2; failed_result 3].
Proof.
  assert (H : new_auditor 2 = Ok (mkAuditor 2 [])) by reflexivity.
  exact (proj1 (auditor_keeps_latest 2 5
                  [failed_result 1; failed_result 2; failed_result 3] _ H)).
Defined.

End AuditorFacts.

(** ** InternalState, IdentityCore and StrategicReality *)

Module StateFacts.
Import Governor State Identity Strategic StateSpec.

Lemma max0_unit x : x <= 1 -> in_unit (Qmax 0 x).
Proof.
  intros H. split; [apply Q.le_max_l | apply Q.max_lub; lra].
Qed.

Lemma min1_unit x : 0 <= x -> in_unit (Qmin 1 x).
Proof.
  intros H. split; [apply Q.min_glb; lra | apply Q.le_min_l].
Qed.

Lemma unit_clamp_unit x : in_unit (unit_clamp x).
Proof.
  unfold unit_clamp. split; [apply Q.le_max_l|].
  apply Q.max_lub; [lra | apply Q.le_min_l].
Qed.

Lemma change_in_unit s c :
  state_in_unit s -> sane c -> state_in_unit (change s c).
Proof.
  intros ([? ?] & [? ?] & [? ?] & [? ?]) Hc.
  destruct c as [dt | now ty sal]; unfold sane in Hc; unfold change.
  - unfold decay, state_in_unit. cbn [social_energy risk_pressure narrative_load focus].
    unfold Qdiv. change (/ 2) with (1 # 2). change (/ 3) with (1 # 3).
    split_and!; try (apply max0_unit; lra). split; assumption.
  - unfold update_on_stimulus, state_in_unit.
    destruct (decide (ty = "discord_message"));
      cbn [social_energy risk_pressure narrative_load focus].
    { split_and!; try (apply min1_unit; lra); split; assumption. }
    destruct (decide (ty = "silence"));
      cbn [social_energy risk_pressure narrative_load focus].
    { split_and!; try (apply max0_unit; lra); split; assumption. }
    destruct (startswith "moderation" ty);
      cbn [social_energy risk_pressure narrative_load focus];
      split_and!; try (apply min1_unit; lra); split; assumption.
Qed.

Lemma decay_lowers dt s :
  0 <= dt -> state_in_unit s ->
  social_energy (decay dt s) <= social_energy s
  /\ risk_pressure (decay dt s) <= risk_pressure s
  /\ narrative_load (decay dt s) <= narrative_load s
  /\ focus (decay dt s) = focus s.
Proof.
  intros Hdt ([? ?] & [? ?] & [? ?] & _). unfold decay.
  cbn [social_energy risk_pressure narrative_load focus].
  unfold Qdiv. change (/ 2) with (1 # 2). change (/ 3) with (1 # 3).
  split_and!; try reflexivity; apply Q.max_lub; lra.
Qed.

(** X25: the four scalars of the internal state stay in [[0, 1]] under any
    run of decays and perceptions whose time steps and saliences are not
    negative; a decay never raises social energy, risk pressure or
    narrative load and never changes the focus. *)
Theorem state_stays_in_unit (changes : list Change) (s : InternalState) :
  state_in_unit s ->
  Forall sane changes ->
  state_in_unit (foldl change s changes)
  /\ forall dt, 0 <= dt ->
       let s' := foldl change s changes in
       social_energy (decay dt s') <= social_energy s'
       /\ risk_pressure (decay dt s') <= risk_pressure s'
       /\ narrative_load (decay dt s') <= narrative_load s'
       /\ focus (decay dt s') = focus s'.
Proof.
  intros Hs Hc.
  assert (H : state_in_unit (foldl change s changes)).
  { revert s Hs. induction Hc as [|c changes Hc _ IH]; intros s Hs; simpl;
      [assumption|]. apply IH. apply change_in_unit; assumption. }
  split; [exact H|]. intros dt Hdt. apply decay_lowers; assumption.
Qed.

(** X26: with persistence allowed and a learning rate that is not negative,
    [adjust_from_outcome] keeps every trait in [[0, 1]]; an outcome score
    that is not negative never lowers assertiveness, curiosity and
    playfulness and never raises caution and patience, and a score that is
    not positive does the opposite.  The traits are changed before
    [persist] is called, so the change stays when the call raises. *)
Theorem identity_drift (persist_io : option exn) (outcome_score : Q) (p : Persona) :
  allow_persistence p = true ->
  0 <= identity_learning_rate p ->
  traits_in_unit (values p) ->
  let v := values p in
  let v' := values (adjust_from_outcome persist_io outcome_score p).1 in
  traits_in_unit v'
  /\ (0 <= outcome_score ->
      assertiveness v <= assertiveness v' /\ curiosity v <= curiosity v'
      /\ playfulness v <= playfulness v'
      /\ caution v' <= caution v /\ patience v' <= patience v)
  /\ (outcome_score <= 0 ->
      assertiveness v' <= assertiveness v /\ curiosity v' <= curiosity v
      /\ playfulness v' <= playfulness v
      /\ caution v <= caution v' /\ patience v <= patience v')
  /\ (adjust_from_outcome persist_io outcome_score p).2
     = match persist_io with Some e => Raised e | None => Ok tt end.
Proof.
  intros Hp Hlr ([? ?] & [? ?] & [? ?] & [? ?] & [? ?]) v v'.
  subst v v'. unfold adjust_from_outcome. rewrite Hp. simpl.
  set (lr := identity_learning_rate p) in *.
  assert (Hup : forall x d, 0 <= x -> x <= 1 -> 0 <= d -> x <= unit_clamp (x + d)).
  { intros x d ? ? ?. unfold unit_clamp.
    eapply Qle_trans; [|apply Q.le_max_r]. apply Q.min_glb; lra. }
  assert (Hdown : forall x d, 0 <= x -> x <= 1 -> d <= 0 -> unit_clamp (x + d) <= x).
  { intros x d ? ? ?. unfold unit_clamp. apply Q.max_lub; [lra|].
    eapply Qle_trans; [apply Q.le_min_r | lra]. }
  split_and!.
  - unfold traits_in_unit. simpl. split_and!; apply unit_clamp_unit.
  - intros Hs. assert (0 <= lr * outcome_score) by nra.
    split_and!; [apply Hup | apply Hup | apply Hup | apply Hdown | apply Hdown];
      try assumption; nra.
  - intros Hs. assert (lr * outcome_score <= 0) by nra.
    split_and!; [apply Hdown | apply Hdown | apply Hdown | apply Hup | apply Hup];
      try assumption; nra.
  - reflexivity.
Qed.

(** X27: the strategic reality returns a confidence of at most 1 (at least 0
    when curiosity is not negative) and a risk in [[0, 1]], whatever the
    traits are, and it recommends nothing but an [observe], and that only
    on a silence with a risk pressure above 0.6. *)
Theorem strategic_output_in_range (now : Q) (stimulus : Stimulus)
    (state : InternalState) (identity : IdentityCore) :
  let o := interpret now stimulus state identity in
  confidence o <= 1
  /\ in_unit (risk o)
  /\ (0 <= curiosity identity -> 0 <= confidence o)
  /\ (forall act, recommended_action o = Some act ->
        intent_type act = Observe
        /\ type stimulus = "silence"
        /\ 0.6 < risk_pressure state).
Proof.
  unfold interpret.
  assert (Hr : forall x, in_unit (Qmax 0 (Qmin 1 x))) by apply unit_clamp_unit.
  assert (Hc : forall x, 0 <= curiosity identity -> 0 <= x - (0.4 + curiosity identity * 0.3) ->
                         0 <= Qmin 1 x).
  { intros x ? ?. apply Q.min_glb; lra. }
  destruct (decide (type stimulus = "discord_message")); simpl.
  { split_and!; [apply Q.le_min_l | apply Hr | intros; apply Hc; lra | intros act [=]]. }
  destruct (decide (type stimulus = "silence")); simpl.
  - case_Qltb 0.6 (risk_pressure state); simpl.
    + split_and!; [apply Q.le_min_l | apply Hr | intros; apply Hc; lra |].
      intros act [= <-]. auto.
    + split_and!; [apply Q.le_min_l | apply Hr | intros; apply Hc; lra | intros act [=]].
  - split_and!; [apply Q.le_min_l | apply Hr | intros; apply Hc; lra | intros act [=]].
Qed.

Lemma state_stays_in_unit_witness :
  state_in_unit (foldl change (initial 0) busy_hour).
Proof.
  assert (H1 : state_in_unit (initial 0)).
  { unfold state_in_unit, in_unit. simpl. repeat split; lra. }
  assert (H2 : Forall sane busy_hour).
  { repeat constructor; simpl; lra. }
  exact (proj1 (state_stays_in_unit busy_hour (initial 0) H1 H2)).
Defined.

Lemma identity_drift_witness :
  traits_in_unit (values (adjust_from_outcome None 1 learner).1).
Proof.
  assert (H1 : allow_persistence learner = true) by reflexivity.
  assert (H2 : 0 <= identity_learning_rate learner) by (simpl; lra).
  assert (H3 : traits_in_unit (values learner)).
  { unfold traits_in_unit, in_unit. simpl. repeat split; lra. }
  exact (proj1 (identity_drift None 1 learner H1 H2 H3)).
Defined.

End StateFacts.

(** ** Deciding and acting *)

Module ActingFacts.
Import Memory MemorySpec Governor Actions Cognition Acting ActingSpec.

Lemma dispatch_intent_spec executed i queued (st : Stage) :
  let st' := (dispatch_intent executed i queued st).2 in
  (action_queue st' = action_queue st \/ action_queue st' = action_queue st ++ [i])
  /\ (safe_mode (core st) = true -> safe_mode (core st') = true)
  /\ action_queue_limit st' = action_queue_limit st
  /\ ((0 < action_queue_limit st)%Z ->
      (Z.of_nat (length (action_queue st)) <= action_queue_limit st)%Z ->
      (Z.of_nat (length (action_queue st')) <= action_queue_limit st)%Z).
Proof.
  unfold dispatch_intent, queue_full.
  destruct (0 <? action_queue_limit st)%Z eqn:E0; simpl.
  - destruct (_ <=? _)%Z eqn:E1; simpl.
    + split_and!; auto.
    + apply Z.leb_gt in E1. split_and!; auto.
      intros _ _. rewrite length_app. simpl. lia.
  - apply Z.ltb_ge in E0. split_and!; auto. intros; lia.
Qed.

(** X28: in Safe Mode, [_decide] returns only [reply], [send_message] or
    [observe] intents, and [_act] puts at most one intent on the action
    queue, of one of these three types: for any other decision it is the
    [safe_mode_block] observation.  [_act] leaves Safe Mode on and keeps a
    bounded queue within its bound. *)
Theorem safe_mode_gate (now clock executed : Q) (io : option exn) (audit : string)
    (identity : IdentityCore) (memory : CausalMemory) (session_active : bool)
    (stimulus : Stimulus) (interpretations : list RealityOutput)
    (decision : GovernorDecisionWrapper) (st : Stage) :
  safe_mode (core st) = true ->
  (forall w,
     _decide now clock io audit (core st) identity memory session_active
       stimulus interpretations = Ok w ->
     text_only (intent_type (wrapped_intent w)) = true)
  /\ let st' := (_act now executed decision st).2 in
     safe_mode (core st') = true
     /\ (exists added,
           action_queue st' = action_queue st ++ added
           /\ (length added <= 1)%nat
           /\ Forall (fun i => text_only (intent_type i) = true) added
           /\ (text_only (intent_type (wrapped_intent decision)) = false ->
               Forall (fun i => i = safe_mode_block now) added))
     /\ ((0 < action_queue_limit st)%Z ->
         (Z.of_nat (length (action_queue st)) <= action_queue_limit st)%Z ->
         (Z.of_nat (length (action_queue st')) <= action_queue_limit st)%Z).
Proof.
  intros Hsafe. split.
  - intros w. unfold _decide.
    destruct (deliberate _ _ _ _ _ _ _) as [d|e]; [|discriminate].
    rewrite Hsafe. simpl.
    destruct (text_only (intent_type (action d))) eqn:Et; simpl;
      destruct (decide (type stimulus = "silence")); intros [= <-]; simpl;
      first [exact Et | reflexivity].
  - unfold _act. rewrite Hsafe. simpl.
    destruct (text_only (intent_type (wrapped_intent decision))) eqn:Et; simpl.
    + destruct (dispatch_intent_spec executed (wrapped_intent decision)
                  "Queued for adapter execution" st) as (Hq & Hs & _ & Hb).
      split_and!; [auto | | exact Hb].
      destruct Hq as [-> | ->].
      * exists []. rewrite app_nil_r. split_and!; auto.
      * exists [wrapped_intent decision]. split_and!; auto; try discriminate.
    + destruct (dispatch_intent_spec executed (safe_mode_block now)
                  "Safe Mode enforced; non-text action blocked" st)
        as (Hq & Hs & _ & Hb).
      split_and!; [auto | | exact Hb].
      destruct Hq as [-> | ->].
      * exists []. rewrite app_nil_r. split_and!; auto.
      * exists [safe_mode_block now]. split_and!; auto.
Qed.

Lemma safe_mode_gate_witness :
  exists added,
    action_queue (_act 2000 2000 tool_decision safe_stage).2
    = action_queue safe_stage ++ added
    /\ Forall (fun i => i = safe_mode_block 2000) added.
Proof.
  assert (H : safe_mode (core safe_stage) = true) by reflexivity.
  destruct (safe_mode_gate 2000 2000 2000 None "" GovernorSpec.neutral fresh_store false
              (test_stimulus 0) [] tool_decision safe_stage H)
    as [_ [_ [(added & Hq & _ & _ & Hb) _]]].
  exists added. split; [exact Hq | exact (Hb eq_refl)].
Defined.

End ActingFacts.
